(** * A shallow embedding of the mist template parser

    The development follows the TypeScript sources:
    - [position.ts]   : [PositionRange]
    - [expression.ts] : [TsCodeExpression]
    - [tsCode.ts]     : [TsCode], [toMappedString], [builder], [TsCodeArray]
    - [statement.ts]  : the statement classes and their three renderers
    - [safeString.ts] : [safeString]
    - [parser.ts]     : the [Parser] class

    JavaScript strings are sequences of code units.  They are modelled as
    lists of [ascii] characters (code units below 256); [length], [slice]
    and indexing are those of the list. *)

From Stdlib Require Import String Ascii DecimalString Arith Lia Bool List.
Import ListNotations.

Set Implicit Arguments.
Set Warnings "-register-all".

(* ================================================================= *)
(** ** Strings *)

Definition str := list ascii.

Definition lit (s : string) : str := list_ascii_of_string s.
Arguments lit s%_string.

Definition nl : ascii := "010"%char.
Definition tab : ascii := "009"%char.
Definition dquote : ascii := "034"%char.
Definition backslash : ascii := "\"%char.

Fixpoint str_eqb (a b : str) : bool :=
  match a, b with
  | [], [] => true
  | x :: a', y :: b' => Ascii.eqb x y && str_eqb a' b'
  | _, _ => false
  end.

(** [s.slice(a, b)] for non-negative [a] and [b]. *)
Definition slice (s : str) (a b : nat) : str := firstn (b - a) (skipn a s).

(** [s.slice(a)]. *)
Definition sliceFrom (s : str) (a : nat) : str := skipn a s.

(** [s.slice(0, -n)]: [-0] is [0], so an empty delimiter empties the string. *)
Definition sliceDropEnd (s : str) (n : nat) : str :=
  if n =? 0 then [] else firstn (length s - n) s.

(** [s.replaceAll(c, by)] for a one-character pattern. *)
Definition replaceAll (c : ascii) (by_ : str) (s : str) : str :=
  flat_map (fun x => if Ascii.eqb x c then by_ else [x]) s.

(** [safeString.ts] *)
Definition safeString (value : str) : str :=
  replaceAll nl (lit "\n")
    (replaceAll dquote [backslash; dquote]
       (replaceAll backslash [backslash; backslash] value)).

(** Decimal rendering of a number inside a template literal. *)
Definition numberToString (n : nat) : str :=
  lit (NilEmpty.string_of_uint (Nat.to_uint n)).

(** [a.join(sep)] *)
Fixpoint join (sep : str) (l : list str) : str :=
  match l with
  | [] => []
  | [x] => x
  | x :: l' => x ++ sep ++ join sep l'
  end.

(* ================================================================= *)
(** ** position.ts *)

Record PositionRange := mkPositionRange {
  start : nat;
  lineStart : nat;
  end_ : nat
}.

(* ================================================================= *)
(** ** tsCode.ts : fragments and the source map *)

Record MapItem := mkMapItem {
  sourceOffset : nat;
  generatedOffset : nat;
  length_ : nat
}.

Inductive TsCode : Type :=
| MkTsCode (sourceOffset_ : nat) (parentOffset_ : nat)
           (children_ : list TsCode) (literal_ : str) (shouldBeMapped_ : bool).

Definition tsSourceOffset (t : TsCode) : nat :=
  match t with MkTsCode so _ _ _ _ => so end.
Definition tsParentOffset (t : TsCode) : nat :=
  match t with MkTsCode _ po _ _ _ => po end.
Definition tsChildren (t : TsCode) : list TsCode :=
  match t with MkTsCode _ _ ch _ _ => ch end.
Definition tsLiteral (t : TsCode) : str :=
  match t with MkTsCode _ _ _ l _ => l end.
Definition tsShouldBeMapped (t : TsCode) : bool :=
  match t with MkTsCode _ _ _ _ sm => sm end.

(** The setter [parentOffset] and the write [childAsTsCode.#parentOffset = ...]. *)
Definition setParentOffset (t : TsCode) (value : nat) : TsCode :=
  match t with MkTsCode so _ ch l sm => MkTsCode so value ch l sm end.

Record TsCodeBuilder := mkTsCodeBuilder {
  b_sourceOffset : nat;
  b_parentOffset : nat;
  b_children : list TsCode;
  b_literal : str
}.

(** [new TsCode(sourceOffset, shouldBeMapped, builder)] *)
Definition newTsCode (so : nat) (sm : bool) (b : TsCodeBuilder) : TsCode :=
  MkTsCode so (b_parentOffset b) (b_children b) (b_literal b) sm.

Definition rebase (base : nat) (m : MapItem) : MapItem :=
  mkMapItem (sourceOffset m) (base + generatedOffset m) (length_ m).

(** [TsCode.toMappedString].  [mappedLoop] is the [for] loop over the
    children: its arguments are the loop's local variables, and
    [toMappedString_] the method it calls on each child. *)
Section MappedLoop.
Variable toMappedString_ : TsCode -> list MapItem * str.
Variable literal : str.

Fixpoint mappedLoop (cs : list TsCode) (generatedCode : str)
         (maps : list MapItem) (lastLiteralIndex : nat) : list MapItem * str :=
  match cs with
  | [] => (maps, generatedCode ++ sliceFrom literal lastLiteralIndex)
  | child :: cs' =>
    let generatedCode1 :=
      generatedCode ++ slice literal lastLiteralIndex (tsParentOffset child) in
    let lastLiteralIndex1 := tsParentOffset child in
    let (childMaps, childAsString) := toMappedString_ child in
    let maps1 :=
      if tsShouldBeMapped child
      then maps ++ [mkMapItem (tsSourceOffset child)
                              (length generatedCode1)
                              (length childAsString)]
      else maps in
    let maps2 := maps1 ++ map (rebase (length generatedCode1)) childMaps in
    mappedLoop cs' (generatedCode1 ++ childAsString) maps2 lastLiteralIndex1
  end.
End MappedLoop.

Fixpoint toMappedString (t : TsCode) : list MapItem * str :=
  match t with
  | MkTsCode _ _ children literal _ =>
    mappedLoop toMappedString literal children [] [] 0
  end.

(** [TsCode.builder]: the tagged-template function.  [children] holds the
    result of [child.toTsCode()] for every interpolated value, in order.
    Every [toTsCode()] call builds a new object, so the write to its
    [#parentOffset] is [setParentOffset] on the value. *)
Fixpoint builderLoop (literals : list str) (children : list (option TsCode))
         (literalOffsetAbove : nat) : list TsCode :=
  match children, literals with
  | child :: cs, literal :: ls =>
    let literalOffsetAbove1 := literalOffsetAbove + length literal in
    match child with
    | None => builderLoop ls cs literalOffsetAbove1
    | Some childAsTsCode =>
      setParentOffset childAsTsCode literalOffsetAbove1
        :: builderLoop ls cs literalOffsetAbove1
    end
  | _, _ => []
  end.

Definition builder (literals : list str) (children : list (option TsCode))
  : TsCodeBuilder :=
  mkTsCodeBuilder 0 0 (builderLoop literals children 0) (concat literals).

(** [TsCodeArray.toTsCode] *)
Fixpoint tsCodeArrayLoop (tsCodes : list (option TsCode)) (delimiter : str)
         (children : list TsCode) (literal : str) : list TsCode * str :=
  match tsCodes with
  | [] => (children, literal)
  | None :: rest => tsCodeArrayLoop rest delimiter children literal
  | Some asTsCode :: rest =>
    tsCodeArrayLoop rest delimiter
      (children ++ [setParentOffset asTsCode (length literal)])
      (literal ++ delimiter)
  end.

Definition TsCodeArray_toTsCode (tsCodes : list (option TsCode)) (delimiter : str)
  : TsCode :=
  let (children, literal) := tsCodeArrayLoop tsCodes delimiter [] [] in
  newTsCode 0 false
    (mkTsCodeBuilder 0 0 children (sliceDropEnd literal (length delimiter))).

(* ================================================================= *)
(** ** expression.ts *)

Record TsCodeExpression := mkTsCodeExpression {
  position : PositionRange;
  value : str
}.

Definition TsCodeExpression_toTsCode (e : TsCodeExpression) : TsCode :=
  newTsCode (start (position e)) true
    (mkTsCodeBuilder (start (position e)) 0 [] (value e)).

Definition TsCodeExpression_toString (e : TsCodeExpression) : str := value e.

(* ================================================================= *)
(** ** statement.ts *)

Module StatementName.
Inductive t : Set :=
| TextStatement
| InlineTsCodeStatement
| InlineSafeTsCodeStatement
| EachStatement
| EndStatement
| IfStatement
| ElseIfStatement
| ElseStatement
| LetStatement
| AssignStatement
| ParamStatement
| ImportStatement
| DefineSlotStatement
| ComponentStatement
| ComponentMainSlotStatement
| ComponentSlotStatement.

Definition eqb (a b : t) : bool :=
  match a, b with
  | TextStatement, TextStatement
  | InlineTsCodeStatement, InlineTsCodeStatement
  | InlineSafeTsCodeStatement, InlineSafeTsCodeStatement
  | EachStatement, EachStatement
  | EndStatement, EndStatement
  | IfStatement, IfStatement
  | ElseIfStatement, ElseIfStatement
  | ElseStatement, ElseStatement
  | LetStatement, LetStatement
  | AssignStatement, AssignStatement
  | ParamStatement, ParamStatement
  | ImportStatement, ImportStatement
  | DefineSlotStatement, DefineSlotStatement
  | ComponentStatement, ComponentStatement
  | ComponentMainSlotStatement, ComponentMainSlotStatement
  | ComponentSlotStatement, ComponentSlotStatement => true
  | _, _ => false
  end.

(** The enum's string values. *)
Definition toString (n : t) : str :=
  match n with
  | TextStatement => lit "TextStatement"
  | InlineTsCodeStatement => lit "InlineTsCodeStatement"
  | InlineSafeTsCodeStatement => lit "InlineSafeTsCodeStatement"
  | EachStatement => lit "EachStatement"
  | EndStatement => lit "EndStatement"
  | IfStatement => lit "IfStatement"
  | ElseIfStatement => lit "ElseIfStatement"
  | ElseStatement => lit "ElseStatement"
  | LetStatement => lit "LetStatement"
  | AssignStatement => lit "AssignStatement"
  | ParamStatement => lit "ParamStatement"
  | ImportStatement => lit "ImportStatement"
  | DefineSlotStatement => lit "DefineSlotStatement"
  | ComponentStatement => lit "ComponentStatement"
  | ComponentMainSlotStatement => lit "ComponentMainSlotStatement"
  | ComponentSlotStatement => lit "ComponentSlotStatement"
  end.

(** [names.includes(n)] *)
Definition includes (names : list t) (n : t) : bool := existsb (eqb n) names.
End StatementName.

(** The statement classes.  A field of a TypeScript class type is a
    [Statement] here, as it is at run time: [next] of an [If]/[ElseIf] is
    whatever the parser stored after its cast, [slots] whatever its filter
    kept. *)
Inductive Statement : Type :=
| TextStatement (pos : PositionRange) (value_ : str)
| InlineTsCodeStatement (pos : PositionRange) (expression : TsCodeExpression)
| InlineSafeTsCodeStatement (pos : PositionRange) (expression : TsCodeExpression)
| EachStatement (pos : PositionRange) (iterator variable : TsCodeExpression)
                (children : list Statement)
| EndStatement (pos : PositionRange)
| IfStatement (pos : PositionRange) (expression : TsCodeExpression)
              (children : list Statement) (next : option Statement)
| ElseIfStatement (pos : PositionRange) (expression : TsCodeExpression)
                  (children : list Statement) (next : option Statement)
| ElseStatement (pos : PositionRange) (children : list Statement)
| LetStatement (pos : PositionRange) (variableName : TsCodeExpression)
               (value_ : option TsCodeExpression)
| AssignStatement (pos : PositionRange) (variableName value_ : TsCodeExpression)
| ParamStatement (pos : PositionRange) (name_ type_ : TsCodeExpression)
                 (defaultValue : option TsCodeExpression)
| ImportStatement (pos : PositionRange) (expression : TsCodeExpression)
| DefineSlotStatement (pos : PositionRange) (slotName : TsCodeExpression)
                      (slotArguments : option TsCodeExpression)
| ComponentStatement (pos : PositionRange) (component params : TsCodeExpression)
                     (mainSlot : Statement) (slots : list Statement)
| ComponentMainSlotStatement (pos : PositionRange) (children : list Statement)
| ComponentSlotStatement (pos : PositionRange) (slotName : TsCodeExpression)
                         (paramsVariable : option TsCodeExpression)
                         (children : list Statement).

(** The [name] field each class initialises.  [AssignStatement] declares
    [override name = StatementName.LetStatement]. *)
Definition name (s : Statement) : StatementName.t :=
  match s with
  | TextStatement _ _ => StatementName.TextStatement
  | InlineTsCodeStatement _ _ => StatementName.InlineTsCodeStatement
  | InlineSafeTsCodeStatement _ _ => StatementName.InlineSafeTsCodeStatement
  | EachStatement _ _ _ _ => StatementName.EachStatement
  | EndStatement _ => StatementName.EndStatement
  | IfStatement _ _ _ _ => StatementName.IfStatement
  | ElseIfStatement _ _ _ _ => StatementName.ElseIfStatement
  | ElseStatement _ _ => StatementName.ElseStatement
  | LetStatement _ _ _ => StatementName.LetStatement
  | AssignStatement _ _ _ => StatementName.LetStatement
  | ParamStatement _ _ _ _ => StatementName.ParamStatement
  | ImportStatement _ _ => StatementName.ImportStatement
  | DefineSlotStatement _ _ _ => StatementName.DefineSlotStatement
  | ComponentStatement _ _ _ _ _ => StatementName.ComponentStatement
  | ComponentMainSlotStatement _ _ => StatementName.ComponentMainSlotStatement
  | ComponentSlotStatement _ _ _ _ => StatementName.ComponentSlotStatement
  end.

Definition hasToBeHandledInParse (s : Statement) : bool :=
  match s with
  | ElseIfStatement _ _ _ _ | ElseStatement _ _
  | ComponentMainSlotStatement _ _ | ComponentSlotStatement _ _ _ _ => true
  | _ => false
  end.

Definition stmtPosition (s : Statement) : PositionRange :=
  match s with
  | TextStatement p _ | InlineTsCodeStatement p _ | InlineSafeTsCodeStatement p _
  | EachStatement p _ _ _ | EndStatement p | IfStatement p _ _ _
  | ElseIfStatement p _ _ _ | ElseStatement p _ | LetStatement p _ _
  | AssignStatement p _ _ | ParamStatement p _ _ _ | ImportStatement p _
  | DefineSlotStatement p _ _ | ComponentStatement p _ _ _ _
  | ComponentMainSlotStatement p _ | ComponentSlotStatement p _ _ _ => p
  end.

(** [x instanceof EndStatement], [x instanceof ComponentSlotStatement] *)
Definition instanceofEndStatement (s : Statement) : bool :=
  match s with EndStatement _ => true | _ => false end.
Definition instanceofComponentSlotStatement (s : Statement) : bool :=
  match s with ComponentSlotStatement _ _ _ _ => true | _ => false end.

(** The [next] field, [undefined] on the classes that have none. *)
Definition nextOf (s : Statement) : option Statement :=
  match s with
  | IfStatement _ _ _ n | ElseIfStatement _ _ _ n => n
  | _ => None
  end.

(* ----------------------------------------------------------------- *)
(** *** Structured fragment: [toTsCode] *)

Definition exprCode (e : TsCodeExpression) : option TsCode :=
  Some (TsCodeExpression_toTsCode e).

Definition newline : str := [nl].

Fixpoint toTsCode (s : Statement) : option TsCode :=
  let arr (children : list Statement) (delimiter : str) : option TsCode :=
    Some (TsCodeArray_toTsCode (map toTsCode children) delimiter) in
  match s with
  | TextStatement _ _ => None
  | InlineTsCodeStatement pos e =>
    Some (newTsCode (start pos) false
            (builder [lit "String("; lit ")"] [exprCode e]))
  | InlineSafeTsCodeStatement pos e =>
    Some (newTsCode (start pos) false
            (builder [lit "String("; lit ")"] [exprCode e]))
  | EachStatement pos iterator variable children =>
    Some (newTsCode (start pos) false
            (builder [lit "for (const "; lit " of "; lit ") {" ++ newline;
                      newline ++ lit "}"]
                     [exprCode variable; exprCode iterator; arr children newline]))
  | EndStatement _ => None
  | IfStatement pos e children next =>
    Some (newTsCode (start pos) false
            match next with
            | Some n =>
              builder [lit "if ("; lit ") {" ++ newline;
                       newline ++ lit "}" ++ newline; []]
                      [exprCode e; arr children newline; toTsCode n]
            | None =>
              builder [lit "if ("; lit ") {" ++ newline; newline ++ lit "}"]
                      [exprCode e; arr children newline]
            end)
  | ElseIfStatement pos e children next =>
    Some (newTsCode (start pos) false
            match next with
            | Some n =>
              builder [lit "else if ("; lit ") {" ++ newline;
                       newline ++ lit "}" ++ newline; []]
                      [exprCode e; arr children newline; toTsCode n]
            | None =>
              builder [lit "else if ("; lit ") {" ++ newline; newline ++ lit "}"]
                      [exprCode e; arr children newline]
            end)
  | ElseStatement pos children =>
    Some (newTsCode (start pos) false
            (builder [lit "else {" ++ newline; newline ++ lit "}"]
                     [arr children newline]))
  | LetStatement pos variableName v =>
    Some (newTsCode (start pos) false
            match v with
            | Some v' => builder [lit "let "; lit " = "; []]
                                 [exprCode variableName; exprCode v']
            | None => builder [lit "let "; []] [exprCode variableName]
            end)
  | AssignStatement pos variableName v =>
    Some (newTsCode (start pos) false
            (builder [[]; lit " = "; []] [exprCode variableName; exprCode v]))
  | ParamStatement pos n ty d =>
    Some (newTsCode (start pos) false
            match d with
            | Some d' => builder [lit "const "; lit ": "; lit " = "; []]
                                 [exprCode n; exprCode ty; exprCode d']
            | None => builder [lit "declare const "; lit ": "; []]
                              [exprCode n; exprCode ty]
            end)
  | ImportStatement pos e =>
    Some (newTsCode (start pos) false (builder [lit "import "; []] [exprCode e]))
  | DefineSlotStatement pos slotName slotArguments =>
    Some (newTsCode (start pos) false
            match slotArguments with
            | Some a => builder [lit "interface $Slots {" ++ newline; lit ": ";
                                 newline ++ lit "}"]
                                [exprCode slotName; exprCode a]
            | None => builder [lit "interface $Slots {" ++ newline;
                               lit ": {}" ++ newline ++ lit "}"]
                              [exprCode slotName]
            end)
  | ComponentStatement pos component params mainSlot slots =>
    Some (newTsCode (start pos) false
            (builder [lit "await "; lit ".$render("; lit ", {" ++ newline;
                      lit ", " ++ newline; newline ++ lit "})"]
                     [exprCode component; exprCode params; toTsCode mainSlot;
                      arr slots (lit ", " ++ newline)]))
  | ComponentMainSlotStatement pos children =>
    Some (newTsCode (start pos) false
            (builder [lit "main: async () => {" ++ newline;
                      newline ++ [tab] ++ lit "return " ++ [dquote; dquote]
                        ++ newline ++ lit "}"]
                     [arr children newline]))
  | ComponentSlotStatement pos slotName paramsVariable children =>
    Some (newTsCode (start pos) false
            match paramsVariable with
            | Some pv =>
              builder [[]; lit ": async ("; lit ") => {" ++ newline;
                       newline ++ [tab] ++ lit "return " ++ [dquote; dquote]
                         ++ newline ++ lit "}"]
                      [exprCode slotName; exprCode pv; arr children newline]
            | None =>
              builder [[]; lit ": async () => {" ++ newline;
                       newline ++ [tab] ++ lit "return " ++ [dquote; dquote]
                         ++ newline ++ lit "}"]
                      [exprCode slotName; arr children newline]
            end)
  end.

(* ----------------------------------------------------------------- *)
(** *** Flattened executable string: [toCompiledString] *)

Definition setCompiledStringLine (line : nat) (compiledString : str) : str :=
  lit "$line = " ++ numberToString (line + 1) ++ newline ++ [tab] ++ compiledString.

Fixpoint toCompiledString (s : Statement) : str :=
  let childrenToCompiledString (children : list Statement) : str :=
    newline ++ concat (map (fun child => toCompiledString child ++ newline) children) in
  match s with
  | TextStatement _ v => lit "out += " ++ [dquote] ++ safeString v ++ [dquote]
  | InlineTsCodeStatement pos e =>
    setCompiledStringLine (lineStart pos)
      (lit "out += String(" ++ TsCodeExpression_toString e ++ lit ")")
  | InlineSafeTsCodeStatement pos e =>
    lit "out += $api.safeString(String(" ++ TsCodeExpression_toString e ++ lit "))"
  | EachStatement pos iterator variable children =>
    setCompiledStringLine (lineStart pos)
      (lit "for (const " ++ TsCodeExpression_toString variable ++ lit " of "
         ++ TsCodeExpression_toString iterator ++ lit ") {"
         ++ childrenToCompiledString children ++ lit "}")
  | EndStatement _ => []
  | IfStatement pos e children next =>
    setCompiledStringLine (lineStart pos)
      (lit "if (" ++ TsCodeExpression_toString e ++ lit ") {"
         ++ childrenToCompiledString children ++ lit "}"
         ++ match next with
            | Some n => newline ++ toCompiledString n
            | None => []
            end)
  | ElseIfStatement pos e children next =>
    setCompiledStringLine (lineStart pos)
      (lit "elseif (" ++ TsCodeExpression_toString e ++ lit ") {"
         ++ childrenToCompiledString children ++ lit "}"
         ++ match next with
            | Some n => newline ++ toCompiledString n
            | None => []
            end)
  | ElseStatement pos children =>
    setCompiledStringLine (lineStart pos)
      (lit "else {" ++ childrenToCompiledString children ++ lit "}")
  | LetStatement pos variableName v =>
    setCompiledStringLine (lineStart pos)
      (lit "let " ++ TsCodeExpression_toString variableName
         ++ match v with
            | Some v' => lit " = " ++ TsCodeExpression_toString v'
            | None => []
            end)
  | AssignStatement pos variableName v =>
    setCompiledStringLine (lineStart pos)
      (TsCodeExpression_toString variableName ++ lit " = "
         ++ TsCodeExpression_toString v)
  | ParamStatement _ _ _ _ => []
  | ImportStatement _ _ => []
  | DefineSlotStatement _ _ _ => []
  | ComponentStatement pos component params mainSlot slots =>
    lit "out += await $api.renderComponent(" ++ TsCodeExpression_toString component
      ++ lit ", " ++ TsCodeExpression_toString params ++ lit ", {" ++ newline
      ++ toCompiledString mainSlot ++ childrenToCompiledString slots
      ++ lit "})" ++ newline
  | ComponentMainSlotStatement pos children =>
    lit "main: async () => {" ++ newline ++ [tab] ++ lit "let out = "
      ++ [dquote; dquote] ++ childrenToCompiledString children
      ++ lit "return out" ++ newline ++ lit "}, "
  | ComponentSlotStatement pos slotName paramsVariable children =>
    TsCodeExpression_toString slotName ++ lit ": async ("
      ++ match paramsVariable with
         | Some pv => TsCodeExpression_toString pv
         | None => []
         end
      ++ lit ") => {" ++ newline ++ [tab] ++ lit "let out = "
      ++ [dquote; dquote] ++ childrenToCompiledString children
      ++ lit "return out" ++ newline ++ lit "}, "
  end.

(* ----------------------------------------------------------------- *)
(** *** Plain description: [toObject] *)

Inductive StatementObject : Type :=
| TextStatementObject (value_ : str)
| InlineTsCodeStatementObject (expression : str)
| InlineSafeTsCodeStatementObject (expression : str)
| EachStatementObject (variable iterator : str) (children : list StatementObject)
| IfStatementObject (expression : str) (children : list StatementObject)
                    (next : option StatementObject)
| ElseIfStatementObject (expression : str) (children : list StatementObject)
                        (next : option StatementObject)
| ElseStatementObject (children : list StatementObject)
| LetStatementObject (variableName : str) (variableValue : option str)
| AssingStatementObject (variableName variableValue : str)
| ParamStatementObject (paramName paramType : str) (paramDefaultValue : option str)
| ImportStatementObject (expression : str)
| DefineSlotStatementObject (slotName : str) (slotArguments : option str)
| ComponentStatementObject (component params : str)
                           (mainSlot : option StatementObject)
                           (slots : list StatementObject)
| ComponentMainSlotStatementObject (children : list StatementObject)
| ComponentSlotStatementObject (slotName : str) (paramsVariable : option str)
                               (children : list StatementObject).

(** The [type] field of a description. *)
Definition objType (o : StatementObject) : StatementName.t :=
  match o with
  | TextStatementObject _ => StatementName.TextStatement
  | InlineTsCodeStatementObject _ => StatementName.InlineTsCodeStatement
  | InlineSafeTsCodeStatementObject _ => StatementName.InlineSafeTsCodeStatement
  | EachStatementObject _ _ _ => StatementName.EachStatement
  | IfStatementObject _ _ _ => StatementName.IfStatement
  | ElseIfStatementObject _ _ _ => StatementName.ElseIfStatement
  | ElseStatementObject _ => StatementName.ElseStatement
  | LetStatementObject _ _ => StatementName.LetStatement
  | AssingStatementObject _ _ => StatementName.AssignStatement
  | ParamStatementObject _ _ _ => StatementName.ParamStatement
  | ImportStatementObject _ => StatementName.ImportStatement
  | DefineSlotStatementObject _ _ => StatementName.DefineSlotStatement
  | ComponentStatementObject _ _ _ _ => StatementName.ComponentStatement
  | ComponentMainSlotStatementObject _ => StatementName.ComponentMainSlotStatement
  | ComponentSlotStatementObject _ _ _ => StatementName.ComponentSlotStatement
  end.

(** [.filter((child) => child !== null)] after [.map] *)
Fixpoint dropNull {A : Type} (l : list (option A)) : list A :=
  match l with
  | [] => []
  | Some x :: l' => x :: dropNull l'
  | None :: l' => dropNull l'
  end.

(** [null] (the result on [EndStatement]) is [None]. *)
Fixpoint toObject (s : Statement) : option StatementObject :=
  let childrenToObject (children : list Statement) : list StatementObject :=
    dropNull (map toObject children) in
  match s with
  | TextStatement _ v => Some (TextStatementObject v)
  | InlineTsCodeStatement _ e =>
    Some (InlineTsCodeStatementObject (TsCodeExpression_toString e))
  | InlineSafeTsCodeStatement _ e =>
    Some (InlineSafeTsCodeStatementObject (TsCodeExpression_toString e))
  | EachStatement _ iterator variable children =>
    Some (EachStatementObject (TsCodeExpression_toString variable)
                              (TsCodeExpression_toString variable)
                              (childrenToObject children))
  | EndStatement _ => None
  | IfStatement _ e children next =>
    Some (IfStatementObject (TsCodeExpression_toString e)
                            (childrenToObject children)
                            match next with Some n => toObject n | None => None end)
  | ElseIfStatement _ e children next =>
    Some (ElseIfStatementObject (TsCodeExpression_toString e)
                                (childrenToObject children)
                                match next with Some n => toObject n | None => None end)
  | ElseStatement _ children => Some (ElseStatementObject (childrenToObject children))
  | LetStatement _ variableName v =>
    Some (LetStatementObject (TsCodeExpression_toString variableName)
                             (option_map TsCodeExpression_toString v))
  | AssignStatement _ variableName v =>
    Some (AssingStatementObject (TsCodeExpression_toString variableName)
                                (TsCodeExpression_toString v))
  | ParamStatement _ n ty d =>
    Some (ParamStatementObject (TsCodeExpression_toString n)
                               (TsCodeExpression_toString ty)
                               (option_map TsCodeExpression_toString d))
  | ImportStatement _ e => Some (ImportStatementObject (TsCodeExpression_toString e))
  | DefineSlotStatement _ slotName slotArguments =>
    Some (DefineSlotStatementObject (TsCodeExpression_toString slotName)
                                    (option_map TsCodeExpression_toString slotArguments))
  | ComponentStatement _ component params mainSlot slots =>
    Some (ComponentStatementObject (TsCodeExpression_toString component)
                                   (TsCodeExpression_toString params)
                                   (toObject mainSlot)
                                   (childrenToObject slots))
  | ComponentMainSlotStatement _ children =>
    Some (ComponentMainSlotStatementObject (childrenToObject children))
  | ComponentSlotStatement _ slotName paramsVariable children =>
    Some (ComponentSlotStatementObject (TsCodeExpression_toString slotName)
                                       (option_map TsCodeExpression_toString paramsVariable)
                                       (childrenToObject children))
  end.

(* ================================================================= *)
(** ** error.ts *)

(** A [ParserError] is kept as its kind, its position and the values that
    enter its message; the file path only labels the message. *)
Inductive ParserError : Type :=
| UnexpctedError (position : PositionRange) (expected : str) (got : option str)
| InvalidTagNameError (position : PositionRange) (gotName : str)
| DisalowedTagContexError (position : PositionRange) (gotStatement : StatementName.t)
| UnexpectedAmountOfArgumentsError (position : PositionRange)
                                   (expectedCount gotCount : nat)
| EmptyExpressionError (position : PositionRange)
| InvalidImportSlotsParamsOrder (position : PositionRange)
| SlotOutsideComponenterror (position : PositionRange)
| SlotDefinitionNamedMainError (position : PositionRange).

(** The outcome of a parsing method: a value, a thrown [ParserError], or the
    exhaustion of the fuel that bounds a loop of the model. *)
Inductive Res (A : Type) : Type :=
| Ok (a : A)
| Throw (e : ParserError)
| OutOfFuel.
Arguments Ok {A} a.
Arguments Throw {A} e.
Arguments OutOfFuel {A}.

Definition bind {A B : Type} (c : Res A) (k : A -> Res B) : Res B :=
  match c with
  | Ok a => k a
  | Throw e => Throw e
  | OutOfFuel => OutOfFuel
  end.

Notation "x <- c ;; k" := (bind c (fun x => k))
  (at level 61, c at next level, right associativity).
Notation "' pat <- c ;; k" := (bind c (fun x => match x with pat => k end))
  (at level 61, pat pattern, c at next level, right associativity).

(* ================================================================= *)
(** ** parser.ts *)

(** The mutable fields [#index] and [#line] of a [Parser]. *)
Record Cursor := mkCursor {
  index : nat;
  line : nat
}.

Record ValuePosition := mkValuePosition {
  vp_value : str;
  vp_position : PositionRange
}.

(** The result of [#skipUntilAndWith]. *)
Record Scanned := mkScanned {
  sc_position : PositionRange;
  sc_value : str;
  controllChar : str
}.

Definition isParenStart (c : ascii) : bool :=
  Ascii.eqb c "(" || Ascii.eqb c "[" || Ascii.eqb c "{".
Definition isParenEnd (c : ascii) : bool :=
  Ascii.eqb c ")" || Ascii.eqb c "]" || Ascii.eqb c "}".

(** [/^[a-z0-9-_]$/i] *)
Definition isValidTagChar (c : ascii) : bool :=
  let n := nat_of_ascii c in
  ((97 <=? n) && (n <=? 122)) || ((65 <=? n) && (n <=? 90))
  || ((48 <=? n) && (n <=? 57)) || (n =? 45) || (n =? 95).

(** White space of [trimStart]/[trimEnd] among the code units below 256. *)
Definition isWhitespace (c : ascii) : bool :=
  let n := nat_of_ascii c in
  ((9 <=? n) && (n <=? 13)) || (n =? 32) || (n =? 160).

Fixpoint trimStart (s : str) : str :=
  match s with
  | c :: s' => if isWhitespace c then trimStart s' else s
  | [] => []
  end.

Definition trimEnd (s : str) : str := rev (trimStart (rev s)).

Definition trimWithPosition (v : str) (p : PositionRange) : ValuePosition :=
  let valueTrimedStart := trimStart v in
  let newStartIndex := start p + (length v - length valueTrimedStart) in
  let valueTrimedEnd := trimEnd valueTrimedStart in
  let newEndIndex := end_ p - (length valueTrimedStart - length valueTrimedEnd) in
  mkValuePosition valueTrimedEnd (mkPositionRange newStartIndex (lineStart p) newEndIndex).

Definition areImportStatementsAllowedAfter (n : StatementName.t) : bool :=
  StatementName.includes
    [StatementName.TextStatement; StatementName.ImportStatement] n.

Definition areDefineSlotStatementsAllowedAfter (n : StatementName.t) : bool :=
  StatementName.includes
    [StatementName.TextStatement; StatementName.ImportStatement;
     StatementName.DefineSlotStatement] n.

Definition areParamStatementsAllowedAfter (n : StatementName.t) : bool :=
  StatementName.includes
    [StatementName.TextStatement; StatementName.ParamStatement;
     StatementName.ImportStatement; StatementName.DefineSlotStatement] n.

Definition expr (v : ValuePosition) : TsCodeExpression :=
  mkTsCodeExpression (vp_position v) (vp_value v).

Definition scannedExpr (v : Scanned) : TsCodeExpression :=
  mkTsCodeExpression (sc_position v) (sc_value v).

Section Parser.

(** The field [#code]. *)
Variable code : str.

Definition getCharAt (i : nat) : option ascii := nth_error code i.

Definition currentChar (st : Cursor) : option ascii := getCharAt (index st).

Definition peek (at_ : nat) (st : Cursor) : option ascii :=
  getCharAt (index st + at_).

Definition isChar (o : option ascii) (c : ascii) : bool :=
  match o with
  | Some c' => Ascii.eqb c' c
  | None => false
  end.

Definition isAtEnd (st : Cursor) : bool :=
  match currentChar st with None => true | Some _ => false end.

(** One round of the loop of [#advance]. *)
Definition advance1 (st : Cursor) : Cursor :=
  let i := S (index st) in
  mkCursor i (if isChar (getCharAt i) nl then S (line st) else line st).

Fixpoint advance (times : nat) (st : Cursor) : Cursor :=
  match times with
  | 0 => st
  | S t => advance t (advance1 st)
  end.

Definition createPosition (st : Cursor) (len : nat) : PositionRange :=
  mkPositionRange (index st) (line st) (index st + len).

Definition consume (c : ascii) (st : Cursor) : Res Cursor :=
  if isChar (currentChar st) c then Ok (advance1 st)
  else Throw (UnexpctedError (createPosition st 1) [c]
                             (option_map (fun x => [x]) (currentChar st))).

Fixpoint areNextCharsFrom (i : nat) (controll : str) : bool :=
  match controll with
  | [] => true
  | c :: rest => isChar (nth_error code i) c && areNextCharsFrom (S i) rest
  end.

Definition areNextChars (st : Cursor) (controll : str) : bool :=
  areNextCharsFrom (index st) controll.

(** [#skipUntilAndWith]: the [while] loop, one unit of fuel a round. *)
Fixpoint skipUntilLoop (fuel : nat) (untilChars : list str) (allowEmpty : bool)
         (startIndex startLine depth : nat) (st : Cursor)
  : Res (Scanned * Cursor) :=
  match currentChar st with
  | None =>
    Throw (UnexpctedError (createPosition st 1) (hd [] untilChars) None)
  | Some c =>
    match fuel with
    | 0 => OutOfFuel
    | S fuel' =>
      if isParenStart c then
        skipUntilLoop fuel' untilChars allowEmpty startIndex startLine
                      (S depth) (advance1 st)
      else if (0 <? depth) && isParenEnd c then
        skipUntilLoop fuel' untilChars allowEmpty startIndex startLine
                      (depth - 1) (advance1 st)
      else
        match (if depth =? 0 then find (areNextChars st) untilChars else None) with
        | Some controll =>
          let v := slice code startIndex (index st) in
          let endIndex := index st in
          let st' := advance (length controll) st in
          let trimed :=
            trimWithPosition v (mkPositionRange startIndex startLine endIndex) in
          if negb allowEmpty && (length (vp_value trimed) =? 0) then
            Throw (EmptyExpressionError
                     (mkPositionRange startIndex startLine
                        (if startIndex =? endIndex then startIndex + 1
                         else endIndex)))
          else
            Ok (mkScanned (vp_position trimed) (vp_value trimed) controll, st')
        | None =>
          skipUntilLoop fuel' untilChars allowEmpty startIndex startLine
                        depth (advance1 st)
        end
    end
  end.

Definition skipUntilAndWith (untilChars : list str) (allowEmpty : bool)
           (st : Cursor) : Res (Scanned * Cursor) :=
  skipUntilLoop (length code) untilChars allowEmpty (index st) (line st) 0 st.

(** [#parseParams]: the [do ... while] loop. *)
Fixpoint parseParamsLoop (fuel : nat) (parsedArguments : list ValuePosition)
         (st : Cursor) : Res (list ValuePosition * Cursor) :=
  match fuel with
  | 0 => OutOfFuel
  | S fuel' =>
    '(argument, st') <- skipUntilAndWith [lit ","; lit ")"] true st ;;
    let parsedArguments' :=
      parsedArguments
        ++ [mkValuePosition (sc_value argument) (sc_position argument)] in
    if str_eqb (controllChar argument) (lit ")") then Ok (parsedArguments', st')
    else parseParamsLoop fuel' parsedArguments' st'
  end.

Definition parseParams (expectedCount : nat) (st : Cursor)
  : Res (list ValuePosition * Cursor) :=
  if negb (isChar (currentChar st) "(") then
    if negb (expectedCount =? 0) then
      Throw (UnexpectedAmountOfArgumentsError (createPosition st 1) expectedCount 0)
    else Ok ([], st)
  else
    '(parsedArguments, st') <- parseParamsLoop (S (length code)) [] (advance1 st) ;;
    let parsedArguments' :=
      match last (map Some parsedArguments) None with
      | Some l =>
        if length (vp_value l) =? 0 then removelast parsedArguments
        else parsedArguments
      | None => parsedArguments
      end in
    if negb (expectedCount =? length parsedArguments') then
      Throw (UnexpectedAmountOfArgumentsError (createPosition st' 1) expectedCount
               (length parsedArguments'))
    else Ok (parsedArguments', st').

Definition makeInlineTsCodeStatement (st : Cursor) : Res (Statement * Cursor) :=
  let startIndex := index st in
  let startLine := line st in
  let isUnsafe := isChar (currentChar st) "!" in
  let st1 := if isUnsafe then advance 1 st else st in
  let st2 := advance 2 st1 in
  '(expressionPosValue, st3) <- skipUntilAndWith [lit "}"] true st2 ;;
  st4 <- consume "}" st3 ;;
  let tsCodeExpression := scannedExpr expressionPosValue in
  if isUnsafe then
    Ok (InlineTsCodeStatement
          (mkPositionRange startIndex startLine (index st4)) tsCodeExpression, st4)
  else
    Ok (InlineSafeTsCodeStatement
          (mkPositionRange startIndex startLine (index st4)) tsCodeExpression, st4).

Definition skipInlineComment (st : Cursor) : Res Cursor :=
  '(_, st') <- skipUntilAndWith [lit "--}}"] true (advance 4 st) ;;
  Ok st'.

(** The tag-name loop of [#makeAtTag]. *)
Fixpoint tagNameLoop (fuel : nat) (st : Cursor) : Cursor :=
  match fuel with
  | 0 => st
  | S fuel' =>
    match currentChar st with
    | Some c => if isValidTagChar c then tagNameLoop fuel' (advance1 st) else st
    | None => st
    end
  end.

Definition position_ (startIndex startLine : nat) (st : Cursor) : PositionRange :=
  mkPositionRange startIndex startLine (index st).

(** [next?.position.start || this.#index] *)
Definition nextStartOr (next : option Statement) (st : Cursor) : nat :=
  match next with
  | Some n => if start (stmtPosition n) =? 0 then index st
              else start (stmtPosition n)
  | None => index st
  end.

Definition makeLetStatement (startIndex startLine : nat) (st : Cursor)
  : Res (Statement * Cursor) :=
  st1 <- consume "(" st ;;
  '(variableNameValuePos, st2) <- skipUntilAndWith [lit "="; lit ")"] false st1 ;;
  if str_eqb (controllChar variableNameValuePos) (lit "=") then
    '(valueValuePos, st3) <- skipUntilAndWith [lit ")"] false st2 ;;
    Ok (LetStatement (position_ startIndex startLine st3)
                     (scannedExpr variableNameValuePos)
                     (Some (scannedExpr valueValuePos)), st3)
  else
    Ok (LetStatement (position_ startIndex startLine st2)
                     (scannedExpr variableNameValuePos) None, st2).

Definition makeAssignStatement (startIndex startLine : nat) (st : Cursor)
  : Res (Statement * Cursor) :=
  st1 <- consume "(" st ;;
  '(variableNameValuePos, st2) <- skipUntilAndWith [lit "="] false st1 ;;
  '(valueValuePos, st3) <- skipUntilAndWith [lit ")"] false st2 ;;
  Ok (AssignStatement (position_ startIndex startLine st3)
                      (scannedExpr variableNameValuePos)
                      (scannedExpr valueValuePos), st3).

Definition makeParamStatement (startIndex startLine : nat) (st : Cursor)
  : Res (Statement * Cursor) :=
  st1 <- consume "(" st ;;
  '(identifierNameValuePos, st2) <- skipUntilAndWith [lit ":"] false st1 ;;
  '(typeValuePos, st3) <- skipUntilAndWith [lit "="; lit ")"] false st2 ;;
  if str_eqb (controllChar typeValuePos) (lit "=") then
    '(defaultValuePos, st4) <- skipUntilAndWith [lit ")"] false st3 ;;
    Ok (ParamStatement (position_ startIndex startLine st4)
                       (scannedExpr identifierNameValuePos)
                       (scannedExpr typeValuePos)
                       (Some (scannedExpr defaultValuePos)), st4)
  else
    Ok (ParamStatement (position_ startIndex startLine st3)
                       (scannedExpr identifierNameValuePos)
                       (scannedExpr typeValuePos) None, st3).

Definition makeImportStatement (startIndex startLine : nat) (st : Cursor)
  : Res (Statement * Cursor) :=
  st1 <- consume "(" st ;;
  '(expressionValuePos, st2) <- skipUntilAndWith [lit ")"] false st1 ;;
  Ok (ImportStatement (position_ startIndex startLine st2)
                      (scannedExpr expressionValuePos), st2).

Definition makeDefineSlotStatement (startIndex startLine : nat) (st : Cursor)
  : Res (Statement * Cursor) :=
  st1 <- consume "(" st ;;
  '(slotNameValuePos, st2) <- skipUntilAndWith [lit ":"; lit ")"] false st1 ;;
  if str_eqb (sc_value slotNameValuePos) (lit "main") then
    Throw (SlotDefinitionNamedMainError (sc_position slotNameValuePos))
  else if str_eqb (controllChar slotNameValuePos) (lit ":") then
    '(slotArgumentsValuePos, st3) <- skipUntilAndWith [lit ")"] false st2 ;;
    Ok (DefineSlotStatement (position_ startIndex startLine st3)
                            (scannedExpr slotNameValuePos)
                            (Some (scannedExpr slotArgumentsValuePos)), st3)
  else
    Ok (DefineSlotStatement (position_ startIndex startLine st2)
                            (scannedExpr slotNameValuePos) None, st2).

Section Recursion.

(** The recursive call of [#parseOnce] from the block reader. *)
Variable parseOnce_rec :
  bool -> bool -> bool -> bool -> Cursor -> Res (Statement * Cursor).

(** [#parseUntilStatment]: the [while] loop. *)
Fixpoint parseUntilLoop (fuel : nat) (statementNames : list StatementName.t)
         (allowSlotStatement : bool) (statements : list Statement)
         (st : Cursor) : Res (list Statement * Statement * Cursor) :=
  match currentChar st with
  | None =>
    Throw (UnexpctedError (createPosition st 1)
             (join (lit ",") (map StatementName.toString statementNames)) None)
  | Some _ =>
    match fuel with
    | 0 => OutOfFuel
    | S fuel' =>
      '(statement, st') <- parseOnce_rec false false false allowSlotStatement st ;;
      if StatementName.includes statementNames (name statement) then
        Ok (statements, statement, st')
      else
        parseUntilLoop fuel' statementNames allowSlotStatement
                       (statements ++ [statement]) st'
    end
  end.

Definition parseUntilStatment (statementNames : list StatementName.t)
           (allowSlotStatement : bool) (st : Cursor)
  : Res (list Statement * Statement * Cursor) :=
  parseUntilLoop (length code) statementNames allowSlotStatement [] st.

Definition makeEachStatement (startIndex startLine : nat) (st : Cursor)
  : Res (Statement * Cursor) :=
  st1 <- consume "(" st ;;
  '(variablePosValue, st2) <- skipUntilAndWith [lit " in "; lit ")"] false st1 ;;
  if negb (str_eqb (controllChar variablePosValue) (lit " in ")) then
    Throw (UnexpctedError
             (mkPositionRange (end_ (sc_position variablePosValue)) startLine
                              (end_ (sc_position variablePosValue) + 1))
             (lit "in") (Some (lit ")")))
  else
    '(iteratorPosValue, st3) <- skipUntilAndWith [lit ")"] false st2 ;;
    let variable := scannedExpr variablePosValue in
    let iterator := scannedExpr iteratorPosValue in
    '(children, _, st4) <-
      parseUntilStatment [StatementName.EndStatement] false st3 ;;
    Ok (EachStatement (position_ startIndex startLine st4)
                      iterator variable children, st4).

Definition makeIfStatement (startIndex startLine : nat) (st : Cursor)
  : Res (Statement * Cursor) :=
  st1 <- consume "(" st ;;
  '(ifExpressionValuePos, st2) <- skipUntilAndWith [lit ")"] false st1 ;;
  '(children, endingStatement, st3) <-
    parseUntilStatment [StatementName.ElseIfStatement;
                        StatementName.ElseStatement;
                        StatementName.EndStatement] false st2 ;;
  let next := if instanceofEndStatement endingStatement then None
              else Some endingStatement in
  Ok (IfStatement
        (mkPositionRange startIndex startLine (nextStartOr next st3))
        (scannedExpr ifExpressionValuePos) children next, st3).

Definition makeElseIfStatement (startIndex startLine : nat) (st : Cursor)
  : Res (Statement * Cursor) :=
  st1 <- consume "(" st ;;
  '(ifExpressionValuePos, st2) <- skipUntilAndWith [lit ")"] false st1 ;;
  '(children, endingStatement, st3) <-
    parseUntilStatment [StatementName.ElseIfStatement;
                        StatementName.ElseStatement;
                        StatementName.EndStatement] false st2 ;;
  let next := if instanceofEndStatement endingStatement then None
              else Some endingStatement in
  Ok (ElseIfStatement
        (mkPositionRange startIndex startLine (nextStartOr next st3))
        (scannedExpr ifExpressionValuePos) children next, st3).

Definition makeElseStatement (startIndex startLine : nat) (st : Cursor)
  : Res (Statement * Cursor) :=
  '(_, st1) <- parseParams 0 st ;;
  '(children, _, st2) <-
    parseUntilStatment [StatementName.EndStatement] false st1 ;;
  Ok (ElseStatement (position_ startIndex startLine st2) children, st2).

Definition makeComponentStatement (startIndex startLine : nat) (st : Cursor)
  : Res (Statement * Cursor) :=
  '(tagParams, st1) <- parseParams 2 st ;;
  match tagParams with
  | [componentNameValuePos; componentParamsValuePos] =>
    '(statements, _, st2) <-
      parseUntilStatment [StatementName.EndStatement] true st1 ;;
    let slots := filter instanceofComponentSlotStatement statements in
    let mainSlotChildren :=
      filter (fun slot => negb (instanceofComponentSlotStatement slot))
             statements in
    Ok (ComponentStatement (position_ startIndex startLine st2)
          (expr componentNameValuePos) (expr componentParamsValuePos)
          (ComponentMainSlotStatement (position_ startIndex startLine st2)
                                      mainSlotChildren)
          slots, st2)
  | _ =>
    (* unreachable: [#parseParams(2)] returns exactly two arguments *)
    Throw (UnexpectedAmountOfArgumentsError (createPosition st1 1) 2
             (length tagParams))
  end.

Definition makeComponentSlotStatement (startIndex startLine : nat)
           (st : Cursor) : Res (Statement * Cursor) :=
  st1 <- consume "(" st ;;
  '(slotNameValuePos, st2) <- skipUntilAndWith [lit ","; lit ")"] false st1 ;;
  '(slotParamsVariableValuePos, st3) <-
    (if str_eqb (controllChar slotNameValuePos) (lit ",") then
       '(v, st3) <- skipUntilAndWith [lit ")"] false st2 ;;
       Ok (Some (scannedExpr v), st3)
     else Ok (None, st2)) ;;
  '(children, _, st4) <-
    parseUntilStatment [StatementName.EndStatement] false st3 ;;
  Ok (ComponentSlotStatement (position_ startIndex startLine st4)
        (scannedExpr slotNameValuePos) slotParamsVariableValuePos children, st4).

(** The tag name read by [#makeAtTag], with the cursor behind it. *)
Definition readTagName (st : Cursor) : str * Cursor :=
  let st1 := advance1 st in
  let tagNameStartIndex := index st1 in
  let st2 := tagNameLoop (length code) st1 in
  let tagNameEndIndex := index st2 in
  (slice code tagNameStartIndex tagNameEndIndex, st2).

Definition makeAtTag (allowImportStatements allowDefineSlotStatement
                      allowParamStatement allowSlotStatement : bool)
           (st : Cursor) : Res (Statement * Cursor) :=
  let startIndex := index st in
  let startLine := line st in
  let (tagName, st2) := readTagName st in
  if str_eqb tagName (lit "each") then makeEachStatement startIndex startLine st2
  else if str_eqb tagName (lit "if") then makeIfStatement startIndex startLine st2
  else if str_eqb tagName (lit "elseif") then
    makeElseIfStatement startIndex startLine st2
  else if str_eqb tagName (lit "else") then
    makeElseStatement startIndex startLine st2
  else if str_eqb tagName (lit "let") then makeLetStatement startIndex startLine st2
  else if str_eqb tagName (lit "assign") then
    makeAssignStatement startIndex startLine st2
  else if str_eqb tagName (lit "component") then
    makeComponentStatement startIndex startLine st2
  else if str_eqb tagName (lit "import") then
    if negb allowImportStatements then
      Throw (InvalidImportSlotsParamsOrder (position_ startIndex startLine st2))
    else makeImportStatement startIndex startLine st2
  else if str_eqb tagName (lit "param") then
    if negb allowParamStatement then
      Throw (InvalidImportSlotsParamsOrder (position_ startIndex startLine st2))
    else makeParamStatement startIndex startLine st2
  else if str_eqb tagName (lit "defslot") then
    if negb allowDefineSlotStatement then
      Throw (InvalidImportSlotsParamsOrder (position_ startIndex startLine st2))
    else makeDefineSlotStatement startIndex startLine st2
  else if str_eqb tagName (lit "slot") then
    if negb allowSlotStatement then
      Throw (SlotOutsideComponenterror (position_ startIndex startLine st2))
    else makeComponentSlotStatement startIndex startLine st2
  else if str_eqb tagName (lit "end") then
    Ok (EndStatement (position_ startIndex startLine st2), st2)
  else
    Throw (InvalidTagNameError (position_ startIndex startLine st2) tagName).

(** [#parseOnce]: the [while] loop; [accValue], [startIndex] and
    [startLine] are the fields of [accumilator]. *)
Fixpoint parseOnceLoop (fuel : nat)
         (allowImportStatements allowDefineSlotStatement
          allowParamStatement allowSlotStatement : bool)
         (accValue : str) (startIndex startLine : nat) (st : Cursor)
  : Res (Statement * Cursor) :=
  let makeAccumilator :=
    TextStatement (mkPositionRange startIndex startLine (index st)) accValue in
  match currentChar st with
  | None => Ok (makeAccumilator, st)
  | Some c =>
    match fuel with
    | 0 => OutOfFuel
    | S fuel' =>
      let continue_ acc st' :=
        parseOnceLoop fuel' allowImportStatements allowDefineSlotStatement
                      allowParamStatement allowSlotStatement
                      acc startIndex startLine st' in
      if Ascii.eqb c "\" && isChar (peek 1 st) "{" && isChar (peek 2 st) "{" then
        continue_ accValue (advance 3 st)
      else if (Ascii.eqb c "{" && isChar (peek 1 st) "{")
              || (Ascii.eqb c "!" && isChar (peek 1 st) "{"
                  && isChar (peek 1 st) "{") then
        if negb (length accValue =? 0) then Ok (makeAccumilator, st)
        else if isChar (peek 2 st) "-" && isChar (peek 3 st) "-" then
          st' <- skipInlineComment st ;;
          continue_ accValue st'
        else makeInlineTsCodeStatement st
      else if Ascii.eqb c "\" && isChar (peek 1 st) "@" then
        continue_ accValue (advance 2 st)
      else if Ascii.eqb c "@" then
        if negb (length accValue =? 0) then Ok (makeAccumilator, st)
        else makeAtTag allowImportStatements allowDefineSlotStatement
                       allowParamStatement allowSlotStatement st
      else
        continue_ (accValue ++ [c]) (advance 1 st)
    end
  end.

Definition parseOnceBody (allowImportStatements allowDefineSlotStatement
                          allowParamStatement allowSlotStatement : bool)
           (st : Cursor) : Res (Statement * Cursor) :=
  parseOnceLoop (length code) allowImportStatements allowDefineSlotStatement
                allowParamStatement allowSlotStatement [] (index st) (line st) st.

End Recursion.

(** [#parseOnce], its recursion through the block reader bounded by
    [depth] nested blocks. *)
Fixpoint parseOnceDepth (depth : nat)
         (allowImportStatements allowDefineSlotStatement
          allowParamStatement allowSlotStatement : bool) (st : Cursor)
  : Res (Statement * Cursor) :=
  match depth with
  | 0 => OutOfFuel
  | S depth' =>
    parseOnceBody (parseOnceDepth depth') allowImportStatements
                  allowDefineSlotStatement allowParamStatement
                  allowSlotStatement st
  end.

Definition parseOnce := parseOnceDepth (S (length code)).

(** [parse]: the [while] loop. *)
Fixpoint parseLoop (fuel : nat) (statements : list Statement)
         (allowImportStatements allowDefineSlotStatement
          allowParamStatement : bool) (st : Cursor) : Res (list Statement) :=
  match currentChar st with
  | None => Ok statements
  | Some _ =>
    match fuel with
    | 0 => OutOfFuel
    | S fuel' =>
      '(statement, st') <-
        parseOnce allowImportStatements allowDefineSlotStatement
                  allowParamStatement false st ;;
      let allowImportStatements' :=
        if allowImportStatements
           && negb (areImportStatementsAllowedAfter (name statement))
        then false else allowImportStatements in
      let allowDefineSlotStatement' :=
        if allowDefineSlotStatement
           && negb (areDefineSlotStatementsAllowedAfter (name statement))
        then false else allowDefineSlotStatement in
      let allowParamStatement' :=
        if allowParamStatement
           && negb (areParamStatementsAllowedAfter (name statement))
        then false else allowParamStatement in
      if hasToBeHandledInParse statement then
        Throw (DisalowedTagContexError (stmtPosition statement) (name statement))
      else
        parseLoop fuel' (statements ++ [statement]) allowImportStatements'
                  allowDefineSlotStatement' allowParamStatement' st'
    end
  end.

Definition initialCursor : Cursor := mkCursor 0 0.

Definition parse : Res (list Statement) :=
  parseLoop (length code) [] true true true initialCursor.

End Parser.

(* ================================================================= *)
(** ** position.ts : line and column of a range *)

Record PositionInFile := mkPositionInFile {
  pif_index : nat;
  pif_line : nat;
  pif_col : nat
}.

(** [start] is [undefined] when the loop never meets [i === this.start]. *)
Record PositionRangeInFile := mkPositionRangeInFile {
  pr_start : option PositionInFile;
  pr_end : PositionInFile
}.

(** The [while (i < this.end)] loop of [getPositionInFile]: [todo] is the
    number of rounds left, [end - i]; the other arguments are the loop's
    variables. *)
Fixpoint getPositionLoop (code : str) (p : PositionRange) (todo i line column : nat)
         (startPos : option PositionInFile)
  : option PositionInFile * (nat * nat) :=
  match todo with
  | 0 => (startPos, (line, column))
  | S todo' =>
    let column1 := column + 1 in
    let line2 := if isChar (nth_error code i) nl then line + 1 else line in
    let column2 := if isChar (nth_error code i) nl then 0 else column1 in
    let startPos' :=
      if i =? start p then Some (mkPositionInFile (start p) line2 column2)
      else startPos in
    getPositionLoop code p todo' (i + 1) line2 column2 startPos'
  end.

Definition getPositionInFile (p : PositionRange) (code : str) : PositionRangeInFile :=
  let '(startPos, (line, column)) := getPositionLoop code p (end_ p) 0 0 0 None in
  mkPositionRangeInFile startPos (mkPositionInFile (end_ p) line column).

(** [PositionRange.copy]: the constructor takes [(start, lineStart, end)],
    and [copy] passes it [(this.start, this.end)]. *)
Definition copy (p : PositionRange) : PositionRange :=
  mkPositionRange (start p) (end_ p) (start p + 1).

(** The [length] getter. *)
Definition positionLength (p : PositionRange) : nat := end_ p - start p.

(** The position a [ParserError] is thrown with. *)
Definition errorPosition (e : ParserError) : PositionRange :=
  match e with
  | UnexpctedError p _ _ | InvalidTagNameError p _ | DisalowedTagContexError p _
  | UnexpectedAmountOfArgumentsError p _ _ | EmptyExpressionError p
  | InvalidImportSlotsParamsOrder p | SlotOutsideComponenterror p
  | SlotDefinitionNamedMainError p => p
  end.

(** The place the constructor of [ParserError] writes into the message,
    [line + 1], [col] and the offset of
    [In file:line:col (offset)]; it reads [positionInFile.start], so there is
    none when that is [undefined]. *)
Definition errorPlace (e : ParserError) (code : str) : option (nat * nat * nat) :=
  match pr_start (getPositionInFile (errorPosition e) code) with
  | Some s => Some (pif_line s + 1, pif_col s, start (errorPosition e))
  | None => None
  end.

(* ================================================================= *)
(** ** tsCode.ts : the declaration file of a template *)

(** [x instanceof ImportStatement], [x instanceof ParamStatement] *)
Definition instanceofImportStatement (s : Statement) : bool :=
  match s with ImportStatement _ _ => true | _ => false end.
Definition instanceofParamStatement (s : Statement) : bool :=
  match s with ParamStatement _ _ _ _ => true | _ => false end.

(** [ParamStatement.toDeclarationFileCode]; the method exists on that class
    only. *)
Definition toDeclarationFileCode (s : Statement) : str :=
  match s with
  | ParamStatement _ n ty _ =>
    snd (toMappedString (TsCodeExpression_toTsCode n)) ++ lit ": "
    ++ snd (toMappedString (TsCodeExpression_toTsCode ty))
  | _ => []
  end.

(** The first loop of [paramsToCodeString], with its [break]. *)
Fixpoint collectLoop (statements imports params : list Statement)
  : list Statement * list Statement :=
  match statements with
  | [] => (imports, params)
  | statement :: rest =>
    let imports' :=
      if instanceofImportStatement statement then imports ++ [statement]
      else imports in
    let params' :=
      if instanceofImportStatement statement then params
      else if instanceofParamStatement statement then params ++ [statement]
      else params in
    if negb (areParamStatementsAllowedAfter (name statement))
    then (imports', params')
    else collectLoop rest imports' params'
  end.

(** [paramsToCodeString]; [toTsCode()] of an [ImportStatement] is never
    [null]. *)
Definition paramsToCodeString (statements : list Statement) : str :=
  let (imports, params) := collectLoop statements [] [] in
  let code0 :=
    lit "// Autogenerated code by typescript templating engine" ++ [nl] in
  let code1 :=
    fold_left (fun code importStatement =>
                 code ++ [nl]
                 ++ match toTsCode importStatement with
                    | Some t => snd (toMappedString t)
                    | None => []
                    end)
              imports code0 in
  let code2 := if negb (length imports =? 0) then code1 ++ [nl] else code1 in
  let code3 := code2 ++ [nl] ++ lit "export interface Params {" ++ [nl] in
  let code4 :=
    fold_left (fun code param =>
                 code ++ [tab] ++ toDeclarationFileCode param ++ [nl])
              params code3 in
  code4 ++ lit "}".

(* ================================================================= *)
(** * Vocabulary of the properties *)

(* ----------------------------------------------------------------- *)
(** ** Fragments *)

(** Induction on a fragment with the hypothesis on all its children. *)
Section TsCodeInduction.
Variable P : TsCode -> Prop.
Hypothesis step : forall so po ch l sm, Forall P ch -> P (MkTsCode so po ch l sm).

Fixpoint TsCode_nested_ind (t : TsCode) : P t :=
  match t with
  | MkTsCode so po ch l sm =>
    step so po l sm
         ((fix go (cs : list TsCode) : Forall P cs :=
             match cs with
             | [] => Forall_nil P
             | c :: cs' => Forall_cons c (TsCode_nested_ind c) (go cs')
             end) ch)
  end.
End TsCodeInduction.

(** The two components of [toMappedString]: the generated text and the map. *)
Definition flatten (t : TsCode) : str := snd (toMappedString t).
Definition mapsOf (t : TsCode) : list MapItem := fst (toMappedString t).

(** The fragments below [t] that are marked "should be mapped", in the
    order in which [toMappedString] meets them. *)
Fixpoint mappedDescendants (t : TsCode) : list TsCode :=
  match t with
  | MkTsCode _ _ ch _ _ =>
    flat_map (fun c => (if tsShouldBeMapped c then [c] else [])
                         ++ mappedDescendants c) ch
  end.

(** The mapped fragments a child [c] contributes: itself when it is marked,
    then those below it. *)
Definition mappedAt (c : TsCode) : list TsCode :=
  (if tsShouldBeMapped c then [c] else []) ++ mappedDescendants c.

(** Entry [m] of a map over the text [text] is the fragment [d]. *)
Definition entryOf (text : str) (m : MapItem) (d : TsCode) : Prop :=
  sourceOffset m = tsSourceOffset d
  /\ length_ m = length (flatten d)
  /\ generatedOffset m + length_ m <= length text
  /\ slice text (generatedOffset m) (generatedOffset m + length_ m) = flatten d.

(* ----------------------------------------------------------------- *)
(** ** Statements and their expressions *)

Definition optionP {A : Type} (P : A -> Prop) (o : option A) : Prop :=
  match o with Some a => P a | None => True end.

(** Induction on a statement with the hypothesis on its children, its
    [next], its main slot and its slots. *)
Section StatementInduction.
Variable P : Statement -> Prop.
Hypothesis HText : forall p v, P (TextStatement p v).
Hypothesis HInline : forall p e, P (InlineTsCodeStatement p e).
Hypothesis HInlineSafe : forall p e, P (InlineSafeTsCodeStatement p e).
Hypothesis HEach : forall p i v ch, Forall P ch -> P (EachStatement p i v ch).
Hypothesis HEnd : forall p, P (EndStatement p).
Hypothesis HIf : forall p e ch nx,
    Forall P ch -> optionP P nx -> P (IfStatement p e ch nx).
Hypothesis HElseIf : forall p e ch nx,
    Forall P ch -> optionP P nx -> P (ElseIfStatement p e ch nx).
Hypothesis HElse : forall p ch, Forall P ch -> P (ElseStatement p ch).
Hypothesis HLet : forall p n v, P (LetStatement p n v).
Hypothesis HAssign : forall p n v, P (AssignStatement p n v).
Hypothesis HParam : forall p n ty d, P (ParamStatement p n ty d).
Hypothesis HImport : forall p e, P (ImportStatement p e).
Hypothesis HDefineSlot : forall p n a, P (DefineSlotStatement p n a).
Hypothesis HComponent : forall p c pa m sl,
    P m -> Forall P sl -> P (ComponentStatement p c pa m sl).
Hypothesis HMainSlot : forall p ch, Forall P ch -> P (ComponentMainSlotStatement p ch).
Hypothesis HSlot : forall p n pv ch, Forall P ch -> P (ComponentSlotStatement p n pv ch).

Fixpoint Statement_nested_ind (s : Statement) : P s :=
  let all :=
    fix all (l : list Statement) : Forall P l :=
      match l with
      | [] => Forall_nil P
      | x :: l' => Forall_cons x (Statement_nested_ind x) (all l')
      end in
  let opt (o : option Statement) : optionP P o :=
    match o with
    | Some n => Statement_nested_ind n
    | None => I
    end in
  match s with
  | TextStatement p v => HText p v
  | InlineTsCodeStatement p e => HInline p e
  | InlineSafeTsCodeStatement p e => HInlineSafe p e
  | EachStatement p i v ch => @HEach p i v ch (all ch)
  | EndStatement p => HEnd p
  | IfStatement p e ch nx => @HIf p e ch nx (all ch) (opt nx)
  | ElseIfStatement p e ch nx => @HElseIf p e ch nx (all ch) (opt nx)
  | ElseStatement p ch => @HElse p ch (all ch)
  | LetStatement p n v => HLet p n v
  | AssignStatement p n v => HAssign p n v
  | ParamStatement p n ty d => HParam p n ty d
  | ImportStatement p e => HImport p e
  | DefineSlotStatement p n a => HDefineSlot p n a
  | ComponentStatement p c pa m sl =>
    @HComponent p c pa m sl (Statement_nested_ind m) (all sl)
  | ComponentMainSlotStatement p ch => @HMainSlot p ch (all ch)
  | ComponentSlotStatement p n pv ch => @HSlot p n pv ch (all ch)
  end.
End StatementInduction.

Definition optExpr (o : option TsCodeExpression) : list TsCodeExpression :=
  match o with Some e => [e] | None => [] end.

(** The expressions a statement owns, in the order in which its structured
    fragment interpolates them. *)
Fixpoint exprsOf (s : Statement) : list TsCodeExpression :=
  match s with
  | TextStatement _ _ | EndStatement _ => []
  | InlineTsCodeStatement _ e | InlineSafeTsCodeStatement _ e
  | ImportStatement _ e => [e]
  | EachStatement _ iterator variable ch =>
    variable :: iterator :: flat_map exprsOf ch
  | IfStatement _ e ch nx | ElseIfStatement _ e ch nx =>
    e :: flat_map exprsOf ch
      ++ match nx with Some n => exprsOf n | None => [] end
  | ElseStatement _ ch | ComponentMainSlotStatement _ ch => flat_map exprsOf ch
  | LetStatement _ n v => n :: optExpr v
  | AssignStatement _ n v => [n; v]
  | ParamStatement _ n ty d => n :: ty :: optExpr d
  | DefineSlotStatement _ n a => n :: optExpr a
  | ComponentStatement _ c pa m sl => c :: pa :: exprsOf m ++ flat_map exprsOf sl
  | ComponentSlotStatement _ n pv ch => n :: optExpr pv ++ flat_map exprsOf ch
  end.

(** What a map entry tells of a fragment, and of an expression: the source
    offset and the text. *)
Definition fragView (d : TsCode) : nat * str := (tsSourceOffset d, flatten d).
Definition exprView (e : TsCodeExpression) : nat * str :=
  (start (position e), value e).

(** The mapped fragments a candidate child contributes to its parent. *)
Definition mappedViewAt (o : option TsCode) : list (nat * str) :=
  match o with
  | Some c => map fragView (mappedAt c)
  | None => []
  end.

(** The round-trip offset law of a flattened fragment [t] against the
    expressions [es]: the map has one entry per expression, in order; the
    entry carries the expression's source offset, and the generated text at
    [[generatedOffset, generatedOffset + length)] is the expression's text. *)
Definition roundTrip (t : TsCode) (es : list TsCodeExpression) : Prop :=
  let (maps, text) := toMappedString t in
  Forall2 (fun m e =>
             sourceOffset m = start (position e)
             /\ length_ m = length (value e)
             /\ generatedOffset m + length_ m <= length text
             /\ slice text (generatedOffset m) (generatedOffset m + length_ m)
                = value e)
          maps es.

(* ----------------------------------------------------------------- *)
(** ** Outcomes of the parser and invariants of its statements *)

(** [post r Q]: the outcome [r] is not an exhausted loop bound, and a
    returned value satisfies [Q]. *)
Definition post {X : Type} (r : Res X) (Q : X -> Prop) : Prop :=
  match r with
  | Ok x => Q x
  | Throw _ => True
  | OutOfFuel => False
  end.

(** [allNodes P s]: [P] holds at [s] and at every statement below it
    (children, the [next] chain, the main slot and the slots). *)
Fixpoint allNodes (P : Statement -> bool) (s : Statement) : bool :=
  P s &&
  match s with
  | EachStatement _ _ _ ch | ElseStatement _ ch
  | ComponentMainSlotStatement _ ch | ComponentSlotStatement _ _ _ ch =>
    forallb (allNodes P) ch
  | IfStatement _ _ ch nx | ElseIfStatement _ _ ch nx =>
    forallb (allNodes P) ch
    && match nx with Some n => allNodes P n | None => true end
  | ComponentStatement _ _ _ m sl => allNodes P m && forallb (allNodes P) sl
  | _ => true
  end.

(** A [next] field is absent, one [ElseIf] or one [Else]. *)
Definition chainLink (nx : option Statement) : bool :=
  match nx with
  | None => true
  | Some (ElseIfStatement _ _ _ _) | Some (ElseStatement _ _) => true
  | Some _ => false
  end.

(** The local invariant of a parsed statement: a conditional has a proper
    [next], a slot definition is not named [main]. *)
Definition nodeOk (s : Statement) : bool :=
  match s with
  | IfStatement _ _ _ nx | ElseIfStatement _ _ _ nx => chainLink nx
  | DefineSlotStatement _ n _ => negb (str_eqb (value n) (lit "main"))
  | _ => true
  end.

(** [nodeOk] at every statement of the tree. *)
Definition treeOk (s : Statement) : Prop := allNodes nodeOk s = true.

(** A declaration statement is returned only through its open gate. *)
Definition gateOk (ai ad ap : bool) (s : Statement) : Prop :=
  (name s = StatementName.ImportStatement -> ai = true)
  /\ (name s = StatementName.DefineSlotStatement -> ad = true)
  /\ (name s = StatementName.ParamStatement -> ap = true).

(** The outcome of a tag sub-parser: the cursor does not move back, the
    statement is well formed and carries the name [n]. *)
Definition made (st : Cursor) (n : StatementName.t) (p : Statement * Cursor) : Prop :=
  index st <= index (snd p) /\ treeOk (fst p) /\ name (fst p) = n.

(** The outcome of [#parseOnce] and of [#makeAtTag]. *)
Definition parsed (from : nat) (ai ad ap : bool) (p : Statement * Cursor) : Prop :=
  from < index (snd p) /\ treeOk (fst p) /\ gateOk ai ad ap (fst p).

(** Every statement of the tree rooted at [s], [s] first. *)
Fixpoint nodes (s : Statement) : list Statement :=
  s ::
  match s with
  | EachStatement _ _ _ ch | ElseStatement _ ch
  | ComponentMainSlotStatement _ ch | ComponentSlotStatement _ _ _ ch =>
    flat_map nodes ch
  | IfStatement _ _ ch nx | ElseIfStatement _ _ ch nx =>
    flat_map nodes ch ++ match nx with Some n => nodes n | None => [] end
  | ComponentStatement _ _ _ m sl => nodes m ++ flat_map nodes sl
  | _ => []
  end.

(** The statements met by following [next] from [s]. *)
Fixpoint chainOf (s : Statement) : list Statement :=
  match s with
  | IfStatement _ _ _ (Some n) | ElseIfStatement _ _ _ (Some n) => n :: chainOf n
  | _ => []
  end.

(** [k] steps along [next]; [None] once the chain has ended. *)
Fixpoint nthNext (k : nat) (s : Statement) : option Statement :=
  match k with
  | 0 => Some s
  | S k' => match nextOf s with
            | Some n => nthNext k' n
            | None => None
            end
  end.

(** Zero or more [ElseIf], then at most one [Else], which ends the list. *)
Fixpoint elseIfsThenElse (l : list Statement) : bool :=
  match l with
  | [] => true
  | ElseIfStatement _ _ _ _ :: l' => elseIfsThenElse l'
  | [ElseStatement _ _] => true
  | _ => false
  end.

(* ----------------------------------------------------------------- *)
(** ** The top-level loop *)

(** The three gate tests of [parse], on a statement. *)
Definition importAllowedAfter (s : Statement) : bool :=
  areImportStatementsAllowedAfter (name s).
Definition defineSlotAllowedAfter (s : Statement) : bool :=
  areDefineSlotStatementsAllowedAfter (name s).
Definition paramAllowedAfter (s : Statement) : bool :=
  areParamStatementsAllowedAfter (name s).

(** The configurations of the loop of [parse] at the head of an iteration:
    the statements pushed so far, the three gates and the cursor. *)
Inductive topReach (code : str)
  : list Statement -> bool -> bool -> bool -> Cursor -> Prop :=
| topReach_start : topReach code [] true true true initialCursor
| topReach_step statements ai ad ap st statement st' :
    topReach code statements ai ad ap st ->
    isAtEnd code st = false ->
    parseOnce code ai ad ap false st = Ok (statement, st') ->
    hasToBeHandledInParse statement = false ->
    topReach code (statements ++ [statement])
             (if ai && negb (areImportStatementsAllowedAfter (name statement))
              then false else ai)
             (if ad && negb (areDefineSlotStatementsAllowedAfter (name statement))
              then false else ad)
             (if ap && negb (areParamStatementsAllowedAfter (name statement))
              then false else ap)
             st'.

(** The tag name at the cursor, when the cursor is on an [@]. *)
Definition nextTag (code : str) (st : Cursor) : option str :=
  if isChar (currentChar code st) "@" then Some (fst (readTagName code st))
  else None.

(** In [l], a declaration statement comes only after statements of its
    gate's allowed set. *)
Definition gatesRespected (l : list Statement) : Prop :=
  forall pre s post,
    l = pre ++ s :: post ->
    (name s = StatementName.ImportStatement -> forallb importAllowedAfter pre = true)
    /\ (name s = StatementName.DefineSlotStatement
        -> forallb defineSlotAllowedAfter pre = true)
    /\ (name s = StatementName.ParamStatement
        -> forallb paramAllowedAfter pre = true).

(** The position [#makeAtTag] gives its errors: from the [@] to the end of
    the tag name. *)
Definition tagPosition (code : str) (st : Cursor) : PositionRange :=
  position_ (index st) (line st) (snd (readTagName code st)).

(* ----------------------------------------------------------------- *)
(** ** Examples *)

Definition pos (a l b : nat) : PositionRange := mkPositionRange a l b.
Definition ex (a l b : nat) (v : string) : TsCodeExpression :=
  mkTsCodeExpression (pos a l b) (lit v).
Arguments ex a l b v%_string.

Definition C4_example_code : str := lit "@defslot(header: string)".
Definition C4_example_statements : list Statement :=
  [DefineSlotStatement (pos 0 0 24) (ex 9 0 15 "header") (Some (ex 17 0 23 "string"))].

Definition C6_example_code : str := lit "@if(a)A@elseif(b)B@else C@end".
Definition C6_example_if : Statement :=
  IfStatement (pos 0 0 7) (ex 4 0 5 "a") [TextStatement (pos 6 0 7) (lit "A")]
    (Some (ElseIfStatement (pos 7 0 18) (ex 15 0 16 "b")
             [TextStatement (pos 17 0 18) (lit "B")]
             (Some (ElseStatement (pos 18 0 29)
                      [TextStatement (pos 23 0 25) (lit " C")])))).


(* ----------------------------------------------------------------- *)
(** ** Escaping *)

(** What [safeString] writes for one character. *)
Definition escapeChar (c : ascii) : str :=
  if Ascii.eqb c backslash then [backslash; backslash]
  else if Ascii.eqb c dquote then [backslash; dquote]
  else if Ascii.eqb c nl then [backslash; "n"%char]
  else [c].

(** The inverse substitution: a backslash stands with the character behind
    it for one character, [\n] for a newline. *)
Fixpoint unescape (s : str) : str :=
  match s with
  | [] => []
  | c :: rest =>
    if Ascii.eqb c backslash then
      match rest with
      | y :: rest' => (if Ascii.eqb y "n" then nl else y) :: unescape rest'
      | [] => [c]
      end
    else c :: unescape rest
  end.


(* ----------------------------------------------------------------- *)
(** ** Flattened text *)

(** The text a candidate child contributes: nothing when it elects none. *)
Definition textOf (o : option TsCode) : str :=
  match o with
  | Some t => flatten t
  | None => []
  end.

(** A template with the text of its interpolated values filled in. *)
Fixpoint interleave (literals : list str) (children : list (option TsCode)) : str :=
  match children, literals with
  | c :: cs, l :: ls => l ++ textOf c ++ interleave ls cs
  | _, _ => concat literals
  end.

(** [n] copies of [d]. *)
Fixpoint copies (n : nat) (d : str) : str :=
  match n with
  | 0 => []
  | S n' => d ++ copies n' d
  end.

(** The children's parent offsets are [k * step], [(k+1) * step], ... *)
Fixpoint offsetsFrom (k step : nat) (cs : list TsCode) : Prop :=
  match cs with
  | [] => True
  | c :: cs' => tsParentOffset c = k * step /\ offsetsFrom (S k) step cs'
  end.

(* ----------------------------------------------------------------- *)
(** ** Lines and columns *)

(** The number of newline characters of [s]. *)
Definition countNl (s : str) : nat :=
  length (filter (fun c => Ascii.eqb c nl) s).

(** The offset behind the last newline among the first [n] characters of
    [code], [0] when there is none: where the line of offset [n] begins. *)
Fixpoint lineBegin (code : str) (n : nat) : nat :=
  match n with
  | 0 => 0
  | S n' => if isChar (nth_error code n') nl then n else lineBegin code n'
  end.

(* ----------------------------------------------------------------- *)
(** ** Scanned text and positions *)

(** [v] has no white space at either end. *)
Definition trimmed (v : str) : Prop := trimStart v = v /\ trimEnd v = v.

(** The parser's line counter at offset [i]: the newlines at the offsets
    [1 .. i] ([#advance] looks at the character it arrives on, and the
    cursor starts on offset 0 without looking). *)
Definition lineAt (code : str) (i : nat) : nat := countNl (firstn i (tl code)).

Definition lineOk (code : str) (st : Cursor) : Prop :=
  line st = lineAt code (index st).

(** An expression holds the source text at its position, trimmed. *)
Definition exprOk (code : str) (e : TsCodeExpression) : Prop :=
  start (position e) <= end_ (position e)
  /\ end_ (position e) <= length code
  /\ value e = slice code (start (position e)) (end_ (position e))
  /\ trimmed (value e).

(** What [#skipUntilAndWith], started at [st], returns. *)
Definition scanned (code : str) (untilChars : list str) (st : Cursor)
           (p : Scanned * Cursor) : Prop :=
  index st <= start (sc_position (fst p))
  /\ start (sc_position (fst p)) <= end_ (sc_position (fst p))
  /\ end_ (sc_position (fst p)) + length (controllChar (fst p)) <= index (snd p)
  /\ index (snd p) <= length code
  /\ sc_value (fst p)
     = slice code (start (sc_position (fst p))) (end_ (sc_position (fst p)))
  /\ trimmed (sc_value (fst p))
  /\ In (controllChar (fst p)) untilChars
  /\ slice code (index (snd p) - length (controllChar (fst p))) (index (snd p))
     = controllChar (fst p)
  /\ lineStart (sc_position (fst p)) = line st
  /\ sc_value (fst p)
     = trimEnd (trimStart
                  (slice code (index st)
                         (index (snd p) - length (controllChar (fst p))))).

(* ----------------------------------------------------------------- *)
(** ** Positions, shapes and errors of a parse *)

(** An error position is not empty, so [getPositionInFile] finds its start. *)
Definition errOk (e : ParserError) : Prop :=
  start (errorPosition e) < end_ (errorPosition e).

(** [sound r Q]: a returned value satisfies [Q], a thrown error has a
    position that is not empty. *)
Definition sound {X : Type} (r : Res X) (Q : X -> Prop) : Prop :=
  match r with
  | Ok x => Q x
  | Throw e => errOk e
  | OutOfFuel => True
  end.

(** A statement position is not empty, lies in the source, and carries the
    parser's line count of its start. *)
Definition posOk (code : str) (p : PositionRange) : Prop :=
  start p < end_ p /\ end_ p <= length code /\ lineStart p = lineAt code (start p).

Definition isDeclaration (s : Statement) : bool :=
  match s with
  | ImportStatement _ _ | ParamStatement _ _ _ _ | DefineSlotStatement _ _ _ => true
  | _ => false
  end.

Definition isMainSlot (s : Statement) : bool :=
  match s with ComponentMainSlotStatement _ _ => true | _ => false end.

(** What a block body may hold: no declaration and no slot. *)
Definition blockChild (s : Statement) : bool :=
  negb (isDeclaration s) && negb (instanceofComponentSlotStatement s)
  && negb (isMainSlot s).

(** The shape of one statement: its body holds block children only; a
    component has a main slot of block children and slots that are slots. *)
Definition shapeOk (s : Statement) : bool :=
  match s with
  | EachStatement _ _ _ ch | ElseStatement _ ch | IfStatement _ _ ch _
  | ElseIfStatement _ _ ch _ | ComponentMainSlotStatement _ ch
  | ComponentSlotStatement _ _ _ ch => forallb blockChild ch
  | ComponentStatement _ _ _ m sl =>
    match m with
    | ComponentMainSlotStatement _ ch => forallb blockChild ch
    | _ => false
    end && forallb instanceofComponentSlotStatement sl
  | _ => true
  end.

(** The statements of [l] lie between [lo] and [hi], one after the other,
    none empty. *)
Fixpoint spansWithin (lo : nat) (l : list Statement) (hi : nat) : Prop :=
  match l with
  | [] => lo <= hi
  | s :: l' =>
    lo <= start (stmtPosition s)
    /\ start (stmtPosition s) < end_ (stmtPosition s)
    /\ spansWithin (end_ (stmtPosition s)) l' hi
  end.

(** The statements a node holds directly: its body, the slots of a
    component. *)
Definition bodyOf (s : Statement) : list Statement :=
  match s with
  | EachStatement _ _ _ ch | ElseStatement _ ch | IfStatement _ _ ch _
  | ElseIfStatement _ _ ch _ | ComponentMainSlotStatement _ ch
  | ComponentSlotStatement _ _ _ ch => ch
  | ComponentStatement _ _ _ _ sl => sl
  | _ => []
  end.

(** An [If] or [ElseIf] ends where the branch after it begins. *)
Definition linkOk (n : Statement) : Prop :=
  match nextOf n with
  | Some nx => end_ (stmtPosition n) = start (stmtPosition nx)
  | None => True
  end.

(** The expressions a statement holds itself, in the order of the source. *)
Definition ownExprs (s : Statement) : list TsCodeExpression :=
  match s with
  | TextStatement _ _ | EndStatement _ | ElseStatement _ _
  | ComponentMainSlotStatement _ _ => []
  | InlineTsCodeStatement _ e | InlineSafeTsCodeStatement _ e
  | ImportStatement _ e | IfStatement _ e _ _ | ElseIfStatement _ e _ _ => [e]
  | EachStatement _ iterator variable _ => [variable; iterator]
  | LetStatement _ n v => n :: optExpr v
  | AssignStatement _ n v => [n; v]
  | ParamStatement _ n ty d => n :: ty :: optExpr d
  | DefineSlotStatement _ n a => n :: optExpr a
  | ComponentStatement _ c pa _ _ => [c; pa]
  | ComponentSlotStatement _ n pv _ => n :: optExpr pv
  end.

(** The expressions of [es] lie between [lo] and [hi], one after the
    other. *)
Fixpoint exprsIn (lo : nat) (es : list TsCodeExpression) (hi : nat) : Prop :=
  match es with
  | [] => True
  | e :: es' =>
    lo <= start (position e)
    /\ start (position e) <= end_ (position e)
    /\ end_ (position e) <= hi
    /\ exprsIn (end_ (position e)) es' hi
  end.

Definition nodeFact (code : str) (n : Statement) : Prop :=
  posOk code (stmtPosition n) /\ shapeOk n = true
  /\ spansWithin (start (stmtPosition n)) (bodyOf n) (end_ (stmtPosition n))
  /\ linkOk n
  /\ Forall (fun m => instanceofEndStatement m = false) (tl (nodes n))
  /\ exprsIn (start (stmtPosition n) + 1) (ownExprs n)
             (end_ (stmtPosition n) - 1).

(** Every expression of the tree is the source text at its position, and
    every statement of the tree has a proper position and shape, a body
    that lies inside it, and no [End] below it. *)
Definition stmtFact (code : str) (s : Statement) : Prop :=
  Forall (exprOk code) (exprsOf s) /\ Forall (nodeFact code) (nodes s).

(** The kind of statement [#parseOnce] may return under its four flags. *)
Definition kindOk (ai ad ap asl : bool) (s : Statement) : Prop :=
  gateOk ai ad ap s
  /\ (name s = StatementName.ComponentSlotStatement -> asl = true)
  /\ name s <> StatementName.ComponentMainSlotStatement.

(** What [#parseOnce], started at offset [from], returns. *)
Definition parsedFrom (code : str) (from : nat) (ai ad ap asl : bool)
           (p : Statement * Cursor) : Prop :=
  lineOk code (snd p)
  /\ index (snd p) <= length code
  /\ from <= start (stmtPosition (fst p))
  /\ end_ (stmtPosition (fst p)) <= index (snd p)
  /\ stmtFact code (fst p)
  /\ kindOk ai ad ap asl (fst p).

(** What a tag sub-parser returns for the tag that began at [startIndex]. *)
Definition madeAt (code : str) (startIndex : nat) (n : StatementName.t)
           (p : Statement * Cursor) : Prop :=
  lineOk code (snd p)
  /\ index (snd p) <= length code
  /\ start (stmtPosition (fst p)) = startIndex
  /\ end_ (stmtPosition (fst p)) <= index (snd p)
  /\ stmtFact code (fst p)
  /\ name (fst p) = n.

(** What the block reader, started at offset [from], returns. *)
Definition blockRead (code : str) (from : nat) (names : list StatementName.t)
           (slot : bool) (p : list Statement * Statement * Cursor) : Prop :=
  lineOk code (snd p)
  /\ index (snd p) <= length code
  /\ Forall (stmtFact code) (fst (fst p))
  /\ Forall (kindOk false false false slot) (fst (fst p))
  /\ stmtFact code (snd (fst p))
  /\ from <= start (stmtPosition (snd (fst p)))
  /\ end_ (stmtPosition (snd (fst p))) <= index (snd p)
  /\ StatementName.includes names (name (snd (fst p))) = true
  /\ spansWithin from (fst (fst p)) (start (stmtPosition (snd (fst p))))
  /\ Forall (fun s => StatementName.includes names (name s) = false)
            (fst (fst p)).

(** What [parse] returns: faithful statements, none of them a slot or one
    that only a block may end with, one after the other in the source. *)
Definition parsedAll (code : str) (l : list Statement) : Prop :=
  Forall (stmtFact code) l
  /\ Forall (kindOk true true true false) l
  /\ Forall (fun s => hasToBeHandledInParse s = false) l
  /\ spansWithin 0 l (length code).

(* ----------------------------------------------------------------- *)
(** ** A page and a broken page *)

Definition page_code : str :=
  lit "Hi {{ name }}" ++ [nl]
  ++ lit "@if(a)A@elseif(b)B@else C@end@each(x in xs)!{{ x }}@end"
  ++ lit "@component(card, {})M@slot(head)H@end@end".

Definition page_tree : list Statement :=
  Eval vm_compute in match parse page_code with Ok l => l | _ => [] end.

Definition broken_code : str := lit "{{ x ".

Definition broken_error : ParserError :=
  UnexpctedError (pos 5 0 6) (lit "}") None.

(** No character of [s] can open a tag or an inline statement. *)
Definition plain (s : str) : bool :=
  forallb (fun c => negb (Ascii.eqb c "@" || Ascii.eqb c "{")) s.

Definition scan_code : str := lit "  a + b  )x".

Definition scan_result : Scanned :=
  mkScanned (pos 2 0 7) (lit "a + b") (lit ")").

(* ----------------------------------------------------------------- *)
(** ** Lines of the declaration file *)

Definition importLine (s : Statement) : str :=
  match s with
  | ImportStatement _ e => [nl] ++ lit "import " ++ value e
  | _ => []
  end.

Definition paramLine (s : Statement) : str :=
  match s with
  | ParamStatement _ n ty _ => [tab] ++ value n ++ lit ": " ++ value ty ++ [nl]
  | _ => []
  end.

Definition header_code : str :=
  lit "@import({ User } from ./user)@param(user: User)@param(n: number = 1)"
  ++ lit "Hello {{ user.name }}".

Definition header_tree : list Statement :=
  Eval vm_compute in match parse header_code with Ok l => l | _ => [] end.

(* ----------------------------------------------------------------- *)
(** ** Tag names *)

(** The names [#makeAtTag] knows. *)
Definition tagNames : list str :=
  [lit "each"; lit "if"; lit "elseif"; lit "else"; lit "let"; lit "assign";
   lit "component"; lit "import"; lit "param"; lit "defslot"; lit "slot";
   lit "end"].

(* ----------------------------------------------------------------- *)
(** ** Order of a map *)

(** The entries of [ms] start at or behind [lo], each at or behind the
    start of the one before it, and each ends at or before [hi]. *)
Fixpoint ascending (lo : nat) (ms : list MapItem) (hi : nat) : Prop :=
  match ms with
  | [] => lo <= hi
  | m :: ms' =>
    lo <= generatedOffset m
    /\ generatedOffset m + length_ m <= hi
    /\ ascending (generatedOffset m) ms' hi
  end.

(* ================================================================= *)
(** * Properties *)

(* ================================================================= *)
(** ** The model at work *)

Example parse_hello :
  parse (lit "Hello {{ name }}!")
  = Ok [TextStatement (pos 0 0 6) (lit "Hello ");
        InlineSafeTsCodeStatement (pos 6 0 16) (ex 9 0 13 "name");
        TextStatement (pos 16 0 17) (lit "!")].
Proof. vm_compute; reflexivity. Qed.

Example flatten_hello :
  toMappedString
    (TsCodeArray_toTsCode
       (map toTsCode [TextStatement (pos 0 0 6) (lit "Hello ");
                      InlineSafeTsCodeStatement (pos 6 0 16) (ex 9 0 13 "name");
                      TextStatement (pos 16 0 17) (lit "!")])
       newline)
  = ([mkMapItem 9 7 4], lit "String(name)").
Proof. vm_compute; reflexivity. Qed.

Example flatten_if_else :
  match parse (lit "@if(x > 0)A@else B@end") with
  | Ok l => Some (toMappedString (TsCodeArray_toTsCode (map toTsCode l) newline))
  | _ => None
  end
  = Some ([mkMapItem 4 4 5],
          lit "if (x > 0) {" ++ [nl; nl] ++ lit "}" ++ [nl] ++ lit "else {"
              ++ [nl; nl] ++ lit "}").
Proof. vm_compute; reflexivity. Qed.

Example parse_component :
  parse (lit "@component(Foo, {x:1}) body @slot(header) H @end @end")
  = Ok [ComponentStatement (pos 0 0 53) (ex 11 0 14 "Foo") (ex 16 0 21 "{x:1}")
          (ComponentMainSlotStatement (pos 0 0 53)
             [TextStatement (pos 22 0 28) (lit " body ");
              TextStatement (pos 48 0 49) (lit " ")])
          [ComponentSlotStatement (pos 28 0 48) (ex 34 0 40 "header") None
             [TextStatement (pos 41 0 44) (lit " H ")]]].
Proof. vm_compute; reflexivity. Qed.

Example parse_unbalanced_comment :
  parse (lit "{{-- ( --}}")
  = Throw (UnexpctedError (pos 11 0 12) (lit "--}}") None).
Proof. vm_compute; reflexivity. Qed.


(* ================================================================= *)
(** ** Strings and slices *)

Lemma str_eqb_eq (a b : str) : str_eqb a b = true <-> a = b.
Proof.
  revert b; induction a as [|x a IH]; intros [|y b]; simpl; split;
    try congruence; try reflexivity.
  - rewrite andb_true_iff, Ascii.eqb_eq, IH. intros [-> ->]; reflexivity.
  - intros H; injection H as -> ->.
    rewrite andb_true_iff, Ascii.eqb_eq, IH; split; reflexivity.
Qed.

Lemma str_eqb_refl (a : str) : str_eqb a a = true.
Proof. apply str_eqb_eq; reflexivity. Qed.

Lemma slice_app_l (a b : str) (g len : nat) :
  g + len <= length a -> slice (a ++ b) g (g + len) = slice a g (g + len).
Proof.
  intros H. unfold slice.
  replace (g + len - g) with len by lia.
  rewrite skipn_app, firstn_app, length_skipn.
  replace (g - length a) with 0 by lia.
  replace (len - (length a - g)) with 0 by lia.
  simpl. apply app_nil_r.
Qed.

Lemma slice_app_r (a b : str) (g len : nat) :
  slice (a ++ b) (length a + g) (length a + g + len) = slice b g (g + len).
Proof.
  unfold slice.
  replace (length a + g + len - (length a + g)) with len by lia.
  replace (g + len - g) with len by lia.
  rewrite skipn_app.
  replace (length a + g - length a) with g by lia.
  rewrite skipn_all2 by lia. reflexivity.
Qed.

Lemma slice_whole (a b c : str) :
  slice (a ++ b ++ c) (length a) (length a + length b) = b.
Proof.
  unfold slice.
  replace (length a + length b - length a) with (length b) by lia.
  rewrite skipn_app, Nat.sub_diag, skipn_all2 by lia. simpl.
  rewrite firstn_app, Nat.sub_diag, firstn_all. simpl. apply app_nil_r.
Qed.

(* ================================================================= *)
(** ** The fragment engine *)

Lemma toMappedString_loop so po ch l sm :
  toMappedString (MkTsCode so po ch l sm) = mappedLoop toMappedString l ch [] [] 0.
Proof. reflexivity. Qed.

Lemma toMappedString_setParentOffset t v :
  toMappedString (setParentOffset t v) = toMappedString t.
Proof. destruct t; reflexivity. Qed.

Lemma entryOf_app text more m d :
  entryOf text m d -> entryOf (text ++ more) m d.
Proof.
  intros (H1 & H2 & H3 & H4). repeat split; try assumption.
  - rewrite length_app; lia.
  - rewrite slice_app_l; assumption.
Qed.

Lemma entryOf_rebase pre text m d :
  entryOf text m d -> entryOf (pre ++ text) (rebase (length pre) m) d.
Proof.
  intros (H1 & H2 & H3 & H4). unfold entryOf, rebase; simpl.
  repeat split; try assumption.
  - rewrite length_app; lia.
  - rewrite slice_app_r; assumption.
Qed.

Lemma entryOf_self pre (c : TsCode) :
  entryOf (pre ++ flatten c)
          (mkMapItem (tsSourceOffset c) (length pre) (length (flatten c))) c.
Proof.
  unfold entryOf; simpl. repeat split.
  - rewrite length_app; lia.
  - pose proof (slice_whole pre (flatten c) []) as H.
    rewrite app_nil_r in H. exact H.
Qed.

Lemma mappedLoop_entries l cs :
  Forall (fun c => Forall2 (entryOf (flatten c)) (mapsOf c) (mappedDescendants c)) cs ->
  forall g maps k ds,
    Forall2 (entryOf g) maps ds ->
    Forall2 (entryOf (snd (mappedLoop toMappedString l cs g maps k)))
            (fst (mappedLoop toMappedString l cs g maps k))
            (ds ++ flat_map mappedAt cs).
Proof.
  induction 1 as [|c cs Hc _ IH]; intros g maps k ds Hds; simpl.
  - rewrite app_nil_r.
    eapply Forall2_impl; [|exact Hds]. intros; apply entryOf_app; assumption.
  - unfold flatten, mapsOf in Hc.
    pose proof (entryOf_self (g ++ slice l k (tsParentOffset c)) c) as Hself.
    unfold flatten in Hself.
    destruct (toMappedString c) as [cm cstr] eqn:E; simpl in Hc, Hself.
    rewrite app_assoc. apply IH.
    unfold mappedAt at 1.
    set (g1 := g ++ slice l k (tsParentOffset c)) in *.
    assert (Hold : Forall2 (entryOf (g1 ++ cstr)) maps ds).
    { eapply Forall2_impl; [|exact Hds]. intros a b Hab.
      unfold g1. rewrite <- app_assoc. apply entryOf_app; assumption. }
    assert (Hnew : Forall2 (entryOf (g1 ++ cstr))
                           (map (rebase (length g1)) cm) (mappedDescendants c)).
    { clear - Hc. induction Hc; simpl; constructor; auto.
      apply entryOf_rebase; assumption. }
    destruct (tsShouldBeMapped c).
    + rewrite <- app_assoc. apply Forall2_app; [|apply Forall2_app]; try assumption.
      constructor; [|constructor]. exact Hself.
    + simpl. apply Forall2_app; assumption.
Qed.

(** Every entry of the map of [t] is one mapped fragment below [t], in
    order, and the generated text at the entry is that fragment's text. *)
Lemma toMappedString_entries (t : TsCode) :
  Forall2 (entryOf (flatten t)) (mapsOf t) (mappedDescendants t).
Proof.
  induction t as [so po ch l sm IH] using TsCode_nested_ind.
  unfold flatten, mapsOf. rewrite toMappedString_loop.
  change (mappedDescendants (MkTsCode so po ch l sm)) with ([] ++ flat_map mappedAt ch).
  apply mappedLoop_entries; [exact IH | constructor].
Qed.

(* ================================================================= *)
(** ** Statements *)

Lemma mappedAt_setParentOffset c v :
  map fragView (mappedAt (setParentOffset c v)) = map fragView (mappedAt c).
Proof.
  destruct c as [so po ch l sm]; unfold mappedAt; simpl.
  destruct sm; reflexivity.
Qed.

Lemma mappedDescendants_children so po ch l sm :
  map fragView (mappedDescendants (MkTsCode so po ch l sm))
  = flat_map (fun c => map fragView (mappedAt c)) ch.
Proof.
  simpl. fold mappedAt. induction ch as [|c ch IH]; simpl; [reflexivity|].
  rewrite map_app, IH. reflexivity.
Qed.

Lemma builderLoop_view literals children k :
  length children <= length literals ->
  flat_map (fun c => map fragView (mappedAt c)) (builderLoop literals children k)
  = flat_map mappedViewAt children.
Proof.
  revert literals k; induction children as [|c cs IH]; intros [|l ls] k H;
    simpl in *; try reflexivity; try lia.
  destruct c as [c|]; simpl.
  - rewrite mappedAt_setParentOffset, IH by lia. reflexivity.
  - apply IH; lia.
Qed.

Lemma builder_view so sm literals children :
  length children <= length literals ->
  map fragView (mappedDescendants (newTsCode so sm (builder literals children)))
  = flat_map mappedViewAt children.
Proof.
  intros H. unfold newTsCode, builder; simpl b_children.
  rewrite mappedDescendants_children. apply builderLoop_view; assumption.
Qed.

Lemma tsCodeArrayLoop_view tsCodes delimiter :
  forall children literal,
    flat_map (fun c => map fragView (mappedAt c))
             (fst (tsCodeArrayLoop tsCodes delimiter children literal))
    = flat_map (fun c => map fragView (mappedAt c)) children
        ++ flat_map mappedViewAt tsCodes.
Proof.
  induction tsCodes as [|[c|] rest IH]; intros children literal; simpl.
  - rewrite app_nil_r; reflexivity.
  - rewrite IH, flat_map_app; simpl.
    rewrite mappedAt_setParentOffset, app_nil_r, app_assoc. reflexivity.
  - apply IH.
Qed.

Lemma TsCodeArray_view tsCodes delimiter :
  map fragView (mappedDescendants (TsCodeArray_toTsCode tsCodes delimiter))
  = flat_map mappedViewAt tsCodes.
Proof.
  unfold TsCodeArray_toTsCode.
  pose proof (tsCodeArrayLoop_view tsCodes delimiter [] []) as H.
  destruct (tsCodeArrayLoop tsCodes delimiter [] []) as [children literal].
  unfold newTsCode; simpl b_children. rewrite mappedDescendants_children.
  exact H.
Qed.

Lemma TsCodeArray_viewAt tsCodes delimiter :
  mappedViewAt (Some (TsCodeArray_toTsCode tsCodes delimiter))
  = flat_map mappedViewAt tsCodes.
Proof.
  unfold mappedViewAt, mappedAt.
  replace (tsShouldBeMapped (TsCodeArray_toTsCode tsCodes delimiter)) with false.
  - apply TsCodeArray_view.
  - unfold TsCodeArray_toTsCode.
    destruct (tsCodeArrayLoop tsCodes delimiter [] []); reflexivity.
Qed.

Lemma exprCode_view e : mappedViewAt (exprCode e) = [exprView e].
Proof. reflexivity. Qed.

Lemma children_view (ch : list Statement) :
  Forall (fun s => mappedViewAt (toTsCode s) = map exprView (exprsOf s)) ch ->
  flat_map mappedViewAt (map toTsCode ch) = map exprView (flat_map exprsOf ch).
Proof.
  induction 1 as [|c ch Hc _ IH]; simpl; [reflexivity|].
  rewrite map_app, Hc, IH. reflexivity.
Qed.

(** The mapped fragments of a statement's structured fragment are its
    expressions: no statement is itself a mapped unit. *)
Lemma toTsCode_view (s : Statement) :
  mappedViewAt (toTsCode s) = map exprView (exprsOf s).
Proof.
  induction s using Statement_nested_ind;
    try reflexivity;
    cbn [toTsCode exprsOf];
    repeat match goal with
           | o : option TsCodeExpression |- _ => destruct o
           | o : option Statement |- _ => destruct o
           end;
    unfold mappedViewAt at 1, mappedAt; cbn [newTsCode tsShouldBeMapped app];
    fold (newTsCode);
    rewrite ?builder_view by (simpl; lia);
    cbn [flat_map optExpr map app];
    rewrite ?TsCodeArray_viewAt, ?exprCode_view, ?app_nil_r;
    repeat match goal with
           | H : Forall _ _ |- _ => apply children_view in H; rewrite H; clear H
           | H : optionP _ (Some _) |- _ => simpl in H; rewrite H; clear H
           | H : mappedViewAt (toTsCode _) = _ |- _ => rewrite H; clear H
           end;
    cbn [app]; rewrite ?map_app; reflexivity.
Qed.

Lemma roundTrip_of_view (t : TsCode) (es : list TsCodeExpression) :
  map fragView (mappedDescendants t) = map exprView es -> roundTrip t es.
Proof.
  intros Hv. unfold roundTrip.
  pose proof (toMappedString_entries t) as H. unfold mapsOf, flatten in H.
  destruct (toMappedString t) as [maps text]; simpl in H.
  revert es Hv. induction H as [|m d maps ds Hmd _ IH]; intros [|e es] Hv;
    simpl in Hv; try discriminate; constructor.
  - injection Hv as Hso Hfl _. destruct Hmd as (H1 & H2 & H3 & H4).
    unfold flatten in *. rewrite <- Hso, <- Hfl. auto.
  - apply IH. injection Hv as _ _ Hv. exact Hv.
Qed.

(* ================================================================= *)
(** ** The parser: outcomes and cursor progress *)

Lemma post_bind {X Y : Type} (c : Res X) (k : X -> Res Y)
      (Qc : X -> Prop) (Q : Y -> Prop) :
  post c Qc -> (forall x, Qc x -> post (k x) Q) -> post (bind c k) Q.
Proof. destruct c; simpl; auto; contradiction. Qed.

Lemma post_weaken {X : Type} (r : Res X) (Q Q' : X -> Prop) :
  post r Q -> (forall x, Q x -> Q' x) -> post r Q'.
Proof. destruct r; simpl; auto. Qed.

Lemma post_Ok {X : Type} (r : Res X) (Q : X -> Prop) (x : X) :
  post r Q -> r = Ok x -> Q x.
Proof. intros H ->. exact H. Qed.

Section CursorFacts.
Variable code : str.

Lemma index_advance1 st : index (advance1 code st) = S (index st).
Proof. reflexivity. Qed.

Lemma index_advance n st : index (advance code n st) = n + index st.
Proof.
  revert st; induction n as [|n IH]; intros st; simpl; [reflexivity|].
  rewrite IH, index_advance1. lia.
Qed.

Lemma currentChar_Some st c :
  currentChar code st = Some c -> index st < length code.
Proof.
  unfold currentChar, getCharAt. intros H.
  apply nth_error_Some. congruence.
Qed.

Lemma currentChar_None st :
  currentChar code st = None -> length code <= index st.
Proof. unfold currentChar, getCharAt. apply nth_error_None. Qed.

Lemma isChar_Some o c : isChar o c = true -> o = Some c.
Proof.
  destruct o as [c'|]; simpl; [|discriminate].
  intros H; apply Ascii.eqb_eq in H; congruence.
Qed.

Lemma areNextCharsFrom_bound controll :
  forall i, areNextCharsFrom code i controll = true ->
            controll <> [] -> i + length controll <= length code.
Proof.
  induction controll as [|c rest IH]; intros i H Hne; [congruence|].
  simpl in H. apply andb_true_iff in H as [Hc Hrest].
  apply isChar_Some in Hc.
  assert (i < length code) by (apply nth_error_Some; congruence).
  destruct rest as [|c' rest']; simpl; [lia|].
  specialize (IH (S i) Hrest ltac:(discriminate)). simpl in IH. lia.
Qed.

Lemma consume_post c st :
  post (consume code c st)
       (fun st' => index st' = S (index st) /\ index st < length code).
Proof.
  unfold consume. destruct (isChar (currentChar code st) c) eqn:E; simpl; [|exact I].
  apply isChar_Some in E. split; [reflexivity|].
  eapply currentChar_Some; eassumption.
Qed.

Lemma skipUntilLoop_post untilChars allowEmpty startIndex startLine :
  Forall (fun c => c <> []) untilChars ->
  forall fuel depth st,
    length code - index st <= fuel ->
    post (skipUntilLoop code fuel untilChars allowEmpty startIndex startLine depth st)
         (fun p => index st < index (snd p) /\ index (snd p) <= length code
                   /\ In (controllChar (fst p)) untilChars).
Proof.
  intros Hne. induction fuel as [|fuel IH]; intros depth st Hfuel; simpl;
    destruct (currentChar code st) as [c|] eqn:Ec; try exact I.
  - apply currentChar_Some in Ec. lia.
  - pose proof (currentChar_Some _ Ec) as Hlt.
    assert (Hrec : forall d,
               post (skipUntilLoop code fuel untilChars allowEmpty startIndex
                                   startLine d (advance1 code st))
                    (fun p => index st < index (snd p)
                              /\ index (snd p) <= length code
                              /\ In (controllChar (fst p)) untilChars)).
    { intros d. eapply post_weaken; [apply IH; rewrite index_advance1; lia|].
      intros p (H1 & H2 & H3). rewrite index_advance1 in H1.
      repeat split; auto; lia. }
    destruct (isParenStart c); [apply Hrec|].
    destruct ((0 <? depth) && isParenEnd c); [apply Hrec|].
    destruct (if depth =? 0 then find (areNextChars code st) untilChars else None)
      as [controll|] eqn:Ef; [|apply Hrec].
    destruct (depth =? 0); [|discriminate].
    apply find_some in Ef as [Hin Hmatch].
    assert (controll <> []) as Hc
        by (rewrite Forall_forall in Hne; apply Hne; assumption).
    apply areNextCharsFrom_bound in Hmatch; [|assumption].
    match goal with |- post (if ?b then _ else _) _ => destruct b end;
      simpl; [exact I|].
    rewrite index_advance.
    destruct controll; [congruence|]. simpl in *. repeat split; auto; lia.
Qed.

Lemma skipUntilAndWith_post untilChars allowEmpty st :
  Forall (fun c => c <> []) untilChars ->
  post (skipUntilAndWith code untilChars allowEmpty st)
       (fun p => index st < index (snd p) /\ index (snd p) <= length code
                 /\ In (controllChar (fst p)) untilChars).
Proof. intros H. apply skipUntilLoop_post; [assumption | lia]. Qed.

Lemma parseParamsLoop_post :
  forall fuel parsedArguments st,
    length code - index st < fuel ->
    post (parseParamsLoop code fuel parsedArguments st)
         (fun p => index st < index (snd p)).
Proof.
  induction fuel as [|fuel IH]; intros args st Hfuel; [lia|]. simpl.
  eapply post_bind.
  - apply skipUntilAndWith_post. repeat constructor; discriminate.
  - intros [argument st'] H. cbn [fst snd] in H. destruct H as (H1 & H2 & _).
    match goal with |- post (if ?b then _ else _) _ => destruct b end;
      [exact H1|].
    eapply post_weaken; [apply IH; lia|]. cbv beta; intros; lia.
Qed.

Lemma parseParams_post expectedCount st :
  post (parseParams code expectedCount st)
       (fun p => index st <= index (snd p) /\ length (fst p) = expectedCount).
Proof.
  unfold parseParams.
  destruct (negb (isChar (currentChar code st) "(")).
  - destruct (expectedCount =? 0) eqn:E; simpl; [|exact I].
    apply Nat.eqb_eq in E. split; [lia | congruence].
  - eapply post_bind.
    + apply parseParamsLoop_post. rewrite index_advance1. lia.
    + intros [parsedArguments st'] H. cbn [fst snd] in H.
      rewrite index_advance1 in H.
      match goal with |- post (if negb (_ =? length ?l) then _ else _) _ =>
                      destruct (expectedCount =? length l) eqn:E end;
        simpl; [|exact I].
      apply Nat.eqb_eq in E. split; [lia | congruence].
Qed.

Lemma tagNameLoop_index fuel st :
  index st <= index (tagNameLoop code fuel st).
Proof.
  revert st; induction fuel as [|fuel IH]; intros st; simpl; [lia|].
  destruct (currentChar code st) as [c|]; [|lia].
  destruct (isValidTagChar c); [|lia].
  specialize (IH (advance1 code st)). rewrite index_advance1 in IH. lia.
Qed.

(** With the fuel [parse] gives it, the tag-name loop stops only where the
    source loop does: at the end of input or at a non-tag character. *)
Lemma tagNameLoop_stops fuel st :
  length code - index st <= fuel ->
  match currentChar code (tagNameLoop code fuel st) with
  | Some c => isValidTagChar c = false
  | None => True
  end.
Proof.
  revert st; induction fuel as [|fuel IH]; intros st Hfuel; simpl.
  - destruct (currentChar code st) eqn:E; [|exact I].
    apply currentChar_Some in E. lia.
  - destruct (currentChar code st) as [c|] eqn:E; [|rewrite E; exact I].
    destruct (isValidTagChar c) eqn:Ev; [|rewrite E; exact Ev].
    apply IH. rewrite index_advance1. lia.
Qed.

Lemma readTagName_index st : index st < index (snd (readTagName code st)).
Proof.
  unfold readTagName; simpl.
  pose proof (tagNameLoop_index (length code) (advance1 code st)) as H.
  rewrite index_advance1 in H. lia.
Qed.

End CursorFacts.

(* ================================================================= *)
(** ** Invariants of the statements the parser builds *)

Lemma forallb_treeOk (l : list Statement) :
  Forall treeOk l -> forallb (allNodes nodeOk) l = true.
Proof. intros H. apply forallb_forall. rewrite Forall_forall in H. exact H. Qed.

Lemma Forall_filter {A : Type} (P : A -> Prop) (f : A -> bool) (l : list A) :
  Forall P l -> Forall P (filter f l).
Proof.
  rewrite !Forall_forall. intros H x Hx. apply filter_In in Hx as [Hx _]. auto.
Qed.

Lemma treeOk_chain (mk : option Statement -> Statement)
      (ch : list Statement) (ending : Statement) :
  (forall nx, allNodes nodeOk (mk nx)
              = chainLink nx && (forallb (allNodes nodeOk) ch
                                 && match nx with
                                    | Some n => allNodes nodeOk n
                                    | None => true
                                    end)) ->
  Forall treeOk ch -> treeOk ending ->
  StatementName.includes [StatementName.ElseIfStatement;
                          StatementName.ElseStatement;
                          StatementName.EndStatement] (name ending) = true ->
  treeOk (mk (if instanceofEndStatement ending then None else Some ending)).
Proof.
  intros Hmk Hch Hend Hin. unfold treeOk in *. rewrite Hmk.
  rewrite (forallb_treeOk Hch).
  destruct ending; simpl in Hin; try discriminate; simpl instanceofEndStatement;
    cbv iota; try rewrite Hend; reflexivity.
Qed.

Section BlockFacts.
Variable code : str.
Variable rec : bool -> bool -> bool -> bool -> Cursor -> Res (Statement * Cursor).
Variable bound : nat.

(** What the block reader needs of the recursive call: behind [bound] and
    before the end of input it returns past its starting cursor. *)
Hypothesis Hrec : forall ai ad ap asl st,
    bound < index st -> index st < length code ->
    post (rec ai ad ap asl st)
         (fun p => index st < index (snd p)
                   /\ treeOk (fst p) /\ gateOk ai ad ap (fst p)).

Lemma parseUntilLoop_post names slot :
  forall fuel acc st,
    bound < index st -> length code - index st <= fuel -> Forall treeOk acc ->
    post (parseUntilLoop code rec fuel names slot acc st)
         (fun p => index st < index (snd p)
                   /\ Forall treeOk (fst (fst p))
                   /\ treeOk (snd (fst p))
                   /\ StatementName.includes names (name (snd (fst p))) = true).
Proof.
  induction fuel as [|fuel IH]; intros acc st Hb Hfuel Hacc; simpl;
    destruct (currentChar code st) as [c|] eqn:Ec; try exact I;
      pose proof (currentChar_Some _ _ Ec) as Hlt; [lia|].
  eapply post_bind; [apply Hrec; assumption|].
  intros [statement st'] (H1 & H2 & _). cbn [fst snd] in *.
  destruct (StatementName.includes names (name statement)) eqn:Ein.
  - simpl. auto.
  - eapply post_weaken.
    + apply IH; [lia | lia | apply Forall_app; auto].
    + cbv beta. intros p (Hp & Hq). split; [lia | exact Hq].
Qed.

Lemma parseUntilStatment_post names slot st :
  bound < index st ->
  post (parseUntilStatment code rec names slot st)
       (fun p => index st < index (snd p)
                 /\ Forall treeOk (fst (fst p))
                 /\ treeOk (snd (fst p))
                 /\ StatementName.includes names (name (snd (fst p))) = true).
Proof. intros H. apply parseUntilLoop_post; [assumption | lia | constructor]. Qed.

Ltac consume_step :=
  eapply post_bind; [apply consume_post|];
  let st := fresh "st" in let H := fresh "Hc" in
  intros st [H _]; cbv beta iota.

Ltac skip_step :=
  eapply post_bind;
  [apply skipUntilAndWith_post; repeat constructor; discriminate|];
  let v := fresh "v" in let st := fresh "st" in let H := fresh "Hs" in
  intros [v st] (H & _ & _); cbn [fst snd] in H; cbv beta iota.

Ltac until_step :=
  eapply post_bind; [apply parseUntilStatment_post; lia|];
  let ch := fresh "ch" in let e := fresh "ending" in let st := fresh "st" in
  let H1 := fresh "Hu" in let H2 := fresh "Hch" in
  let H3 := fresh "Hend" in let H4 := fresh "Hin" in
  intros [[ch e] st] (H1 & H2 & H3 & H4); cbn [fst snd] in H1, H2, H3, H4;
  cbv beta iota.

Ltac made_done :=
  unfold made; cbn [post fst snd index position_];
  repeat split; try lia; try reflexivity.

Lemma makeLetStatement_post si sl st :
  post (makeLetStatement code si sl st) (made st StatementName.LetStatement).
Proof.
  unfold makeLetStatement. consume_step. skip_step.
  match goal with |- post (if ?b then _ else _) _ => destruct b end.
  - skip_step. made_done.
  - made_done.
Qed.

Lemma makeAssignStatement_post si sl st :
  post (makeAssignStatement code si sl st) (made st StatementName.LetStatement).
Proof.
  unfold makeAssignStatement. consume_step. skip_step. skip_step. made_done.
Qed.

Lemma makeParamStatement_post si sl st :
  post (makeParamStatement code si sl st) (made st StatementName.ParamStatement).
Proof.
  unfold makeParamStatement. consume_step. skip_step. skip_step.
  match goal with |- post (if ?b then _ else _) _ => destruct b end.
  - skip_step. made_done.
  - made_done.
Qed.

Lemma makeImportStatement_post si sl st :
  post (makeImportStatement code si sl st) (made st StatementName.ImportStatement).
Proof.
  unfold makeImportStatement. consume_step. skip_step. made_done.
Qed.

Lemma makeDefineSlotStatement_post si sl st :
  post (makeDefineSlotStatement code si sl st)
       (made st StatementName.DefineSlotStatement).
Proof.
  unfold makeDefineSlotStatement. consume_step. skip_step.
  match goal with
  | |- post (if ?b then _ else _) _ => destruct b eqn:Emain
  end; [exact I|].
  match goal with |- post (if ?b then _ else _) _ => destruct b end.
  - skip_step. made_done.
    unfold treeOk; cbn [allNodes nodeOk value scannedExpr].
    rewrite Emain. reflexivity.
  - made_done.
    unfold treeOk; cbn [allNodes nodeOk value scannedExpr].
    rewrite Emain. reflexivity.
Qed.

Lemma makeInlineTsCodeStatement_post st :
  post (makeInlineTsCodeStatement code st)
       (fun p => index st < index (snd p) /\ treeOk (fst p)
                 /\ (name (fst p) = StatementName.InlineTsCodeStatement
                     \/ name (fst p) = StatementName.InlineSafeTsCodeStatement)).
Proof.
  unfold makeInlineTsCodeStatement.
  eapply post_bind;
    [apply skipUntilAndWith_post; repeat constructor; discriminate|].
  intros [v st3] (Hs & _ & _). cbn [fst snd] in Hs.
  eapply post_bind; [apply consume_post|]. intros st4 [Hc _].
  assert (index st < index st4).
  { destruct (isChar (currentChar code st) "!");
      rewrite ?index_advance in Hs; lia. }
  destruct (isChar (currentChar code st) "!"); cbn [post fst snd];
    (split; [assumption | split; [reflexivity|]]); [left | right]; reflexivity.
Qed.

Lemma skipInlineComment_post st :
  post (skipInlineComment code st) (fun st' => index st < index st').
Proof.
  unfold skipInlineComment.
  eapply post_bind;
    [apply skipUntilAndWith_post; repeat constructor; discriminate|].
  intros [v st'] (Hs & _ & _). cbn [fst snd] in Hs.
  rewrite index_advance in Hs. simpl. lia.
Qed.

Lemma makeEachStatement_post si sl st :
  bound < index st ->
  post (makeEachStatement code rec si sl st) (made st StatementName.EachStatement).
Proof.
  intros Hb. unfold makeEachStatement. consume_step. skip_step.
  match goal with |- post (if ?b then _ else _) _ => destruct b end; [exact I|].
  skip_step. until_step. made_done.
  unfold treeOk; simpl. apply forallb_treeOk; assumption.
Qed.

Lemma makeIfStatement_post si sl st :
  bound < index st ->
  post (makeIfStatement code rec si sl st) (made st StatementName.IfStatement).
Proof.
  intros Hb. unfold makeIfStatement. consume_step. skip_step. until_step.
  made_done.
  match goal with
  | |- treeOk (IfStatement ?p ?e ?c _) =>
    apply treeOk_chain with (mk := fun nx => IfStatement p e c nx) (ch := c);
      auto
  end.
Qed.

Lemma makeElseIfStatement_post si sl st :
  bound < index st ->
  post (makeElseIfStatement code rec si sl st)
       (made st StatementName.ElseIfStatement).
Proof.
  intros Hb. unfold makeElseIfStatement. consume_step. skip_step. until_step.
  made_done.
  match goal with
  | |- treeOk (ElseIfStatement ?p ?e ?c _) =>
    apply treeOk_chain with (mk := fun nx => ElseIfStatement p e c nx) (ch := c);
      auto
  end.
Qed.

Lemma makeElseStatement_post si sl st :
  bound < index st ->
  post (makeElseStatement code rec si sl st) (made st StatementName.ElseStatement).
Proof.
  intros Hb. unfold makeElseStatement.
  eapply post_bind; [apply parseParams_post|].
  intros [args st1] [Hp _]. cbn [fst snd] in Hp.
  until_step. made_done.
  unfold treeOk; simpl. apply forallb_treeOk; assumption.
Qed.

Lemma makeComponentStatement_post si sl st :
  bound < index st ->
  post (makeComponentStatement code rec si sl st)
       (made st StatementName.ComponentStatement).
Proof.
  intros Hb. unfold makeComponentStatement.
  eapply post_bind; [apply parseParams_post|].
  intros [args st1] [Hp Hlen]. cbn [fst snd] in Hp, Hlen.
  destruct args as [|a1 [|a2 [|a3 args]]]; try discriminate.
  until_step. made_done.
  unfold treeOk; simpl.
  rewrite !forallb_treeOk; [reflexivity| |]; apply Forall_filter; assumption.
Qed.

Lemma makeComponentSlotStatement_post si sl st :
  bound < index st ->
  post (makeComponentSlotStatement code rec si sl st)
       (made st StatementName.ComponentSlotStatement).
Proof.
  intros Hb. unfold makeComponentSlotStatement. consume_step. skip_step.
  eapply post_bind with (Qc := fun p => index st1 <= index (snd p)).
  - match goal with |- post (if ?b then _ else _) _ => destruct b end.
    + skip_step. simpl. lia.
    + simpl. lia.
  - intros [pv st3] Hpv. cbn [fst snd] in Hpv.
    until_step. made_done.
    unfold treeOk; simpl. apply forallb_treeOk; assumption.
Qed.

Ltac from_made lem :=
  eapply post_weaken;
  [ first [apply lem; lia | apply lem]
  | let p := fresh "p" in let H1 := fresh in let H2 := fresh in
    let H3 := fresh in
    intros p (H1 & H2 & H3); unfold parsed, gateOk;
    repeat split; [lia | exact H2 | ..]; rewrite H3; intros; try discriminate;
    reflexivity ].

Lemma makeAtTag_post ai ad ap asl st :
  bound <= index st ->
  post (makeAtTag code rec ai ad ap asl st) (parsed (index st) ai ad ap).
Proof.
  intros Hb. unfold makeAtTag.
  pose proof (readTagName_index code st) as Hi.
  destruct (readTagName code st) as [tagName st2]. cbn [snd] in Hi.
  repeat match goal with
         | |- post (if str_eqb tagName ?l then _ else _) _ =>
           destruct (str_eqb tagName l)
         end.
  - from_made makeEachStatement_post.
  - from_made makeIfStatement_post.
  - from_made makeElseIfStatement_post.
  - from_made makeElseStatement_post.
  - from_made makeLetStatement_post.
  - from_made makeAssignStatement_post.
  - from_made makeComponentStatement_post.
  - destruct ai; [|exact I]. from_made makeImportStatement_post.
  - destruct ap; [|exact I]. from_made makeParamStatement_post.
  - destruct ad; [|exact I]. from_made makeDefineSlotStatement_post.
  - destruct asl; [|exact I]. from_made makeComponentSlotStatement_post.
  - unfold parsed, gateOk; cbn [post fst snd index position_ name].
    repeat split; try lia; discriminate.
  - exact I.
Qed.

Lemma parseOnceLoop_post ai ad ap asl si sl from :
  from < length code -> bound <= from ->
  forall fuel acc st,
    length code - index st <= fuel ->
    from <= index st -> (acc <> [] -> from < index st) ->
    post (parseOnceLoop code rec fuel ai ad ap asl acc si sl st)
         (parsed from ai ad ap).
Proof.
  intros Hfrom Hb.
  assert (Htext : forall p v st, from < index st ->
                                 parsed from ai ad ap (TextStatement p v, st)).
  { intros p v st H. unfold parsed, gateOk; cbn [fst snd name].
    repeat split; try assumption; discriminate. }
  induction fuel as [|fuel IH]; intros acc st Hfuel Hle Hacc;
    cbn [parseOnceLoop];
    (destruct (currentChar code st) as [c|] eqn:Ec;
     [pose proof (currentChar_Some _ _ Ec) as Hlt
     |apply currentChar_None in Ec; apply Htext; lia]); [lia|].
  repeat match goal with
         | |- post (if ?b then _ else _) _ => destruct b eqn:?
         end.
  - apply IH; rewrite ?index_advance; try lia.
  - apply Htext, Hacc. destruct acc; easy.
  - eapply post_bind; [apply skipInlineComment_post|].
    intros st' Hs. cbv beta in Hs. apply IH; try lia.
  - eapply post_weaken; [apply makeInlineTsCodeStatement_post|].
    intros p (H1 & H2 & H3). unfold parsed, gateOk.
    repeat split; try lia; try assumption;
      intros Hn; destruct H3 as [H3|H3]; rewrite H3 in Hn; discriminate.
  - apply IH; rewrite ?index_advance; try lia.
  - apply Htext, Hacc. destruct acc; easy.
  - eapply post_weaken; [apply makeAtTag_post; lia|].
    intros p (H1 & H2 & H3). unfold parsed. split; [lia | split; assumption].
  - apply IH; rewrite ?index_advance; try lia.
Qed.

Lemma parseOnceBody_post ai ad ap asl st :
  bound <= index st -> index st < length code ->
  post (parseOnceBody code rec ai ad ap asl st) (parsed (index st) ai ad ap).
Proof.
  intros Hb Hlt. unfold parseOnceBody.
  apply parseOnceLoop_post; try lia. congruence.
Qed.

End BlockFacts.

Section ParseFacts.
Variable code : str.

Lemma parseOnceDepth_post :
  forall depth ai ad ap asl st,
    length code - index st < depth -> index st < length code ->
    post (parseOnceDepth code depth ai ad ap asl st) (parsed (index st) ai ad ap).
Proof.
  induction depth as [|depth IH]; intros ai ad ap asl st Hd Hlt; [lia|].
  cbn [parseOnceDepth].
  apply parseOnceBody_post with (bound := index st); try lia.
  intros ai' ad' ap' asl' st' H1 H2. apply IH; lia.
Qed.

(** [#parseOnce], started before the end of input, returns past its
    starting cursor or throws; its statement is well formed and passed
    its gate. *)
Lemma parseOnce_post ai ad ap asl st :
  index st < length code ->
  post (parseOnce code ai ad ap asl st) (parsed (index st) ai ad ap).
Proof. intros H. apply parseOnceDepth_post; [lia | assumption]. Qed.

Lemma parseLoop_post :
  forall fuel statements ai ad ap st,
    length code - index st <= fuel -> Forall treeOk statements ->
    post (parseLoop code fuel statements ai ad ap st) (Forall treeOk).
Proof.
  induction fuel as [|fuel IH]; intros statements ai ad ap st Hfuel Hs;
    cbn [parseLoop];
    (destruct (currentChar code st) as [c|] eqn:Ec; [|exact Hs]);
    pose proof (currentChar_Some _ _ Ec) as Hlt; [lia|].
  eapply post_bind; [apply parseOnce_post; assumption|].
  intros [statement st'] (H1 & H2 & _). cbn [fst snd] in H1, H2. cbv beta iota.
  destruct (hasToBeHandledInParse statement); [exact I|].
  apply IH; [lia | apply Forall_app; auto].
Qed.

Lemma parse_post : post (parse code) (Forall treeOk).
Proof. apply parseLoop_post; [lia | constructor]. Qed.

End ParseFacts.

(* ================================================================= *)
(** ** Statement trees and conditional chains *)

Lemma forallb_flat_map_nodes (P : Statement -> bool) (ch : list Statement) :
  Forall (fun s => allNodes P s = true ->
                   forall n, In n (nodes s) -> allNodes P n = true) ch ->
  forallb (allNodes P) ch = true ->
  forall n, In n (flat_map nodes ch) -> allNodes P n = true.
Proof.
  induction 1 as [|c ch Hc _ IH]; simpl; intros Hall n Hn; [contradiction|].
  apply andb_true_iff in Hall as [H1 H2].
  apply in_app_or in Hn as [Hn|Hn]; auto.
Qed.

Lemma allNodes_nodes (P : Statement -> bool) (s : Statement) :
  allNodes P s = true -> forall n, In n (nodes s) -> allNodes P n = true.
Proof.
  induction s using Statement_nested_ind; intros Hall x Hn;
    pose proof Hall as Hall';
    cbn [allNodes] in Hall; cbn [nodes] in Hn;
    destruct Hn as [<-|Hn]; try exact Hall'; try contradiction;
    repeat match goal with
           | H : _ && _ = true |- _ => apply andb_true_iff in H as [? ?]
           | H : In _ (_ ++ _) |- _ => apply in_app_or in H as [H|H]
           end;
    try (eapply forallb_flat_map_nodes; eassumption).
  - destruct nx as [nx|]; [|contradiction]. simpl in *. auto.
  - destruct nx as [nx|]; [|contradiction]. simpl in *. auto.
  - auto.
Qed.

Lemma allNodes_here (P : Statement -> bool) (s : Statement) :
  allNodes P s = true -> P s = true.
Proof. destruct s; simpl; intros H; apply andb_true_iff in H as [H _]; exact H. Qed.

Lemma chain_shape (s : Statement) :
  treeOk s -> elseIfsThenElse (chainOf s) = true.
Proof.
  unfold treeOk.
  induction s using Statement_nested_ind; intros Hall; try reflexivity;
    cbn [allNodes nodeOk] in Hall;
    (destruct nx as [n|]; [|reflexivity]);
    repeat match goal with
           | H : _ && _ = true |- _ => apply andb_true_iff in H as [? ?]
           end;
    simpl in *;
    destruct n; try discriminate; auto.
Qed.

Lemma nthNext_ends (s : Statement) : nthNext (S (length (chainOf s))) s = None.
Proof.
  induction s using Statement_nested_ind; try reflexivity;
    (destruct nx as [n|]; [|reflexivity]); simpl in *; assumption.
Qed.

Lemma chain_links (s : Statement) :
  treeOk s ->
  Forall (fun n => chainLink (nextOf n) = true
                   /\ (name n = StatementName.ElseStatement -> nextOf n = None))
         (chainOf s).
Proof.
  unfold treeOk.
  induction s using Statement_nested_ind; intros Hall; try (constructor; fail);
    cbn [allNodes nodeOk] in Hall;
    (destruct nx as [n|]; [|constructor]);
    repeat match goal with
           | H : _ && _ = true |- _ => apply andb_true_iff in H as [? ?]
           end;
    simpl in *;
    (constructor; [|auto]);
    (split; [|destruct n; intros; try discriminate; reflexivity]);
    match goal with
    | H : allNodes nodeOk n = true |- _ =>
      apply allNodes_here in H; destruct n; try reflexivity; exact H
    end.
Qed.

(** Along [next] the remaining chain gets strictly shorter, so no statement
    is met twice. *)
Lemma chain_NoDup (s : Statement) :
  NoDup (s :: chainOf s)
  /\ Forall (fun n => length (chainOf n) < length (chainOf s)) (chainOf s).
Proof.
  assert (Hend : forall x, chainOf x = [] ->
                           NoDup (x :: chainOf x)
                           /\ Forall (fun n => length (chainOf n) < length (chainOf x))
                                     (chainOf x)).
  { intros x ->. split; constructor; [intros [] | constructor]. }
  assert (Hstep : forall x n, chainOf x = n :: chainOf n ->
                              NoDup (n :: chainOf n)
                              /\ Forall (fun m => length (chainOf m) < length (chainOf n))
                                        (chainOf n) ->
                              NoDup (x :: chainOf x)
                              /\ Forall (fun m => length (chainOf m) < length (chainOf x))
                                        (chainOf x)).
  { intros x n Hx [Hnd Hlt].
    assert (Hall : Forall (fun m => length (chainOf m) < length (chainOf x))
                          (chainOf x)).
    { rewrite Hx. simpl. constructor; [lia|].
      eapply Forall_impl; [|exact Hlt]. simpl; intros; lia. }
    split; [|exact Hall]. constructor; [|rewrite Hx; exact Hnd].
    intros Hin. rewrite Forall_forall in Hall. specialize (Hall x Hin). lia. }
  induction s using Statement_nested_ind; try (apply Hend; reflexivity);
    (destruct nx as [n|]; [|apply Hend; reflexivity]);
    (apply Hstep with (n := n); [reflexivity | assumption]).
Qed.

(* ================================================================= *)
(** ** The top-level loop and its gates *)

Lemma app_snoc_inv {A : Type} (pre post l : list A) (s x : A) :
  pre ++ s :: post = l ++ [x] ->
  (post = [] /\ pre = l /\ s = x)
  \/ (exists post', post = post' ++ [x] /\ l = pre ++ s :: post').
Proof.
  destruct post as [|y post' _] using rev_ind; intros H.
  - left. apply app_inj_tail in H as [-> ->]. auto.
  - right. exists post'.
    change (pre ++ s :: post' ++ [y]) with (pre ++ (s :: post') ++ [y]) in H.
    rewrite app_assoc in H. apply app_inj_tail in H as [<- ->]. auto.
Qed.

Section TopLevelFacts.
Variable code : str.

Lemma isAtEnd_false st : isAtEnd code st = false -> index st < length code.
Proof.
  unfold isAtEnd. destruct (currentChar code st) eqn:E; [|discriminate].
  intros _. eapply currentChar_Some; eassumption.
Qed.

Lemma parseLoop_fuel :
  forall f1 f2 statements ai ad ap st,
    length code - index st <= f1 -> length code - index st <= f2 ->
    parseLoop code f1 statements ai ad ap st
    = parseLoop code f2 statements ai ad ap st.
Proof.
  induction f1 as [|f1 IH]; intros [|f2] statements ai ad ap st H1 H2;
    cbn [parseLoop];
    (destruct (currentChar code st) as [c|] eqn:Ec; [|reflexivity]);
    pose proof (currentChar_Some _ _ Ec) as Hlt; try lia.
  pose proof (parseOnce_post code ai ad ap false st Hlt) as Hp.
  destruct (parseOnce code ai ad ap false st) as [[s st']| |];
    cbn [bind]; try reflexivity.
  destruct Hp as [Hp _]. cbn [snd] in Hp.
  destruct (hasToBeHandledInParse s); [reflexivity|].
  apply IH; lia.
Qed.

Lemma topReach_parse statements ai ad ap st :
  topReach code statements ai ad ap st ->
  parse code = parseLoop code (length code - index st) statements ai ad ap st.
Proof.
  induction 1 as [|statements ai ad ap st s st' _ IH Hend Hp Hh].
  - unfold parse. simpl. rewrite Nat.sub_0_r. reflexivity.
  - rewrite IH. pose proof (isAtEnd_false _ Hend) as Hlt.
    pose proof (parseOnce_post code ai ad ap false st Hlt) as Hpost.
    rewrite Hp in Hpost. destruct Hpost as [Hadv _]. cbn [snd] in Hadv.
    destruct (length code - index st) as [|k] eqn:Ek; [lia|].
    cbn [parseLoop]. unfold isAtEnd in Hend.
    destruct (currentChar code st); [|discriminate].
    rewrite Hp. cbn [bind]. rewrite Hh. apply parseLoop_fuel; lia.
Qed.

Lemma topReach_gates statements ai ad ap st :
  topReach code statements ai ad ap st ->
  ai = forallb importAllowedAfter statements
  /\ ad = forallb defineSlotAllowedAfter statements
  /\ ap = forallb paramAllowedAfter statements.
Proof.
  induction 1 as [|statements ai ad ap st s st' _ IH Hend Hp Hh];
    [repeat split|].
  destruct IH as (-> & -> & ->). rewrite !forallb_app. cbn [forallb].
  rewrite !andb_true_r.
  generalize (forallb importAllowedAfter statements) as a.
  generalize (forallb defineSlotAllowedAfter statements) as b.
  generalize (forallb paramAllowedAfter statements) as c.
  unfold importAllowedAfter, defineSlotAllowedAfter, paramAllowedAfter.
  intros c b a. clear.
  repeat split;
    match goal with
    | |- (if ?x && negb ?y then _ else _) = _ => destruct x, y; reflexivity
    end.
Qed.

Lemma topReach_respected statements ai ad ap st :
  topReach code statements ai ad ap st -> gatesRespected statements.
Proof.
  induction 1 as [|statements ai ad ap st s st' Hreach IH Hend Hp Hh];
    intros pre x post Heq.
  - destruct pre; discriminate.
  - symmetry in Heq. apply app_snoc_inv in Heq as [(-> & -> & ->)|(post' & -> & ->)].
    + pose proof (topReach_gates Hreach) as (Hi & Hd & Hpm).
      pose proof (parseOnce_post code ai ad ap false st (isAtEnd_false _ Hend))
        as Hpost.
      rewrite Hp in Hpost. destruct Hpost as (_ & _ & G1 & G2 & G3).
      cbn [fst] in G1, G2, G3.
      repeat split; intros Hn; [rewrite <- Hi | rewrite <- Hd | rewrite <- Hpm];
        auto.
    + eapply IH. reflexivity.
Qed.

Lemma parseLoop_reach :
  forall fuel statements ai ad ap st result,
    topReach code statements ai ad ap st ->
    parseLoop code fuel statements ai ad ap st = Ok result ->
    exists ai' ad' ap' st', topReach code result ai' ad' ap' st'.
Proof.
  induction fuel as [|fuel IH]; intros statements ai ad ap st result Hreach;
    cbn [parseLoop]; destruct (currentChar code st) as [c|] eqn:Ec;
      try discriminate;
      try (intros H; injection H as <-; eauto; fail).
  destruct (parseOnce code ai ad ap false st) as [[s st']| |] eqn:Hp;
    cbn [bind]; try discriminate.
  destruct (hasToBeHandledInParse s) eqn:Hh; [discriminate|].
  apply IH. eapply topReach_step; try eassumption.
  unfold isAtEnd. rewrite Ec. reflexivity.
Qed.

Lemma parse_respected result : parse code = Ok result -> gatesRespected result.
Proof.
  intros H. unfold parse in H.
  apply parseLoop_reach in H as (ai & ad & ap & st & Hreach);
    [|apply topReach_start].
  eapply topReach_respected; eassumption.
Qed.

(** On an [@], [#parseOnce] is [#makeAtTag]. *)
Lemma parseOnce_at_tag ai ad ap asl st :
  currentChar code st = Some "@"%char ->
  parseOnce code ai ad ap asl st
  = makeAtTag code (parseOnceDepth code (length code)) ai ad ap asl st.
Proof.
  intros Hc. pose proof (currentChar_Some _ _ Hc) as Hlt.
  unfold parseOnce. cbn [parseOnceDepth]. unfold parseOnceBody.
  destruct (length code) as [|k] eqn:Ek; [lia|].
  cbn [parseOnceLoop]. rewrite Hc. reflexivity.
Qed.

Lemma nextTag_Some st tag :
  nextTag code st = Some tag ->
  currentChar code st = Some "@"%char /\ fst (readTagName code st) = tag.
Proof.
  unfold nextTag. destruct (isChar (currentChar code st) "@") eqn:E;
    [|discriminate].
  intros H; injection H as <-. split; [|reflexivity].
  apply isChar_Some; assumption.
Qed.


End TopLevelFacts.

(* ================================================================= *)
(** * The claims *)

(** C1. Round-trip offset law: for the structured fragment of any
    statement, and for the delimiter-joined fragment of any statement
    sequence, flattening with [toMappedString] yields a map whose entries
    are, in order, exactly the expressions of the statements: each entry
    carries the start offset of its expression's source position, and the
    generated text at [[generatedOffset, generatedOffset + length)] is the
    text of that expression (nested entries being re-based into the outer
    text).  Statements contribute no entries of their own; a statement
    without a fragment (text, end) owns no expression. *)
Theorem C1_round_trip_offset_law :
  (forall s : Statement,
      match toTsCode s with
      | Some t => roundTrip t (exprsOf s)
      | None => exprsOf s = []
      end)
  /\ (forall (statements : list Statement) (delimiter : str),
         roundTrip (TsCodeArray_toTsCode (map toTsCode statements) delimiter)
                   (flat_map exprsOf statements)).
Proof.
  split.
  - intros s. pose proof (toTsCode_view s) as H.
    destruct (toTsCode s) as [t|] eqn:E.
    + apply roundTrip_of_view. rewrite <- H.
      unfold mappedViewAt, mappedAt.
      replace (tsShouldBeMapped t) with false; [reflexivity|].
      destruct s; simpl in E; try discriminate; injection E as <-; reflexivity.
    + simpl in H. destruct (exprsOf s); [reflexivity | discriminate].
  - intros statements delimiter. apply roundTrip_of_view.
    rewrite TsCodeArray_view. apply children_view.
    apply Forall_forall. intros s _. apply toTsCode_view.
Qed.





(** C3.  The escape [\{{] (and [\@]) does not open a directive, but the
    text statement of the surrounding run does not contain the escaped
    [{{] ([@]): [#parseOnce] skips the escape without appending to the
    accumulator.  On [a\{{b] the text is [ab], on [a\@b] it is [ab]. *)
Theorem C3_escape_is_dropped :
  parse (lit "a\{{b") = Ok [TextStatement (pos 0 0 5) (lit "ab")]
  /\ parse (lit "a\@b") = Ok [TextStatement (pos 0 0 4) (lit "ab")].
Proof. split; vm_compute; reflexivity. Qed.

(** C4, as amended.  [@defslot] with the slot name [main] raises the
    reserved-slot-name error: whenever [#makeDefineSlotStatement] has
    scanned the name [main] it throws that error, at the name's position;
    so does [parse] on [@defslot(main)] and on [@defslot( main :], whatever
    follows; and no successful parse contains, at any depth, a [DefineSlot]
    statement named [main].  ([@slot] makes no such check.) *)
Theorem C4_defslot_main_is_reserved :
  (forall (code : str) (startIndex startLine : nat) (st st1 st2 : Cursor)
          (slotNameValuePos : Scanned),
      consume code "(" st = Ok st1 ->
      skipUntilAndWith code [lit ":"; lit ")"] false st1
      = Ok (slotNameValuePos, st2) ->
      sc_value slotNameValuePos = lit "main" ->
      makeDefineSlotStatement code startIndex startLine st
      = Throw (SlotDefinitionNamedMainError (sc_position slotNameValuePos)))
  /\ (forall rest : str,
         parse (lit "@defslot(main)" ++ rest)
         = Throw (SlotDefinitionNamedMainError (pos 9 0 13)))
  /\ (forall rest : str,
         parse (lit "@defslot( main :" ++ rest)
         = Throw (SlotDefinitionNamedMainError (pos 10 0 14)))
  /\ (forall (code : str) (statements : list Statement),
         parse code = Ok statements ->
         forall top p n a,
           In top statements ->
           In (DefineSlotStatement p n a) (nodes top) ->
           value n <> lit "main").
Proof.
  split; [|split; [|split]].
  - intros code si sl st st1 st2 v Hc Hs Hv.
    unfold makeDefineSlotStatement. rewrite Hc. cbn [bind]. rewrite Hs.
    cbn [bind]. rewrite Hv. reflexivity.
  - intros rest. vm_compute. reflexivity.
  - intros rest. vm_compute. reflexivity.
  - intros code statements Hparse top p n a Htop Hn Hmain.
    pose proof (@post_Ok _ (parse code) (Forall treeOk) statements
                         (parse_post code) Hparse) as Hall.
    rewrite Forall_forall in Hall. specialize (Hall top Htop).
    apply allNodes_nodes with (n := DefineSlotStatement p n a) in Hall;
      [|exact Hn].
    apply allNodes_here in Hall. simpl in Hall.
    rewrite Hmain, str_eqb_refl in Hall. discriminate.
Qed.

Lemma C4_defslot_main_is_reserved_witness :
  (consume (lit "@defslot(main)") "(" (mkCursor 8 0) = Ok (mkCursor 9 0)
   /\ skipUntilAndWith (lit "@defslot(main)") [lit ":"; lit ")"] false (mkCursor 9 0)
      = Ok (mkScanned (pos 9 0 13) (lit "main") (lit ")"), mkCursor 14 0)
   /\ makeDefineSlotStatement (lit "@defslot(main)") 0 0 (mkCursor 8 0)
      = Throw (SlotDefinitionNamedMainError (pos 9 0 13)))
  /\ (parse C4_example_code = Ok C4_example_statements
      /\ value (ex 9 0 15 "header") <> lit "main").
Proof.
  split.
  - split; [reflexivity | split; [reflexivity|]].
    exact (proj1 C4_defslot_main_is_reserved (lit "@defslot(main)") 0 0
                 (mkCursor 8 0) (mkCursor 9 0) (mkCursor 14 0)
                 (mkScanned (pos 9 0 13) (lit "main") (lit ")"))
                 eq_refl eq_refl eq_refl).
  - split; [vm_compute; reflexivity|].
    apply (proj2 (proj2 (proj2 C4_defslot_main_is_reserved))
                 C4_example_code C4_example_statements)
      with (top := hd (EndStatement (pos 0 0 0)) C4_example_statements)
           (p := pos 0 0 24) (a := Some (ex 17 0 23 "string")).
    + vm_compute; reflexivity.
    + left; reflexivity.
    + left; reflexivity.
Defined.

(** C4, as the claim states it, fails: [@slot(main)] inside a component
    body raises no error and produces a [ComponentSlot] statement. *)
Lemma C4_slot_main_counterexample :
  parse (lit "@component(Foo, {x:1})@slot(main)H@end@end")
  = Ok [ComponentStatement (pos 0 0 42) (ex 11 0 14 "Foo") (ex 16 0 21 "{x:1}")
          (ComponentMainSlotStatement (pos 0 0 42) [])
          [ComponentSlotStatement (pos 22 0 38) (ex 28 0 32 "main") None
             [TextStatement (pos 33 0 34) (lit "H")]]].
Proof. vm_compute; reflexivity. Qed.

(** C5.  After the opener [!{{] the pair [--] does not start a comment:
    the comment test reads the characters two and three places after the
    [!].  [!{{-- x --}}] parses to a raw inline statement whose expression
    is [-- x --].  After [{{] the comment is skipped. *)
Theorem C5_bang_comment_is_a_statement :
  parse (lit "!{{-- x --}}")
  = Ok [InlineTsCodeStatement (pos 0 0 12) (ex 3 0 10 "-- x --")]
  /\ parse (lit "a{{-- x --}}b")
     = Ok [TextStatement (pos 0 0 1) (lit "a");
           TextStatement (pos 1 0 13) (lit "b")].
Proof. split; vm_compute; reflexivity. Qed.

(** C6.  In a successful parse, every [If] statement, at any depth, heads a
    well-formed chain: its [next] is absent, an [ElseIf] or an [Else]; the
    statements met by following [next] are zero or more [ElseIf] and then at
    most one [Else]; each of them has again such a [next], and none when it
    is an [Else]; no statement is met twice, and following [next] one step
    further than the chain is long ends the traversal. *)
Theorem C6_conditional_chain (code : str) (statements : list Statement) :
  parse code = Ok statements ->
  forall top s,
    In top statements -> In s (nodes top) ->
    name s = StatementName.IfStatement ->
    chainLink (nextOf s) = true
    /\ elseIfsThenElse (chainOf s) = true
    /\ Forall (fun n => chainLink (nextOf n) = true
                        /\ (name n = StatementName.ElseStatement
                            -> nextOf n = None))
              (chainOf s)
    /\ NoDup (s :: chainOf s)
    /\ nthNext (S (length (chainOf s))) s = None.
Proof.
  intros Hparse top s Htop Hs Hif.
  pose proof (@post_Ok _ (parse code) (Forall treeOk) statements
                         (parse_post code) Hparse) as Hall.
  rewrite Forall_forall in Hall. specialize (Hall top Htop).
  apply allNodes_nodes with (n := s) in Hall; [|exact Hs].
  repeat split.
  - apply allNodes_here in Hall. destruct s; try discriminate. exact Hall.
  - apply chain_shape; exact Hall.
  - apply chain_links; exact Hall.
  - apply chain_NoDup.
  - apply nthNext_ends.
Qed.

Lemma C6_conditional_chain_witness :
  parse C6_example_code = Ok [C6_example_if]
  /\ length (chainOf C6_example_if) = 2
  /\ elseIfsThenElse (chainOf C6_example_if) = true
  /\ nthNext 3 C6_example_if = None.
Proof.
  split; [vm_compute; reflexivity | split; [reflexivity|]].
  assert (H : parse C6_example_code = Ok [C6_example_if])
    by (vm_compute; reflexivity).
  pose proof (@C6_conditional_chain C6_example_code [C6_example_if] H
                C6_example_if C6_example_if
                (or_introl eq_refl) (or_introl eq_refl) eq_refl)
    as (_ & H2 & _ & _ & H4).
  split; [exact H2 | exact H4].
Defined.

(** C7.  The plain description of an [Each] statement reports the loop
    variable in its [iterator] field: [@each(x in xs)@end] is described
    with [variable = x] and [iterator = x], not [xs].  [End] statements
    are omitted: their description is [null] and no children list of a
    description holds one. *)
Theorem C7_each_iterator_is_variable :
  (forall p iterator variable ch,
      exists o, toObject (EachStatement p iterator variable ch)
                = Some (EachStatementObject (value variable) (value variable) o))
  /\ option_map (map toObject) (match parse (lit "@each(x in xs)@end") with
                                | Ok l => Some l
                                | _ => None
                                end)
     = Some [Some (EachStatementObject (lit "x") (lit "x") [])]
  /\ (forall p, toObject (EndStatement p) = None).
Proof.
  split; [|split].
  - intros. eexists. reflexivity.
  - vm_compute; reflexivity.
  - reflexivity.
Qed.

(** C8.  The escaped inline statement emits no line marker: [{{ x }}]
    compiles to [out += $api.safeString(String(x))], while the raw
    [!{{ x }}] compiles to [$line = 1], a newline, a tab and
    [out += String(x)]. *)
Theorem C8_escaped_inline_has_no_marker :
  (forall p e,
      toCompiledString (InlineSafeTsCodeStatement p e)
      = lit "out += $api.safeString(String(" ++ value e ++ lit "))")
  /\ (forall p e,
         toCompiledString (InlineTsCodeStatement p e)
         = lit "$line = " ++ numberToString (lineStart p + 1) ++ [nl; tab]
               ++ lit "out += String(" ++ value e ++ lit ")")
  /\ match parse (lit "{{ x }}") with
     | Ok l => map toCompiledString l
     | _ => []
     end = [lit "out += $api.safeString(String(x))"]
  /\ match parse (lit "!{{ x }}") with
     | Ok l => map toCompiledString l
     | _ => []
     end = [lit "$line = 1" ++ [nl; tab] ++ lit "out += String(x)"].
Proof.
  repeat split; vm_compute; reflexivity.
Qed.

(** C9.  An [Assign] statement carries the name [LetStatement] while its
    plain description has the type [AssignStatement]; [@assign] builds such
    a statement, and no statement at all carries the name
    [AssignStatement]. *)
Theorem C9_assign_is_named_let :
  (forall p n v,
      name (AssignStatement p n v) = StatementName.LetStatement
      /\ option_map objType (toObject (AssignStatement p n v))
         = Some StatementName.AssignStatement)
  /\ parse (lit "@assign(x = 1)")
     = Ok [AssignStatement (pos 0 0 14) (ex 8 0 9 "x") (ex 12 0 13 "1")]
  /\ (forall s : Statement, name s <> StatementName.AssignStatement).
Proof.
  split; [|split].
  - intros; split; reflexivity.
  - vm_compute; reflexivity.
  - intros s; destruct s; discriminate.
Qed.

(** C10.  [parse] terminates on every input.  [#advance] moves the cursor
    by exactly the requested count; [#parseOnce], called before the end of
    input, either throws or returns with the cursor strictly further, and
    never exhausts a loop bound of the model; hence [parse], whose loop runs
    at most once per character, returns a statement list or throws. *)
Theorem C10_parse_terminates (code : str) :
  (forall times st, index (advance code times st) = times + index st)
  /\ (forall ai ad ap asl st,
         isAtEnd code st = false ->
         match parseOnce code ai ad ap asl st with
         | Ok (_, st') => index st < index st'
         | Throw _ => True
         | OutOfFuel => False
         end)
  /\ ((exists statements, parse code = Ok statements)
      \/ (exists e, parse code = Throw e)).
Proof.
  split; [|split].
  - apply index_advance.
  - intros ai ad ap asl st Hend.
    assert (Hlt : index st < length code).
    { unfold isAtEnd in Hend. destruct (currentChar code st) eqn:E;
        [eapply currentChar_Some; eassumption | discriminate]. }
    pose proof (parseOnce_post code ai ad ap asl st Hlt) as H.
    destruct (parseOnce code ai ad ap asl st) as [[s st']| |]; simpl in H;
      [apply H | exact I | exact H].
  - pose proof (parse_post code) as H.
    destruct (parse code) as [l| |]; simpl in H; [left | right | contradiction];
      eexists; reflexivity.
Qed.

Lemma C10_parse_terminates_witness :
  isAtEnd (lit "a@if(x)b@end") (mkCursor 1 0) = false
  /\ match parseOnce (lit "a@if(x)b@end") true true true false (mkCursor 1 0) with
     | Ok (_, st') => 1 < index st'
     | Throw _ => True
     | OutOfFuel => False
     end.
Proof.
  split; [reflexivity|].
  exact (proj1 (proj2 (C10_parse_terminates (lit "a@if(x)b@end")))
               true true true false (mkCursor 1 0) eq_refl).
Defined.

(* ================================================================= *)
(** * Further properties of the code *)

(* ================================================================= *)
(** ** [safeString] *)

Lemma replaceAll_app c by_ a b :
  replaceAll c by_ (a ++ b) = replaceAll c by_ a ++ replaceAll c by_ b.
Proof. unfold replaceAll. apply flat_map_app. Qed.

Lemma safeString_app a b : safeString (a ++ b) = safeString a ++ safeString b.
Proof. unfold safeString. rewrite !replaceAll_app. reflexivity. Qed.

Lemma safeString_one c : safeString [c] = escapeChar c.
Proof.
  unfold escapeChar.
  destruct (Ascii.eqb c backslash) eqn:E1.
  { apply Ascii.eqb_eq in E1; subst c; reflexivity. }
  destruct (Ascii.eqb c dquote) eqn:E2.
  { apply Ascii.eqb_eq in E2; subst c; reflexivity. }
  destruct (Ascii.eqb c nl) eqn:E3.
  { apply Ascii.eqb_eq in E3; subst c; reflexivity. }
  unfold safeString, replaceAll; simpl.
  rewrite E1; simpl. rewrite E2; simpl. rewrite E3. reflexivity.
Qed.

Lemma safeString_escapeChar v : safeString v = flat_map escapeChar v.
Proof.
  induction v as [|c v IH]; [reflexivity|].
  change (c :: v) with ([c] ++ v).
  rewrite safeString_app, safeString_one, IH. reflexivity.
Qed.

Lemma escapeChar_cases c :
  (escapeChar c = [c] /\ Ascii.eqb c backslash = false
   /\ Ascii.eqb c dquote = false /\ Ascii.eqb c nl = false)
  \/ (exists y, escapeChar c = [backslash; y]
                /\ (if Ascii.eqb y "n" then nl else y) = c).
Proof.
  unfold escapeChar.
  destruct (Ascii.eqb c backslash) eqn:E1.
  { right. apply Ascii.eqb_eq in E1; subst c. eexists; split; reflexivity. }
  destruct (Ascii.eqb c dquote) eqn:E2.
  { right. apply Ascii.eqb_eq in E2; subst c. eexists; split; reflexivity. }
  destruct (Ascii.eqb c nl) eqn:E3.
  { right. apply Ascii.eqb_eq in E3; subst c. eexists; split; reflexivity. }
  left. auto.
Qed.

Lemma unescape_escape v : unescape (flat_map escapeChar v) = v.
Proof.
  induction v as [|c v IH]; [reflexivity|]. cbn [flat_map].
  destruct (escapeChar_cases c) as [(-> & E1 & _)|(y & -> & Hy)].
  - cbn [app unescape]. rewrite E1, IH. reflexivity.
  - cbn [app unescape]. rewrite Hy, IH. reflexivity.
Qed.


Lemma escapeChar_length c : 1 <= length (escapeChar c) <= 2.
Proof.
  destruct (escapeChar_cases c) as [(-> & _)|(y & -> & _)]; simpl; lia.
Qed.


(** X1.  [safeString] loses nothing: undoing the three substitutions gives
    the string back, so two strings with the same escaped form are equal. *)
Theorem X1_safeString_is_invertible :
  (forall v : str, unescape (safeString v) = v)
  /\ (forall a b : str, safeString a = safeString b -> a = b).
Proof.
  assert (H : forall v, unescape (safeString v) = v).
  { intros v. rewrite safeString_escapeChar. apply unescape_escape. }
  split; [exact H|].
  intros a b Hab. rewrite <- (H a), <- (H b), Hab. reflexivity.
Qed.

Lemma X1_safeString_is_invertible_witness :
  safeString [nl] = safeString [nl] /\ [nl] = [nl].
Proof.
  split; [reflexivity|].
  exact (proj2 X1_safeString_is_invertible [nl] [nl] eq_refl).
Defined.


(** X3.  [safeString] works character by character: the escaped form of a
    concatenation is the concatenation of the escaped forms, and it is at
    least as long as the string and at most twice as long. *)
Theorem X3_safeString_composes :
  (forall a b : str, safeString (a ++ b) = safeString a ++ safeString b)
  /\ (forall v : str,
         length v <= length (safeString v) <= 2 * length v).
Proof.
  split; [apply safeString_app|].
  intros v. rewrite safeString_escapeChar.
  induction v as [|c v IH]; simpl; [lia|].
  rewrite length_app. pose proof (escapeChar_length c). lia.
Qed.

(* ================================================================= *)
(** ** The text of composed fragments *)

Lemma tsParentOffset_set t v : tsParentOffset (setParentOffset t v) = v.
Proof. destruct t; reflexivity. Qed.

Lemma builderLoop_text :
  forall children literals full pre pend k g maps,
    full = pre ++ pend ++ concat literals ->
    k = length pre + length pend ->
    snd (mappedLoop toMappedString full (builderLoop literals children k)
                    g maps (length pre))
    = g ++ pend ++ interleave literals children.
Proof.
  assert (Hstop : forall literals full pre pend g maps,
             full = pre ++ pend ++ concat literals ->
             snd (mappedLoop toMappedString full [] g maps (length pre))
             = g ++ pend ++ concat literals).
  { intros literals full pre pend g maps ->. cbn [mappedLoop snd].
    unfold sliceFrom. rewrite skipn_app, Nat.sub_diag, skipn_all. reflexivity. }
  induction children as [|c cs IH]; intros literals full pre pend k g maps Hfull Hk.
  - destruct literals; apply Hstop; assumption.
  - destruct literals as [|l ls]; [apply Hstop; assumption|].
    cbn [builderLoop interleave]. destruct c as [t|].
    + cbn [mappedLoop]. rewrite tsParentOffset_set, toMappedString_setParentOffset.
      cbn [textOf].
      destruct (toMappedString t) as [cm ctext] eqn:Et.
      assert (Hf : flatten t = ctext) by (unfold flatten; rewrite Et; reflexivity).
      rewrite Hf.
      assert (Hslice : slice full (length pre) (k + length l) = pend ++ l).
      { subst full k. cbn [concat].
        replace (pre ++ pend ++ l ++ concat ls)
          with (pre ++ (pend ++ l) ++ concat ls)
          by (rewrite <- !app_assoc; reflexivity).
        replace (length pre + length pend + length l)
          with (length pre + length (pend ++ l))
          by (rewrite length_app; lia).
        apply slice_whole. }
      rewrite Hslice.
      replace (k + length l) with (length (pre ++ pend ++ l))
        by (rewrite !length_app; lia).
      rewrite (IH ls full (pre ++ pend ++ l) [] (length (pre ++ pend ++ l))).
      * rewrite <- !app_assoc. reflexivity.
      * subst full. cbn [concat]. rewrite <- !app_assoc. reflexivity.
      * simpl. lia.
    + rewrite (IH ls full pre (pend ++ l) (k + length l)).
      * cbn [textOf]. rewrite <- !app_assoc. reflexivity.
      * subst full. cbn [concat]. rewrite <- !app_assoc. reflexivity.
      * rewrite length_app. lia.
Qed.

Lemma join_cons d x xs :
  join d (x :: xs) = x ++ concat (map (fun y => d ++ y) xs).
Proof.
  revert x; induction xs as [|y xs IH]; intros x.
  - simpl. rewrite app_nil_r. reflexivity.
  - change (join d (x :: y :: xs)) with (x ++ d ++ join d (y :: xs)).
    rewrite IH. simpl. rewrite <- app_assoc. reflexivity.
Qed.

Lemma copies_length n d : length (copies n d) = n * length d.
Proof. induction n as [|n IH]; simpl; [reflexivity|]. rewrite length_app, IH. lia. Qed.

Lemma copies_snoc n d : copies (S n) d = copies n d ++ d.
Proof.
  induction n as [|n IH]; simpl; [rewrite app_nil_r; reflexivity|].
  simpl in IH. rewrite IH at 1. rewrite app_assoc. reflexivity.
Qed.

Lemma copies_slice m d i :
  i < m -> slice (copies m d) (i * length d) (S i * length d) = d.
Proof.
  revert m; induction i as [|i IH]; intros [|m] H; try lia.
  - simpl copies. pose proof (slice_whole [] d (copies m d)) as Hs.
    simpl in Hs. simpl. rewrite Nat.add_0_r. exact Hs.
  - simpl copies.
    replace (S i * length d) with (length d + i * length d) by lia.
    replace (S (S i) * length d) with (length d + i * length d + length d) by lia.
    rewrite slice_app_r.
    replace (i * length d + length d) with (S i * length d) by lia.
    apply IH. lia.
Qed.

Lemma sliceDropEnd_copies n d :
  sliceDropEnd (copies n d) (length d) = copies (n - 1) d.
Proof.
  unfold sliceDropEnd. destruct (length d =? 0) eqn:E.
  - apply Nat.eqb_eq in E. destruct d; [|discriminate].
    clear. induction (n - 1); simpl; auto.
  - destruct n as [|n]; [reflexivity|].
    rewrite copies_snoc, length_app. simpl. rewrite Nat.sub_0_r.
    replace (length (copies n d) + length d - length d)
      with (length (copies n d)) by lia.
    rewrite firstn_app, Nat.sub_diag, firstn_all. simpl. apply app_nil_r.
Qed.

Lemma flatten_setParentOffset t v : flatten (setParentOffset t v) = flatten t.
Proof. unfold flatten. rewrite toMappedString_setParentOffset. reflexivity. Qed.

Lemma offsetsFrom_snoc step cs :
  forall k c,
    offsetsFrom k step cs ->
    tsParentOffset c = (k + length cs) * step ->
    offsetsFrom k step (cs ++ [c]).
Proof.
  induction cs as [|x cs IH]; intros k c H Hc; simpl in *.
  - rewrite Nat.add_0_r in Hc. auto.
  - destruct H as [Hx H]. split; [exact Hx|]. apply IH; [exact H|].
    rewrite Hc. f_equal. lia.
Qed.

Lemma tsCodeArrayLoop_shape tsCodes d :
  forall children literal,
    literal = copies (length children) d ->
    offsetsFrom 0 (length d) children ->
    snd (tsCodeArrayLoop tsCodes d children literal)
    = copies (length (fst (tsCodeArrayLoop tsCodes d children literal))) d
    /\ offsetsFrom 0 (length d) (fst (tsCodeArrayLoop tsCodes d children literal))
    /\ map flatten (fst (tsCodeArrayLoop tsCodes d children literal))
       = map flatten children ++ map flatten (dropNull tsCodes).
Proof.
  induction tsCodes as [|[t|] rest IH]; intros children literal Hlit Hoff;
    cbn [tsCodeArrayLoop dropNull map].
  - cbn [fst snd]. rewrite app_nil_r. auto.
  - destruct (IH (children ++ [setParentOffset t (length literal)])
                 (literal ++ d)) as (H1 & H2 & H3).
    + rewrite length_app. simpl. rewrite Nat.add_comm.
      rewrite copies_snoc, Hlit. reflexivity.
    + apply offsetsFrom_snoc; [exact Hoff|].
      rewrite tsParentOffset_set, Hlit, copies_length. reflexivity.
    + split; [exact H1 | split; [exact H2|]].
      rewrite H3, map_app. cbn [map]. rewrite flatten_setParentOffset.
      rewrite <- app_assoc. reflexivity.
  - apply IH; auto.
Qed.

Lemma arrayLoop_text d n :
  forall rest j g maps,
    1 <= j -> j + length rest = n ->
    offsetsFrom j (length d) rest ->
    snd (mappedLoop toMappedString (copies (n - 1) d) rest g maps
                    ((j - 1) * length d))
    = g ++ concat (map (fun t => d ++ flatten t) rest).
Proof.
  induction rest as [|c rest IH]; intros j g maps Hj Hn Hoff.
  - cbn [mappedLoop snd map concat]. unfold sliceFrom.
    rewrite skipn_all2; [reflexivity|].
    rewrite copies_length. simpl in Hn.
    replace (n - 1) with (j - 1) by lia. lia.
  - simpl in Hn, Hoff. destruct Hoff as [Hc Hoff].
    cbn [mappedLoop]. rewrite Hc.
    replace (j * length d) with (S (j - 1) * length d) by (f_equal; lia).
    rewrite copies_slice by lia.
    destruct (toMappedString c) as [cm ctext] eqn:Ec. cbn [snd].
    assert (Hf : flatten c = ctext) by (unfold flatten; rewrite Ec; reflexivity).
    replace (S (j - 1) * length d) with ((S j - 1) * length d) by (f_equal; lia).
    rewrite IH; [|lia|lia|exact Hoff].
    cbn [map concat]. rewrite Hf, <- !app_assoc. reflexivity.
Qed.

(** X4.  A delimiter-joined sequence of fragments flattens to the texts of
    the candidates that yield a fragment, joined by the delimiter: no
    delimiter is written for a candidate that yields none, and none after
    the last text. *)
Theorem X4_TsCodeArray_flattens_to_join (tsCodes : list (option TsCode)) (d : str) :
  flatten (TsCodeArray_toTsCode tsCodes d) = join d (map flatten (dropNull tsCodes)).
Proof.
  unfold TsCodeArray_toTsCode.
  pose proof (@tsCodeArrayLoop_shape tsCodes d [] [] eq_refl I)
    as (Hlit & Hoff & Htexts).
  destruct (tsCodeArrayLoop tsCodes d [] []) as [children literal].
  cbn [fst snd] in *. cbn [map app] in Htexts. rewrite <- Htexts.
  unfold flatten at 1, newTsCode. cbn [b_children b_literal b_parentOffset].
  rewrite toMappedString_loop, Hlit, sliceDropEnd_copies.
  destruct children as [|c rest]; [reflexivity|].
  simpl in Hoff. destruct Hoff as [Hc Hoff].
  cbn [mappedLoop]. rewrite Hc. simpl Nat.mul.
  change (slice (copies (length (c :: rest) - 1) d) 0 0) with (@nil ascii).
  cbn [app map]. rewrite join_cons.
  destruct (toMappedString c) as [cm ctext] eqn:Ec.
  assert (Hf : flatten c = ctext) by (unfold flatten; rewrite Ec; reflexivity).
  rewrite Hf, map_map. cbn [length].
  pose proof (@arrayLoop_text d (S (length rest)) rest 1 ctext) as H.
  replace (S (length rest) - 1) with (length rest) in * by lia.
  simpl Nat.sub in H. simpl Nat.mul in H.
  apply H; auto.
Qed.

(** X5.  A fragment built by the tagged template flattens to the template
    with the text of each interpolated value in its place, a value that
    yields no fragment leaving nothing. *)
Theorem X5_builder_flattens_to_template
        (so : nat) (sm : bool) (literals : list str) (children : list (option TsCode)) :
  flatten (newTsCode so sm (builder literals children)) = interleave literals children.
Proof.
  unfold flatten, newTsCode, builder.
  cbn [b_children b_literal b_parentOffset]. rewrite toMappedString_loop.
  exact (@builderLoop_text children literals (concat literals) [] [] 0 [] []
                           eq_refl eq_refl).
Qed.

(* ================================================================= *)
(** ** Lines and columns of a position *)

Lemma firstn_S_nth_error {A : Type} (l : list A) (i : nat) :
  firstn (S i) l
  = firstn i l ++ match nth_error l i with Some c => [c] | None => [] end.
Proof.
  revert i; induction l as [|x l IH]; intros [|i]; try reflexivity.
  change (firstn (S (S i)) (x :: l)) with (x :: firstn (S i) l).
  rewrite IH. reflexivity.
Qed.

Lemma countNl_app a b : countNl (a ++ b) = countNl a + countNl b.
Proof. unfold countNl. rewrite filter_app, length_app. reflexivity. Qed.

Lemma countNl_firstn_S code i :
  countNl (firstn (S i) code)
  = countNl (firstn i code) + (if isChar (nth_error code i) nl then 1 else 0).
Proof.
  rewrite firstn_S_nth_error, countNl_app. f_equal.
  destruct (nth_error code i) as [c|]; simpl; [|reflexivity].
  unfold countNl; simpl. destruct (Ascii.eqb c nl); reflexivity.
Qed.

Lemma lineBegin_le code n : lineBegin code n <= n.
Proof.
  induction n as [|n IH]; simpl; [lia|].
  destruct (isChar (nth_error code n) nl); lia.
Qed.

Lemma getPositionLoop_closed code p :
  forall todo i line column startPos,
    line = countNl (firstn i code) ->
    column = i - lineBegin code i ->
    getPositionLoop code p todo i line column startPos
    = (if (i <=? start p) && (start p <? i + todo)
       then Some (mkPositionInFile (start p)
                    (countNl (firstn (S (start p)) code))
                    (S (start p) - lineBegin code (S (start p))))
       else startPos,
       (countNl (firstn (i + todo) code),
        i + todo - lineBegin code (i + todo))).
Proof.
  induction todo as [|todo IH]; intros i line column startPos Hl Hc.
  - cbn [getPositionLoop]. rewrite Nat.add_0_r.
    replace ((i <=? start p) && (start p <? i)) with false
      by (symmetry; apply andb_false_iff;
          destruct (Nat.leb_spec i (start p)); [right; apply Nat.ltb_ge; lia | auto]).
    subst; reflexivity.
  - cbn [getPositionLoop]. rewrite IH.
    + replace (i + 1 + todo) with (i + S todo) by lia. f_equal.
      destruct (Nat.eqb_spec i (start p)) as [->|Hne].
      * replace ((start p + 1 <=? start p) && (start p <? start p + S todo))
          with false
          by (symmetry; apply andb_false_iff; left; apply Nat.leb_gt; lia).
        rewrite Nat.leb_refl.
        replace (start p <? start p + S todo) with true
          by (symmetry; apply Nat.ltb_lt; lia).
        cbn [andb]. f_equal. f_equal.
        -- rewrite countNl_firstn_S, Hl.
           destruct (isChar (nth_error code (start p)) nl); lia.
        -- cbn [lineBegin].
           destruct (isChar (nth_error code (start p)) nl); [lia|].
           pose proof (lineBegin_le code (start p)). lia.
      * replace (i + 1 <=? start p) with (i <=? start p); [reflexivity|].
        destruct (Nat.leb_spec i (start p)), (Nat.leb_spec (i + 1) (start p));
          try reflexivity; lia.
    + replace (i + 1) with (S i) by lia. rewrite countNl_firstn_S, Hl.
      destruct (isChar (nth_error code i) nl); lia.
    + replace (i + 1) with (S i) by lia. cbn [lineBegin].
      destruct (isChar (nth_error code i) nl); [lia|].
      pose proof (lineBegin_le code i). lia.
Qed.

(** X6.  [getPositionInFile] in closed form.  The end of the range is
    reported on the line that counts the newlines before it, at the column
    that counts the characters since the last of them.  The start is
    reported only for a range with [start < end]; its line and column are
    taken behind the character at [start], so a newline at [start] itself
    already counts and gives column 0. *)
Theorem X6_getPositionInFile_closed_form (p : PositionRange) (code : str) :
  getPositionInFile p code
  = mkPositionRangeInFile
      (if start p <? end_ p
       then Some (mkPositionInFile (start p)
                    (countNl (firstn (S (start p)) code))
                    (S (start p) - lineBegin code (S (start p))))
       else None)
      (mkPositionInFile (end_ p)
         (countNl (firstn (end_ p) code))
         (end_ p - lineBegin code (end_ p))).
Proof.
  unfold getPositionInFile.
  rewrite (@getPositionLoop_closed code p (end_ p) 0 0 0 None eq_refl eq_refl).
  reflexivity.
Qed.

(* ================================================================= *)
(** ** Trimming and scanning *)

Lemma slice_length code s e :
  s <= e -> e <= length code -> length (slice code s e) = e - s.
Proof.
  intros H1 H2. unfold slice. rewrite length_firstn, length_skipn. lia.
Qed.

Lemma slice_slice code s e a b :
  s + b <= e -> slice (slice code s e) a b = slice code (s + a) (s + b).
Proof.
  intros H. unfold slice.
  rewrite skipn_firstn_comm, firstn_firstn, skipn_skipn.
  replace (a + s) with (s + a) by lia.
  replace (Nat.min (b - a) (e - s - a)) with (s + b - (s + a)) by lia.
  reflexivity.
Qed.

Lemma trimStart_length v : length (trimStart v) <= length v.
Proof.
  induction v as [|c v IH]; simpl; [lia|].
  destruct (isWhitespace c); simpl; lia.
Qed.

Lemma trimStart_skipn v :
  trimStart v = skipn (length v - length (trimStart v)) v.
Proof.
  induction v as [|c v IH]; [reflexivity|]. simpl trimStart.
  destruct (isWhitespace c).
  - pose proof (trimStart_length v).
    change (length (c :: v)) with (S (length v)).
    replace (S (length v) - length (trimStart v))
      with (S (length v - length (trimStart v))) by lia.
    cbn [skipn]. exact IH.
  - rewrite Nat.sub_diag. reflexivity.
Qed.

Lemma trimStart_idem v : trimStart (trimStart v) = trimStart v.
Proof.
  induction v as [|c v IH]; [reflexivity|]. simpl.
  destruct (isWhitespace c) eqn:E; [exact IH|]. simpl. rewrite E. reflexivity.
Qed.

Lemma trimStart_firstn v n : trimStart v = v -> trimStart (firstn n v) = firstn n v.
Proof.
  destruct v as [|c v]; [destruct n; reflexivity|].
  destruct n as [|n]; [reflexivity|]. simpl.
  destruct (isWhitespace c) eqn:E; [|reflexivity].
  intros H. pose proof (trimStart_length v) as Hl. rewrite H in Hl. simpl in Hl. lia.
Qed.

Lemma trimEnd_length v : length (trimEnd v) <= length v.
Proof.
  unfold trimEnd. rewrite length_rev.
  pose proof (trimStart_length (rev v)) as H. rewrite length_rev in H. exact H.
Qed.

Lemma trimEnd_firstn v : trimEnd v = firstn (length (trimEnd v)) v.
Proof.
  unfold trimEnd at 1. rewrite trimStart_skipn, skipn_rev, rev_involutive.
  f_equal. unfold trimEnd. rewrite !length_rev.
  pose proof (trimStart_length (rev v)) as H. rewrite length_rev in H. lia.
Qed.

Lemma trimEnd_idem v : trimEnd (trimEnd v) = trimEnd v.
Proof. unfold trimEnd. rewrite rev_involutive, trimStart_idem. reflexivity. Qed.

Lemma trim_trimmed v : trimmed (trimEnd (trimStart v)).
Proof.
  split; [|apply trimEnd_idem].
  rewrite trimEnd_firstn. apply trimStart_firstn, trimStart_idem.
Qed.

(** The trimmed value is the source text at the trimmed position. *)
Lemma trimWithPosition_slice code s l e :
  s <= e -> e <= length code ->
  let r := trimWithPosition (slice code s e) (mkPositionRange s l e) in
  s <= start (vp_position r)
  /\ start (vp_position r) <= end_ (vp_position r)
  /\ end_ (vp_position r) <= e
  /\ vp_value r = slice code (start (vp_position r)) (end_ (vp_position r))
  /\ trimmed (vp_value r)
  /\ lineStart (vp_position r) = l.
Proof.
  intros Hse He. unfold trimWithPosition. cbn [start end_ lineStart vp_value vp_position].
  set (v := slice code s e).
  pose proof (slice_length code Hse He) as Hlen. fold v in Hlen.
  pose proof (trimStart_length v) as H1.
  pose proof (trimEnd_length (trimStart v)) as H2.
  repeat split; try lia; try apply trim_trimmed.
  remember (length v - length (trimStart v)) as a eqn:Ha.
  remember (length (trimEnd (trimStart v))) as k eqn:Hk.
  transitivity (slice v a (a + k)).
  - rewrite trimEnd_firstn, <- Hk. rewrite trimStart_skipn, <- Ha.
    unfold slice. f_equal. lia.
  - unfold v at 1. rewrite slice_slice by lia. f_equal. lia.
Qed.

Lemma lineAt_S code i :
  lineAt code (S i)
  = lineAt code i + (if isChar (nth_error code (S i)) nl then 1 else 0).
Proof.
  unfold lineAt. rewrite countNl_firstn_S. f_equal.
  destruct code; [destruct i|]; reflexivity.
Qed.

Lemma lineOk_advance1 code st : lineOk code st -> lineOk code (advance1 code st).
Proof.
  unfold lineOk, advance1. cbn [index line]. intros ->.
  rewrite lineAt_S. unfold getCharAt.
  destruct (isChar (nth_error code (S (index st))) nl); lia.
Qed.

Lemma lineOk_advance code n :
  forall st, lineOk code st -> lineOk code (advance code n st).
Proof.
  induction n as [|n IH]; intros st H; [exact H|].
  apply IH, lineOk_advance1, H.
Qed.

Lemma skipn_nth_error {A : Type} (l : list A) :
  forall i x, nth_error l i = Some x -> skipn i l = x :: skipn (S i) l.
Proof.
  induction l as [|y l IH]; intros [|i] x H; try discriminate.
  - injection H as ->. reflexivity.
  - simpl in H. apply IH in H. exact H.
Qed.

Lemma areNextCharsFrom_slice code controll :
  forall i, areNextCharsFrom code i controll = true ->
            slice code i (i + length controll) = controll.
Proof.
  induction controll as [|c rest IH]; intros i H.
  - unfold slice. rewrite Nat.add_0_r, Nat.sub_diag. reflexivity.
  - simpl in H. apply andb_true_iff in H as [Hc Hrest].
    apply isChar_Some in Hc. specialize (IH (S i) Hrest).
    unfold slice in *. cbn [length].
    replace (i + S (length rest) - i) with (S (length rest)) by lia.
    replace (S i + length rest - S i) with (length rest) in IH by lia.
    rewrite (skipn_nth_error _ _ Hc). cbn [firstn]. rewrite IH. reflexivity.
Qed.

(* ================================================================= *)
(** ** A second pass over the parser: positions, text and errors *)

Lemma sound_bind {X Y : Type} (c : Res X) (k : X -> Res Y)
      (Qc : X -> Prop) (Q : Y -> Prop) :
  sound c Qc -> (forall x, Qc x -> sound (k x) Q) -> sound (bind c k) Q.
Proof. destruct c; simpl; auto. Qed.

Lemma sound_weaken {X : Type} (r : Res X) (Q Q' : X -> Prop) :
  sound r Q -> (forall x, Q x -> Q' x) -> sound r Q'.
Proof. destruct r; simpl; auto. Qed.

Section ScanFacts.
Variable code : str.

Lemma consume_sound c st :
  lineOk code st ->
  sound (consume code c st)
        (fun st' => index st' = S (index st) /\ index st' <= length code
                    /\ lineOk code st').
Proof.
  intros Hl. unfold consume.
  destruct (isChar (currentChar code st) c) eqn:E; simpl.
  - apply isChar_Some, currentChar_Some in E.
    repeat split; [lia | apply lineOk_advance1; exact Hl].
  - unfold errOk; simpl. lia.
Qed.

Lemma areNextChars_fits st controll :
  areNextChars code st controll = true -> index st <= length code ->
  index st + length controll <= length code.
Proof.
  intros H Hi. apply areNextCharsFrom_slice in H.
  pose proof (f_equal (@length ascii) H) as Hlen.
  unfold slice in Hlen. rewrite length_firstn, length_skipn in Hlen. lia.
Qed.

Lemma skipUntilLoop_sound untilChars allowEmpty startIndex startLine :
  forall fuel depth st,
    startIndex <= index st ->
    sound (skipUntilLoop code fuel untilChars allowEmpty startIndex startLine depth st)
          (fun p => scanned code untilChars (mkCursor startIndex startLine) p
                    /\ (lineOk code st -> lineOk code (snd p))
                    /\ (allowEmpty = false -> sc_value (fst p) <> [])).
Proof.
  induction fuel as [|fuel IH]; intros depth st Hsi; cbn [skipUntilLoop];
    (destruct (currentChar code st) as [c|] eqn:Ec;
     [|unfold sound, errOk; simpl; lia]); [exact I|].
  pose proof (currentChar_Some _ _ Ec) as Hlt.
  assert (Hrec : forall d,
             sound (skipUntilLoop code fuel untilChars allowEmpty startIndex
                                  startLine d (advance1 code st))
                   (fun p => scanned code untilChars (mkCursor startIndex startLine) p
                             /\ (lineOk code st -> lineOk code (snd p))
                             /\ (allowEmpty = false -> sc_value (fst p) <> []))).
  { intros d. eapply sound_weaken; [apply IH; rewrite index_advance1; lia|].
    cbv beta. intros p (P1 & P2 & P3). split; [exact P1|]. split; [|exact P3].
    intros Hl. apply P2, lineOk_advance1, Hl. }
  destruct (isParenStart c); [apply Hrec|].
  destruct ((0 <? depth) && isParenEnd c); [apply Hrec|].
  destruct (if depth =? 0 then find (areNextChars code st) untilChars else None)
    as [controll|] eqn:Ef; [|apply Hrec].
  destruct (depth =? 0); [|discriminate].
  apply find_some in Ef as [Hin Hmatch].
  pose proof (@trimWithPosition_slice code startIndex startLine (index st)
                                      Hsi ltac:(lia)) as Ht.
  cbv zeta in Ht. destruct Ht as (T1 & T2 & T3 & T4 & T5 & T6).
  match goal with |- sound (if ?b then _ else _) _ => destruct b eqn:Eempty end.
  - unfold sound, errOk; cbn [errorPosition start end_].
    destruct (Nat.eqb_spec startIndex (index st)); lia.
  - pose proof (areNextChars_fits _ _ Hmatch ltac:(lia)) as Hfit.
    unfold sound, scanned.
    cbn [fst snd sc_position sc_value controllChar index line].
    rewrite index_advance.
    split; [|split; [intros Hl; apply lineOk_advance, Hl|]].
    + split; [exact T1|]. split; [exact T2|]. split; [lia|]. split; [lia|].
      split; [exact T4|]. split; [exact T5|]. split; [exact Hin|].
      replace (length controll + index st - length controll) with (index st) by lia.
      split; [|split; [exact T6 | reflexivity]].
      replace (length controll + index st) with (index st + length controll) by lia.
      apply areNextCharsFrom_slice. exact Hmatch.
    + intros ->. cbn [negb andb] in Eempty. intros Hnil.
      rewrite Hnil in Eempty. discriminate.
Qed.

(** [#skipUntilAndWith] returns the trimmed text between the cursor and the
    stop string it met, and leaves the cursor behind that stop string. *)
Lemma skipUntilAndWith_scanned untilChars allowEmpty st :
  sound (skipUntilAndWith code untilChars allowEmpty st)
        (fun p => scanned code untilChars st p
                  /\ (allowEmpty = false -> sc_value (fst p) <> [])).
Proof.
  unfold skipUntilAndWith. eapply sound_weaken.
  - exact (@skipUntilLoop_sound untilChars allowEmpty (index st) (line st)
                                (length code) 0 st (le_n _)).
  - cbv beta. intros p (P1 & _ & P3). split; assumption.
Qed.

Lemma skipUntilAndWith_sound untilChars allowEmpty st :
  lineOk code st ->
  sound (skipUntilAndWith code untilChars allowEmpty st)
        (fun p => scanned code untilChars st p /\ lineOk code (snd p)).
Proof.
  intros Hl. unfold skipUntilAndWith. eapply sound_weaken.
  - exact (@skipUntilLoop_sound untilChars allowEmpty (index st) (line st)
                                (length code) 0 st (le_n _)).
  - cbv beta. intros p (P1 & P2 & _). split; [exact P1 | exact (P2 Hl)].
Qed.

Lemma scanned_exprOk untilChars st p :
  scanned code untilChars st p -> exprOk code (scannedExpr (fst p)).
Proof.
  intros (H1 & H2 & H3 & H4 & H5 & H6 & _).
  unfold exprOk, scannedExpr; cbn [position value].
  split; [exact H2|]. split; [lia|]. split; [exact H5 | exact H6].
Qed.

End ScanFacts.

Lemma stmtFact_children_nodes code ch :
  Forall (stmtFact code) ch -> Forall (nodeFact code) (flat_map nodes ch).
Proof.
  induction 1 as [|c ch [_ Hc] _ IH]; simpl; [constructor|].
  apply Forall_app; split; assumption.
Qed.

Lemma stmtFact_children_exprs code ch :
  Forall (stmtFact code) ch -> Forall (exprOk code) (flat_map exprsOf ch).
Proof.
  induction 1 as [|c ch [Hc _] _ IH]; simpl; [constructor|].
  apply Forall_app; split; assumption.
Qed.

Lemma kindOk_blockChild s : kindOk false false false false s -> blockChild s = true.
Proof.
  intros ((G1 & G2 & G3) & G4 & G5).
  destruct s; try reflexivity; simpl in *;
    try (specialize (G1 eq_refl); discriminate);
    try (specialize (G2 eq_refl); discriminate);
    try (specialize (G3 eq_refl); discriminate);
    try (specialize (G4 eq_refl); discriminate);
    try (exfalso; apply G5; reflexivity).
Qed.

Lemma kindOk_blockChildren ch :
  Forall (kindOk false false false false) ch -> forallb blockChild ch = true.
Proof.
  intros H. apply forallb_forall. rewrite Forall_forall in H.
  intros x Hx. apply kindOk_blockChild, H, Hx.
Qed.

Lemma posOk_position_ code si sl st :
  si < index st -> index st <= length code -> sl = lineAt code si ->
  posOk code (position_ si sl st).
Proof. intros H1 H2 H3. unfold posOk, position_; simpl. auto. Qed.

Lemma spansWithin_snoc s hi :
  forall l lo mid,
    spansWithin lo l mid -> mid <= start (stmtPosition s) ->
    start (stmtPosition s) < end_ (stmtPosition s) ->
    end_ (stmtPosition s) <= hi ->
    spansWithin lo (l ++ [s]) hi.
Proof.
  induction l as [|x l IH]; intros lo mid H Hm Hs Hh; cbn [spansWithin app] in *.
  - repeat split; lia.
  - destruct H as (H1 & H2 & H3). repeat split; try assumption.
    eapply IH; eassumption.
Qed.

Lemma spansWithin_le l :
  forall lo hi hi', spansWithin lo l hi -> hi <= hi' -> spansWithin lo l hi'.
Proof.
  induction l as [|x l IH]; intros lo hi hi' H Hle; cbn [spansWithin] in *.
  - lia.
  - destruct H as (H1 & H2 & H3). repeat split; try assumption.
    eapply IH; eassumption.
Qed.

Lemma spansWithin_ge l lo lo' hi :
  spansWithin lo l hi -> lo' <= lo -> spansWithin lo' l hi.
Proof.
  destruct l as [|x l]; cbn [spansWithin]; [lia|].
  intros (H1 & H2 & H3) Hle. repeat split; try assumption. lia.
Qed.

Lemma spansWithin_bounds l : forall lo hi, spansWithin lo l hi -> lo <= hi.
Proof.
  induction l as [|x l IH]; intros lo hi H; cbn [spansWithin] in H; [exact H|].
  destruct H as (H1 & H2 & H3). apply IH in H3. lia.
Qed.

Lemma spansWithin_filter (f : Statement -> bool) l :
  forall lo hi, spansWithin lo l hi -> spansWithin lo (filter f l) hi.
Proof.
  induction l as [|x l IH]; intros lo hi H; cbn [spansWithin filter] in *;
    [exact H|].
  destruct H as (H1 & H2 & H3). destruct (f x); cbn [spansWithin].
  - repeat split; try assumption. apply IH, H3.
  - apply IH. eapply spansWithin_ge; [exact H3 | lia].
Qed.

Lemma exprsIn_le es : forall lo hi hi',
    exprsIn lo es hi -> hi <= hi' -> exprsIn lo es hi'.
Proof.
  induction es as [|e es IH]; intros lo hi hi' H Hle; cbn [exprsIn] in *;
    [exact I|].
  destruct H as (H1 & H2 & H3 & H4).
  split; [exact H1|]. split; [exact H2|]. split; [lia|]. eapply IH; eassumption.
Qed.

Lemma exprsIn_ge es lo lo' hi :
  exprsIn lo es hi -> lo' <= lo -> exprsIn lo' es hi.
Proof.
  destruct es as [|e es]; cbn [exprsIn]; [auto|].
  intros (H1 & H2 & H3 & H4) Hle. repeat split; try assumption. lia.
Qed.

Lemma exprsIn_snoc e hi' : forall es lo hi,
    exprsIn lo es hi -> lo <= start (position e) -> hi <= start (position e) ->
    start (position e) <= end_ (position e) -> end_ (position e) <= hi' ->
    exprsIn lo (es ++ [e]) hi'.
Proof.
  induction es as [|x es IH]; intros lo hi H Hlo Hhi Hse Hh;
    cbn [exprsIn app] in *.
  - repeat split; assumption.
  - destruct H as (H1 & H2 & H3 & H4).
    split; [exact H1|]. split; [exact H2|]. split; [lia|].
    apply IH with (hi := hi); try assumption. lia.
Qed.

Lemma exprsIn_removelast (args : list ValuePosition) : forall lo hi,
    exprsIn lo (map expr args) hi ->
    exprsIn lo (map expr (removelast args)) hi.
Proof.
  induction args as [|a args IH]; intros lo hi H; [exact I|].
  destruct args as [|b args]; [exact I|].
  cbn [map exprsIn] in H. destruct H as (H1 & H2 & H3 & H4).
  change (removelast (a :: b :: args)) with (a :: removelast (b :: args)).
  cbn [map exprsIn]. repeat split; try assumption. apply IH. exact H4.
Qed.

Lemma scanned_span code untilChars st p :
  scanned code untilChars st p ->
  forallb (fun c => 1 <=? length c) untilChars = true ->
  index st <= start (sc_position (fst p))
  /\ start (sc_position (fst p)) <= end_ (sc_position (fst p))
  /\ end_ (sc_position (fst p)) + 1 <= index (snd p).
Proof.
  intros (H1 & H2 & H3 & H4 & H5 & H6 & H7 & _) Hu.
  rewrite forallb_forall in Hu. specialize (Hu _ H7).
  apply Nat.leb_le in Hu. lia.
Qed.

Lemma stmtFact_noEnd code c :
  stmtFact code c -> instanceofEndStatement c = false ->
  Forall (fun m => instanceofEndStatement m = false) (nodes c).
Proof.
  intros [_ H] Hc.
  assert (E : nodes c = c :: tl (nodes c)) by (destruct c; reflexivity).
  rewrite E in H |- *. apply Forall_inv in H.
  destruct H as (_ & _ & _ & _ & H & _). constructor; assumption.
Qed.

Lemma children_noEnd code ch :
  Forall (stmtFact code) ch ->
  Forall (fun m => instanceofEndStatement m = false) ch ->
  Forall (fun m => instanceofEndStatement m = false) (flat_map nodes ch).
Proof.
  induction 1 as [|c ch Hc _ IH]; intros Hn; simpl; [constructor|].
  apply Forall_app; split.
  - apply stmtFact_noEnd with (code := code); [exact Hc | apply (Forall_inv Hn)].
  - apply IH, (Forall_inv_tail Hn).
Qed.

Lemma includes_noEnd names ch :
  StatementName.includes names StatementName.EndStatement = true ->
  Forall (fun s => StatementName.includes names (name s) = false) ch ->
  Forall (fun m => instanceofEndStatement m = false) ch.
Proof.
  intros Hin H. eapply Forall_impl; [|exact H]. cbv beta.
  intros c Hc. destruct c; try reflexivity. cbn [name] in Hc. congruence.
Qed.

(** A statement without a body. *)
Lemma madeAt_leaf code si sl st s n :
  lineOk code st -> index st <= length code ->
  si < index st -> sl = lineAt code si ->
  stmtPosition s = position_ si sl st ->
  nodes s = [s] -> shapeOk s = true -> bodyOf s = [] -> nextOf s = None ->
  exprsIn (si + 1) (ownExprs s) (index st - 1) ->
  Forall (exprOk code) (exprsOf s) -> name s = n ->
  madeAt code si n (s, st).
Proof.
  intros Hl Hi Hsi Hsl Hp Hn Hs Hb Hx Hin He Hname.
  unfold madeAt, stmtFact; cbn [fst snd].
  rewrite Hn, Hp. cbn [position_ start end_].
  split; [exact Hl|]. split; [exact Hi|]. split; [reflexivity|].
  split; [lia|]. split; [|exact Hname]. split; [exact He|].
  constructor; [|constructor]. unfold nodeFact, linkOk. rewrite Hb, Hx, Hp, Hn.
  split; [apply posOk_position_; assumption|]. split; [exact Hs|].
  cbn [spansWithin position_ start end_ tl]. split; [lia|]. split; [exact I|].
  split; [constructor | exact Hin].
Qed.

(** A statement with a block body. *)
Lemma madeAt_block code si sl st s n own ch :
  lineOk code st -> index st <= length code ->
  si < index st -> sl = lineAt code si ->
  stmtPosition s = position_ si sl st ->
  nodes s = s :: flat_map nodes ch -> shapeOk s = forallb blockChild ch ->
  bodyOf s = ch -> nextOf s = None -> ownExprs s = own ->
  exprsIn (si + 1) own (index st - 1) ->
  exprsOf s = own ++ flat_map exprsOf ch ->
  Forall (exprOk code) own ->
  Forall (stmtFact code) ch -> Forall (kindOk false false false false) ch ->
  spansWithin si ch (index st) ->
  Forall (fun m => instanceofEndStatement m = false) ch ->
  name s = n ->
  madeAt code si n (s, st).
Proof.
  intros Hl Hi Hsi Hsl Hp Hn Hs Hb Hx Ho Hin He Hown Hch Hk Hspan Hne Hname.
  assert (Htl : tl (nodes s) = flat_map nodes ch) by (rewrite Hn; reflexivity).
  unfold madeAt, stmtFact; cbn [fst snd].
  rewrite Hn, Hp, He. cbn [position_ start end_].
  split; [exact Hl|]. split; [exact Hi|]. split; [reflexivity|].
  split; [lia|]. split; [|exact Hname]. split.
  - apply Forall_app; split; [exact Hown | apply stmtFact_children_exprs, Hch].
  - constructor; [|apply stmtFact_children_nodes, Hch].
    unfold nodeFact, linkOk. rewrite Hb, Hx, Hp, Hs, Htl, Ho.
    split; [apply posOk_position_; assumption|].
    split; [apply kindOk_blockChildren, Hk|].
    cbn [position_ start end_]. split; [exact Hspan|]. split; [exact I|].
    split; [apply children_noEnd with (code := code); assumption | exact Hin].
Qed.

Section LeafFacts.
Variable code : str.

Lemma scanned_index untilChars st p :
  scanned code untilChars st p ->
  index st <= index (snd p) /\ index (snd p) <= length code.
Proof. intros (H1 & H2 & H3 & H4 & _). lia. Qed.

Ltac consume2 :=
  eapply sound_bind; [apply consume_sound; assumption|];
  let st := fresh "st" in let H1 := fresh "Hc" in
  let H2 := fresh "Hb" in let H3 := fresh "Hl" in
  intros st (H1 & H2 & H3); cbv beta iota.

Ltac scan2 :=
  eapply sound_bind; [apply skipUntilAndWith_sound; assumption|];
  let v := fresh "v" in let st := fresh "st" in
  let Hs := fresh "Hs" in let Hl := fresh "Hl" in
  let He := fresh "He" in let Hi := fresh "Hi" in
  let Hsp := fresh "Hsp" in
  intros [v st] [Hs Hl];
  pose proof (scanned_exprOk Hs) as He;
  pose proof (scanned_index Hs) as Hi;
  pose proof (scanned_span Hs eq_refl) as Hsp;
  cbn [fst snd] in Hl, He, Hi, Hsp; cbv beta iota.

Ltac forall_exprs :=
  repeat first [apply Forall_nil | apply Forall_cons; [assumption|]].

Ltac exprs_in :=
  cbn [ownExprs exprsIn optExpr scannedExpr expr position map];
  repeat split; lia.

Ltac leaf2 :=
  cbn [sound];
  eapply madeAt_leaf; try eassumption; try reflexivity; try lia;
  first [exprs_in | cbn [exprsOf optExpr]; forall_exprs].

Lemma parseParamsLoop_sound lo :
  forall fuel parsedArguments st,
    lineOk code st ->
    Forall (fun v => exprOk code (expr v)) parsedArguments ->
    lo <= index st ->
    exprsIn lo (map expr parsedArguments) (index st - 1) ->
    sound (parseParamsLoop code fuel parsedArguments st)
          (fun p => lineOk code (snd p) /\ index (snd p) <= length code
                    /\ index st <= index (snd p)
                    /\ Forall (fun v => exprOk code (expr v)) (fst p)
                    /\ exprsIn lo (map expr (fst p)) (index (snd p) - 1)).
Proof.
  induction fuel as [|fuel IH]; intros args st Hl Hargs Hlo Hin; [exact I|].
  cbn [parseParamsLoop]. scan2.
  assert (Hargs' : Forall (fun a => exprOk code (expr a))
                          (args ++ [mkValuePosition (sc_value v) (sc_position v)])).
  { apply Forall_app; split; [exact Hargs|]. constructor; [exact He|constructor]. }
  assert (Hin' : exprsIn lo
                   (map expr (args ++ [mkValuePosition (sc_value v) (sc_position v)]))
                   (index st0 - 1)).
  { rewrite map_app. cbn [map].
    apply exprsIn_snoc with (hi := index st - 1); try assumption;
      cbn [expr position vp_position]; lia. }
  match goal with |- sound (if ?b then _ else _) _ => destruct b end.
  - cbn [sound fst snd]. repeat split; try assumption; lia.
  - eapply sound_weaken; [apply IH; try assumption; lia|].
    cbv beta. intros p (P1 & P2 & P3 & P4 & P5).
    repeat split; try assumption; lia.
Qed.

Lemma parseParams_sound expectedCount st :
  lineOk code st -> index st <= length code ->
  sound (parseParams code expectedCount st)
        (fun p => lineOk code (snd p) /\ index (snd p) <= length code
                  /\ index st <= index (snd p)
                  /\ Forall (fun v => exprOk code (expr v)) (fst p)
                  /\ length (fst p) = expectedCount
                  /\ exprsIn (index st) (map expr (fst p)) (index (snd p) - 1)).
Proof.
  intros Hl Hi. unfold parseParams.
  destruct (negb (isChar (currentChar code st) "(")).
  - destruct (expectedCount =? 0) eqn:E; cbn [negb sound].
    + apply Nat.eqb_eq in E. simpl. repeat split; auto.
    + unfold errOk; simpl. lia.
  - eapply sound_bind.
    + apply parseParamsLoop_sound with (lo := index st);
        [apply lineOk_advance1, Hl | constructor
         | rewrite index_advance1; lia | exact I].
    + intros [args st'] (P1 & P2 & P3 & P4 & P5). cbn [fst snd] in *.
      cbv beta iota.
      rewrite index_advance1 in P3.
      match goal with
      | |- sound (if negb (_ =? length ?l) then _ else _) _ =>
        assert (Hl' : Forall (fun v => exprOk code (expr v)) l
                      /\ exprsIn (index st) (map expr l) (index st' - 1));
          [|destruct Hl' as [Hl' Hin'];
            destruct (expectedCount =? length l) eqn:E; cbn [negb sound]]
      end.
      * destruct (last (map Some args) None) as [l|]; [|split; assumption].
        destruct (length (vp_value l) =? 0); [|split; assumption].
        split; [|apply exprsIn_removelast, P5].
        rewrite Forall_forall in *. intros x Hx. apply P4.
        clear - Hx. induction args as [|a [|b args] IH]; simpl in *; auto.
        destruct Hx as [Hx|Hx]; auto.
      * apply Nat.eqb_eq in E. cbn [fst snd].
        repeat split; try assumption; lia.
      * unfold errOk; simpl. lia.
Qed.

Lemma tagNameLoop_sound fuel :
  forall st, lineOk code st -> index st <= length code ->
             lineOk code (tagNameLoop code fuel st)
             /\ index (tagNameLoop code fuel st) <= length code.
Proof.
  induction fuel as [|fuel IH]; intros st Hl Hi; cbn [tagNameLoop]; [auto|].
  destruct (currentChar code st) as [c|] eqn:Ec; [|auto].
  destruct (isValidTagChar c); [|auto].
  apply IH; [apply lineOk_advance1, Hl|].
  apply currentChar_Some in Ec. rewrite index_advance1. lia.
Qed.

Lemma readTagName_sound st :
  lineOk code st -> index st < length code ->
  lineOk code (snd (readTagName code st))
  /\ index (snd (readTagName code st)) <= length code.
Proof.
  intros Hl Hi. unfold readTagName; cbn [snd].
  apply tagNameLoop_sound; [apply lineOk_advance1, Hl|].
  rewrite index_advance1. lia.
Qed.

Section Tag.
Variables (startIndex startLine : nat) (st : Cursor).
Hypothesis Hsi : startIndex < index st.
Hypothesis Hsl : startLine = lineAt code startIndex.
Hypothesis Hl : lineOk code st.

Lemma makeLetStatement_sound :
  sound (makeLetStatement code startIndex startLine st)
        (madeAt code startIndex StatementName.LetStatement).
Proof.
  unfold makeLetStatement. consume2. scan2.
  match goal with |- sound (if ?b then _ else _) _ => destruct b end.
  - scan2. leaf2.
  - leaf2.
Qed.

Lemma makeAssignStatement_sound :
  sound (makeAssignStatement code startIndex startLine st)
        (madeAt code startIndex StatementName.LetStatement).
Proof. unfold makeAssignStatement. consume2. scan2. scan2. leaf2. Qed.

Lemma makeParamStatement_sound :
  sound (makeParamStatement code startIndex startLine st)
        (madeAt code startIndex StatementName.ParamStatement).
Proof.
  unfold makeParamStatement. consume2. scan2. scan2.
  match goal with |- sound (if ?b then _ else _) _ => destruct b end.
  - scan2. leaf2.
  - leaf2.
Qed.

Lemma makeImportStatement_sound :
  sound (makeImportStatement code startIndex startLine st)
        (madeAt code startIndex StatementName.ImportStatement).
Proof. unfold makeImportStatement. consume2. scan2. leaf2. Qed.

Lemma makeDefineSlotStatement_sound :
  sound (makeDefineSlotStatement code startIndex startLine st)
        (madeAt code startIndex StatementName.DefineSlotStatement).
Proof.
  unfold makeDefineSlotStatement. consume2.
  eapply sound_bind; [apply skipUntilAndWith_sound; assumption|].
  intros [v st1] [Hs Hl1].
  pose proof (scanned_exprOk Hs) as He. pose proof (scanned_index Hs) as Hi.
  pose proof (scanned_span Hs eq_refl) as Hsp.
  cbn [fst snd] in Hl1, He, Hi, Hsp. cbv beta iota.
  destruct (str_eqb (sc_value v) (lit "main")) eqn:Emain.
  - (* the name is [main]: four characters at its position *)
    apply str_eqb_eq in Emain. cbn [sound]. unfold errOk; cbn [errorPosition].
    destruct He as (E1 & E2 & E3 & _). cbn [scannedExpr position value] in *.
    pose proof (slice_length code E1 E2) as Hlen.
    rewrite <- E3, Emain in Hlen. simpl in Hlen. lia.
  - match goal with |- sound (if ?b then _ else _) _ => destruct b end.
    + scan2. leaf2.
    + leaf2.
Qed.

End Tag.

Lemma makeInlineTsCodeStatement_sound st :
  lineOk code st ->
  sound (makeInlineTsCodeStatement code st)
        (fun p => madeAt code (index st) (name (fst p)) p
                  /\ (name (fst p) = StatementName.InlineTsCodeStatement
                      \/ name (fst p) = StatementName.InlineSafeTsCodeStatement)).
Proof.
  intros Hl. unfold makeInlineTsCodeStatement.
  assert (Hl2 : lineOk code
                  (advance code 2 (if isChar (currentChar code st) "!"
                                   then advance code 1 st else st))).
  { apply lineOk_advance. destruct (isChar (currentChar code st) "!");
      [apply lineOk_advance|]; exact Hl. }
  assert (Hi2 : index st
                < index (advance code 2 (if isChar (currentChar code st) "!"
                                         then advance code 1 st else st))).
  { rewrite index_advance. destruct (isChar (currentChar code st) "!");
      rewrite ?index_advance; lia. }
  scan2. consume2.
  pose proof (eq_refl (lineAt code (index st))) as Hsl. rewrite <- Hl in Hsl at 1.
  destruct (isChar (currentChar code st) "!"); cbn [sound fst];
    (split; [|cbn [name]; auto]);
    (eapply madeAt_leaf; try eassumption; try reflexivity; try lia;
     first [exprs_in | cbn [exprsOf]; forall_exprs]).
Qed.

Lemma skipInlineComment_sound st :
  lineOk code st ->
  sound (skipInlineComment code st)
        (fun st' => lineOk code st' /\ index st <= index st'
                    /\ index st' <= length code).
Proof.
  intros Hl. unfold skipInlineComment.
  assert (Hl4 : lineOk code (advance code 4 st)) by (apply lineOk_advance, Hl).
  scan2. cbn [sound]. rewrite index_advance in Hi. repeat split; try assumption; lia.
Qed.

End LeafFacts.

Lemma stmtFact_pos code s : stmtFact code s -> posOk code (stmtPosition s).
Proof.
  intros [_ H]. destruct s; cbn [nodes] in H;
    apply Forall_inv in H; destruct H as [H _]; exact H.
Qed.

Lemma kindOk_slot_blockChild s :
  kindOk false false false true s ->
  instanceofComponentSlotStatement s = false -> blockChild s = true.
Proof.
  intros ((G1 & G2 & G3) & G4 & G5) Hs.
  destruct s; try reflexivity; simpl in *;
    try (specialize (G1 eq_refl); discriminate);
    try (specialize (G2 eq_refl); discriminate);
    try (specialize (G3 eq_refl); discriminate);
    try discriminate;
    try (exfalso; apply G5; reflexivity).
Qed.

Lemma forallb_filter_same {A : Type} (f : A -> bool) (l : list A) :
  forallb f (filter f l) = true.
Proof.
  apply forallb_forall. intros x Hx. apply filter_In in Hx as [_ Hx]. exact Hx.
Qed.

(** An [If] or [ElseIf] with the statement that ended its body. *)
Lemma madeAt_chain code (mk : PositionRange -> option Statement -> Statement)
      si sl st2 st3 e ch ending n :
  (forall p nx, stmtPosition (mk p nx) = p) ->
  (forall p nx, name (mk p nx) = n) ->
  (forall p nx, shapeOk (mk p nx) = forallb blockChild ch) ->
  (forall p nx, bodyOf (mk p nx) = ch) ->
  (forall p nx, nextOf (mk p nx) = nx) ->
  (forall p nx, ownExprs (mk p nx) = [e]) ->
  (forall p nx, nodes (mk p nx)
                = mk p nx :: flat_map nodes ch
                     ++ match nx with Some x => nodes x | None => [] end) ->
  (forall p nx, exprsOf (mk p nx)
                = e :: flat_map exprsOf ch
                    ++ match nx with Some x => exprsOf x | None => [] end) ->
  si < index st2 -> sl = lineAt code si -> exprOk code e ->
  si < start (position e) -> start (position e) <= end_ (position e) ->
  end_ (position e) < index st2 ->
  blockRead code (index st2)
            [StatementName.ElseIfStatement; StatementName.ElseStatement;
             StatementName.EndStatement] false (ch, ending, st3) ->
  madeAt code si n
         (mk (mkPositionRange si sl
                (nextStartOr (if instanceofEndStatement ending then None
                              else Some ending) st3))
             (if instanceofEndStatement ending then None else Some ending),
          st3).
Proof.
  intros Hpos Hname Hshape Hbody Hnext Hown Hnodes Hexprs Hsi Hsl He
         He1 He2 He3
         (B1 & B2 & B3 & B4 & B5 & B6 & B7 & B8 & B9 & B10).
  cbn [fst snd] in *.
  pose proof (stmtFact_pos B5) as (Q1 & Q2 & Q3).
  set (next := if instanceofEndStatement ending then None else Some ending).
  assert (Hend : si < nextStartOr next st3 /\ nextStartOr next st3 <= index st3).
  { unfold nextStartOr, next. destruct (instanceofEndStatement ending); [lia|].
    destruct (Nat.eqb_spec (start (stmtPosition ending)) 0); lia. }
  unfold madeAt, stmtFact. cbn [fst snd].
  rewrite Hpos, Hname, Hnodes, Hexprs. cbn [start end_].
  split; [exact B1|]. split; [exact B2|]. split; [reflexivity|].
  split; [lia|]. split; [|reflexivity]. split.
  - constructor; [exact He|]. apply Forall_app; split.
    + apply stmtFact_children_exprs, B3.
    + unfold next. destruct (instanceofEndStatement ending);
        [constructor | apply B5].
  - constructor.
    + unfold nodeFact, linkOk. rewrite Hpos, Hshape, Hbody, Hnext, Hnodes, Hown.
      cbn [start end_ lineStart tl exprsIn].
      split; [unfold posOk; cbn [start end_ lineStart];
              split; [lia|]; split; [lia | exact Hsl]|].
      split; [apply kindOk_blockChildren, B4|]. split.
      * apply spansWithin_ge with (lo := index st2); [|lia].
        apply spansWithin_le with (hi := start (stmtPosition ending)); [exact B9|].
        unfold nextStartOr, next. destruct (instanceofEndStatement ending); [lia|].
        destruct (Nat.eqb_spec (start (stmtPosition ending)) 0); lia.
      * split.
        -- unfold next, nextStartOr. destruct (instanceofEndStatement ending);
             [exact I|].
           destruct (Nat.eqb_spec (start (stmtPosition ending)) 0);
             [lia | reflexivity].
        -- split.
           ++ apply Forall_app; split.
              ** apply children_noEnd with (code := code); [exact B3|].
                 eapply includes_noEnd; [|exact B10]. reflexivity.
              ** unfold next.
                 destruct (instanceofEndStatement ending) eqn:Ee; [constructor|].
                 apply stmtFact_noEnd with (code := code); assumption.
           ++ assert (Hge : start (stmtPosition ending) <= nextStartOr next st3).
              { unfold nextStartOr, next.
                destruct (instanceofEndStatement ending); [lia|].
                destruct (Nat.eqb_spec (start (stmtPosition ending)) 0); lia. }
              repeat split; lia.
    + apply Forall_app; split.
      * apply stmtFact_children_nodes, B3.
      * unfold next. destruct (instanceofEndStatement ending);
          [constructor | apply B5].
Qed.

Section BlockFacts2.
Variable code : str.
Variable rec : bool -> bool -> bool -> bool -> Cursor -> Res (Statement * Cursor).

Hypothesis Hrec : forall ai ad ap asl st,
    lineOk code st -> index st < length code ->
    sound (rec ai ad ap asl st) (parsedFrom code (index st) ai ad ap asl).

Lemma parseUntilLoop_sound names slot from :
  forall fuel acc st,
    from <= index st -> lineOk code st ->
    Forall (stmtFact code) acc -> Forall (kindOk false false false slot) acc ->
    spansWithin from acc (index st) ->
    Forall (fun s => StatementName.includes names (name s) = false) acc ->
    sound (parseUntilLoop code rec fuel names slot acc st)
          (blockRead code from names slot).
Proof.
  induction fuel as [|fuel IH]; intros acc st Hfrom Hl Hacc Hkind Hspan Hnames;
    cbn [parseUntilLoop];
    (destruct (currentChar code st) as [c|] eqn:Ec;
     [|unfold sound, errOk; simpl; lia]); [exact I|].
  pose proof (currentChar_Some _ _ Ec) as Hlt.
  eapply sound_bind; [apply Hrec; assumption|].
  intros [s st'] (P1 & P2 & P3 & P4 & P5 & P6). cbn [fst snd] in *. cbv beta iota.
  pose proof (stmtFact_pos P5) as (Q1 & Q2 & Q3).
  destruct (StatementName.includes names (name s)) eqn:Ein.
  - cbn [sound]. unfold blockRead; cbn [fst snd].
    repeat (split; [first [assumption | lia]|]).
    split; [eapply spansWithin_le; eassumption | exact Hnames].
  - apply IH; try assumption; try lia.
    + apply Forall_app; split; [exact Hacc | constructor; [exact P5|constructor]].
    + apply Forall_app; split; [exact Hkind | constructor; [exact P6|constructor]].
    + eapply spansWithin_snoc; try eassumption; lia.
    + apply Forall_app; split; [exact Hnames | constructor; [exact Ein|constructor]].
Qed.

Lemma parseUntilStatment_sound names slot st :
  lineOk code st ->
  sound (parseUntilStatment code rec names slot st)
        (blockRead code (index st) names slot).
Proof.
  intros Hl. unfold parseUntilStatment.
  apply parseUntilLoop_sound; auto. cbn [spansWithin]. lia.
Qed.

Ltac consume2 :=
  eapply sound_bind; [apply consume_sound; assumption|];
  let st := fresh "st" in let H1 := fresh "Hc" in
  let H2 := fresh "Hb" in let H3 := fresh "Hl" in
  intros st (H1 & H2 & H3); cbv beta iota.

Ltac scan2 :=
  eapply sound_bind; [apply skipUntilAndWith_sound; assumption|];
  let v := fresh "v" in let st := fresh "st" in
  let Hs := fresh "Hs" in let Hl := fresh "Hl" in
  let He := fresh "He" in let Hi := fresh "Hi" in
  let Hsp := fresh "Hsp" in
  intros [v st] [Hs Hl];
  pose proof (scanned_exprOk Hs) as He;
  pose proof (scanned_index Hs) as Hi;
  pose proof (scanned_span Hs eq_refl) as Hsp;
  cbn [fst snd] in Hl, He, Hi, Hsp; cbv beta iota.

Ltac until2 :=
  eapply sound_bind; [apply parseUntilStatment_sound; assumption|];
  let ch := fresh "ch" in let e := fresh "ending" in let st := fresh "st" in
  let B := fresh "B" in
  intros [[ch e] st] B; cbv beta iota.

Ltac forall_exprs :=
  repeat first [apply Forall_nil | apply Forall_cons; [assumption|]].

Ltac exprs_in :=
  cbn [ownExprs exprsIn optExpr scannedExpr expr position map];
  repeat split; lia.

Section Tag2.
Variables (startIndex startLine : nat) (st : Cursor).
Hypothesis Hsi : startIndex < index st.
Hypothesis Hsl : startLine = lineAt code startIndex.
Hypothesis Hl : lineOk code st.
Hypothesis Hi : index st <= length code.

Lemma blockRead_end from names slot ch ending st' :
  blockRead code from names slot (ch, ending, st') ->
  from <= index st'.
Proof.
  intros (B1 & B2 & B3 & B4 & B5 & B6 & B7 & B8). cbn [fst snd] in *.
  pose proof (stmtFact_pos B5) as (Q1 & _). lia.
Qed.

Lemma blockRead_span from names slot ch ending st' si :
  blockRead code from names slot (ch, ending, st') -> si <= from ->
  spansWithin si ch (index st').
Proof.
  intros (B1 & B2 & B3 & B4 & B5 & B6 & B7 & B8 & B9 & _) Hle. cbn [fst snd] in *.
  pose proof (stmtFact_pos B5) as (Q1 & _).
  apply spansWithin_ge with (lo := from); [|exact Hle].
  eapply spansWithin_le; [exact B9 | lia].
Qed.

Lemma blockRead_noEnd from names slot ch ending st' :
  blockRead code from names slot (ch, ending, st') ->
  StatementName.includes names StatementName.EndStatement = true ->
  Forall (fun m => instanceofEndStatement m = false) ch.
Proof.
  intros (_ & _ & _ & _ & _ & _ & _ & _ & _ & B10) Hin. cbn [fst snd] in *.
  eapply includes_noEnd; eassumption.
Qed.

Ltac span2 :=
  match goal with
  | B : blockRead _ _ _ _ (?ch, _, ?s) |- _ =>
    assert (Hspan : spansWithin startIndex ch (index s))
      by (apply (blockRead_span B); lia);
    assert (Hne : Forall (fun m => instanceofEndStatement m = false) ch)
      by (apply (blockRead_noEnd B); reflexivity)
  end.

Lemma makeEachStatement_sound :
  sound (makeEachStatement code rec startIndex startLine st)
        (madeAt code startIndex StatementName.EachStatement).
Proof.
  unfold makeEachStatement. consume2. scan2.
  match goal with |- sound (if ?b then _ else _) _ => destruct b end;
    [unfold sound, errOk; simpl; lia|].
  scan2. until2. pose proof (blockRead_end B) as Hend. span2.
  destruct B as (B1 & B2 & B3 & B4 & _). cbn [fst snd] in *. cbn [sound].
  eapply madeAt_block with (own := [scannedExpr v; scannedExpr v0]);
    try eassumption; try reflexivity; try lia;
    first [exprs_in | forall_exprs].
Qed.

Lemma makeIfStatement_sound :
  sound (makeIfStatement code rec startIndex startLine st)
        (madeAt code startIndex StatementName.IfStatement).
Proof.
  unfold makeIfStatement. consume2. scan2. until2. cbn [sound].
  apply madeAt_chain
    with (mk := fun p nx => IfStatement p (scannedExpr v) ch nx)
         (st2 := st1) (e := scannedExpr v) (ch := ch);
    try reflexivity; try assumption; cbn [scannedExpr position]; lia.
Qed.

Lemma makeElseIfStatement_sound :
  sound (makeElseIfStatement code rec startIndex startLine st)
        (madeAt code startIndex StatementName.ElseIfStatement).
Proof.
  unfold makeElseIfStatement. consume2. scan2. until2. cbn [sound].
  apply madeAt_chain
    with (mk := fun p nx => ElseIfStatement p (scannedExpr v) ch nx)
         (st2 := st1) (e := scannedExpr v) (ch := ch);
    try reflexivity; try assumption; cbn [scannedExpr position]; lia.
Qed.

Lemma makeElseStatement_sound :
  sound (makeElseStatement code rec startIndex startLine st)
        (madeAt code startIndex StatementName.ElseStatement).
Proof.
  unfold makeElseStatement.
  eapply sound_bind; [apply parseParams_sound; assumption|].
  intros [args st1] (P1 & P2 & P3 & _). cbn [fst snd] in *. cbv beta iota.
  until2. pose proof (blockRead_end B) as Hend. span2.
  destruct B as (B1 & B2 & B3 & B4 & _). cbn [fst snd] in *. cbn [sound].
  eapply madeAt_block with (own := []);
    try eassumption; try reflexivity; try lia; constructor.
Qed.

Lemma makeComponentSlotStatement_sound :
  sound (makeComponentSlotStatement code rec startIndex startLine st)
        (madeAt code startIndex StatementName.ComponentSlotStatement).
Proof.
  unfold makeComponentSlotStatement. consume2. scan2.
  eapply sound_bind
    with (Qc := fun p => lineOk code (snd p) /\ index st1 <= index (snd p)
                         /\ Forall (exprOk code) (optExpr (fst p))
                         /\ exprsIn (index st1) (optExpr (fst p))
                                    (index (snd p) - 1)).
  - match goal with |- sound (if ?b then _ else _) _ => destruct b end.
    + scan2. cbn [sound fst snd optExpr].
      split; [assumption|]. split; [lia|]. split; [forall_exprs | exprs_in].
    + cbn [sound fst snd optExpr].
      split; [assumption|]. split; [lia|]. split; [constructor | exact I].
  - intros [pv st3] (P1 & P2 & P3 & P4). cbn [fst snd] in *.
    until2. pose proof (blockRead_end B) as Hend. span2.
    destruct B as (B1 & B2 & B3 & B4 & _). cbn [fst snd] in *. cbn [sound].
    eapply madeAt_block with (own := scannedExpr v :: optExpr pv);
      try eassumption; try reflexivity; try lia.
    + cbn [exprsIn scannedExpr position]. split; [lia|]. split; [lia|].
      split; [lia|].
      apply exprsIn_ge with (lo := index st1); [|lia].
      apply exprsIn_le with (hi := index st3 - 1); [exact P4 | lia].
    + constructor; assumption.
Qed.

Lemma makeComponentStatement_sound :
  sound (makeComponentStatement code rec startIndex startLine st)
        (madeAt code startIndex StatementName.ComponentStatement).
Proof.
  unfold makeComponentStatement.
  eapply sound_bind; [apply parseParams_sound; assumption|].
  intros [args st1] (P1 & P2 & P3 & P4 & P5 & P6). cbn [fst snd] in *.
  cbv beta iota.
  destruct args as [|a1 [|a2 [|a3 args]]]; try discriminate.
  apply Forall_inv_tail in P4 as P4'. apply Forall_inv in P4.
  apply Forall_inv in P4'.
  until2. pose proof (blockRead_end B) as Hend. span2.
  destruct B as (B1 & B2 & B3 & B4 & _). cbn [fst snd] in *. cbn [sound].
  assert (Hpos : posOk code (position_ startIndex startLine st0))
    by (apply posOk_position_; [lia | assumption | assumption]).
  assert (Hmain : forallb blockChild
                          (filter (fun slot => negb (instanceofComponentSlotStatement slot))
                                  ch) = true).
  { apply forallb_forall. intros x Hx. apply filter_In in Hx as [Hx Hn].
    rewrite Forall_forall in B4. apply kindOk_slot_blockChild; [apply B4, Hx|].
    destruct (instanceofComponentSlotStatement x); [discriminate | reflexivity]. }
  unfold madeAt, stmtFact. cbn [fst snd stmtPosition name exprsOf nodes].
  cbn [position_ start end_].
  split; [exact B1|]. split; [exact B2|]. split; [reflexivity|].
  split; [lia|]. split; [|reflexivity]. split.
  - constructor; [exact P4|]. constructor; [exact P4'|].
    apply Forall_app; split; apply stmtFact_children_exprs, Forall_filter, B3.
  - constructor; [|constructor].
    + split; [exact Hpos|]. cbn [shapeOk]. rewrite Hmain, forallb_filter_same.
      split; [reflexivity|].
      cbn [bodyOf stmtPosition position_ start end_ nodes tl].
      split; [apply spansWithin_filter, Hspan|]. split; [exact I|]. split.
      * constructor; [reflexivity|].
        apply Forall_app; split;
          (apply children_noEnd with (code := code); apply Forall_filter;
           assumption).
      * change (ownExprs (ComponentStatement
                            (mkPositionRange startIndex startLine (index st0))
                            (expr a1) (expr a2)
                            (ComponentMainSlotStatement
                               (mkPositionRange startIndex startLine (index st0))
                               (filter (fun slot =>
                                          negb (instanceofComponentSlotStatement slot))
                                       ch))
                            (filter instanceofComponentSlotStatement ch)))
          with (map expr [a1; a2]).
        apply exprsIn_ge with (lo := index st); [|lia].
        apply exprsIn_le with (hi := index st1 - 1); [exact P6 | lia].
    + split; [exact Hpos|]. split; [exact Hmain|].
      cbn [bodyOf stmtPosition position_ start end_ nodes tl].
      split; [apply spansWithin_filter, Hspan|]. split; [exact I|].
      split; [|exact I].
      apply children_noEnd with (code := code); apply Forall_filter; assumption.
    + apply Forall_app; split; apply stmtFact_children_nodes, Forall_filter, B3.
Qed.

End Tag2.

Ltac from_made2 lem :=
  eapply sound_weaken;
  [ first [apply lem; first [assumption | lia]]
  | let p := fresh "p" in
    intros p (M1 & M2 & M3 & M4 & M5 & M6);
    unfold parsedFrom, kindOk, gateOk;
    split; [exact M1|]; split; [exact M2|]; split; [lia|];
    split; [exact M4|]; split; [exact M5|];
    rewrite M6; repeat split; intros; try discriminate; reflexivity ].

Lemma makeAtTag_sound ai ad ap asl st :
  lineOk code st -> index st < length code ->
  sound (makeAtTag code rec ai ad ap asl st) (parsedFrom code (index st) ai ad ap asl).
Proof.
  intros Hl Hi. unfold makeAtTag.
  pose proof (readTagName_index code st) as Hidx.
  pose proof (readTagName_sound Hl Hi) as [Hl2 Hi2].
  destruct (readTagName code st) as [tagName st2]. cbn [snd] in *.
  assert (Hsl : line st = lineAt code (index st)) by exact Hl.
  repeat match goal with
         | |- sound (if str_eqb tagName ?l then _ else _) _ =>
           destruct (str_eqb tagName l)
         end.
  - from_made2 makeEachStatement_sound.
  - from_made2 makeIfStatement_sound.
  - from_made2 makeElseIfStatement_sound.
  - from_made2 makeElseStatement_sound.
  - from_made2 makeLetStatement_sound.
  - from_made2 makeAssignStatement_sound.
  - from_made2 makeComponentStatement_sound.
  - destruct ai; [|unfold sound, errOk; simpl; lia].
    from_made2 makeImportStatement_sound.
  - destruct ap; [|unfold sound, errOk; simpl; lia].
    from_made2 makeParamStatement_sound.
  - destruct ad; [|unfold sound, errOk; simpl; lia].
    from_made2 makeDefineSlotStatement_sound.
  - destruct asl; [|unfold sound, errOk; simpl; lia].
    from_made2 makeComponentSlotStatement_sound.
  - cbn [sound]. unfold parsedFrom, kindOk, gateOk, stmtFact.
    cbn [fst snd stmtPosition name exprsOf nodes position_ start end_].
    split; [exact Hl2|]. split; [exact Hi2|]. split; [lia|]. split; [lia|].
    split.
    + split; [constructor|]. constructor; [|constructor].
      split; [apply posOk_position_; assumption|]. split; [reflexivity|].
      cbn [bodyOf spansWithin stmtPosition position_ start end_ nodes tl].
      split; [lia|]. split; [exact I|]. split; [constructor | exact I].
    + repeat split; intros; discriminate.
  - unfold sound, errOk; simpl; lia.
Qed.

End BlockFacts2.

Section OnceFacts2.
Variable code : str.
Variable rec : bool -> bool -> bool -> bool -> Cursor -> Res (Statement * Cursor).

Hypothesis Hrec : forall ai ad ap asl st,
    lineOk code st -> index st < length code ->
    sound (rec ai ad ap asl st) (parsedFrom code (index st) ai ad ap asl).

Lemma peek_bound k st c :
  isChar (peek code k st) c = true -> index st + k < length code.
Proof.
  intros H. apply isChar_Some in H. unfold peek, getCharAt in H.
  apply nth_error_Some. congruence.
Qed.

Lemma parsedFrom_text si sl ai ad ap asl v st :
  lineOk code st -> index st <= length code -> si < index st ->
  sl = lineAt code si ->
  parsedFrom code si ai ad ap asl
             (TextStatement (mkPositionRange si sl (index st)) v, st).
Proof.
  intros Hl Hi Hsi Hsl. unfold parsedFrom, stmtFact, kindOk, gateOk.
  cbn [fst snd stmtPosition start end_ exprsOf nodes name].
  split; [exact Hl|]. split; [exact Hi|]. split; [lia|]. split; [lia|].
  split.
  - split; [constructor|]. constructor; [|constructor].
    split; [unfold posOk; cbn [stmtPosition start end_ lineStart]; auto|].
    split; [reflexivity|].
    cbn [bodyOf spansWithin stmtPosition start end_ nodes tl].
    split; [lia|]. split; [exact I|]. split; [constructor | exact I].
  - repeat split; intros; discriminate.
Qed.

Lemma parseOnceLoop_sound ai ad ap asl si sl :
  si < length code -> sl = lineAt code si ->
  forall fuel acc st,
    lineOk code st -> si <= index st -> index st <= length code ->
    (acc <> [] -> si < index st) ->
    sound (parseOnceLoop code rec fuel ai ad ap asl acc si sl st)
          (parsedFrom code si ai ad ap asl).
Proof.
  intros Hsi Hsl.
  induction fuel as [|fuel IH]; intros acc st Hl Hle Hi Hacc;
    cbn [parseOnceLoop];
    (destruct (currentChar code st) as [c|] eqn:Ec;
     [pose proof (currentChar_Some _ _ Ec) as Hlt
     |apply currentChar_None in Ec; cbn [sound];
      apply parsedFrom_text; try assumption; lia]); [exact I|].
  repeat match goal with
         | |- sound (if ?b then _ else _) _ => destruct b eqn:?
         end.
  - repeat match goal with
           | H : _ && _ = true |- _ => apply andb_prop in H as [? ?]
           end.
    match goal with
    | H : isChar (peek code 2 st) _ = true |- _ => apply peek_bound in H
    end.
    apply IH; rewrite ?index_advance; try lia. apply lineOk_advance, Hl.
  - cbn [sound]. apply parsedFrom_text; try assumption.
    apply Hacc. destruct acc; easy.
  - eapply sound_bind; [apply skipInlineComment_sound, Hl|].
    intros st' (S1 & S2 & S3). cbv beta. apply IH; try assumption; try lia.
    intros Hne. destruct acc; [congruence | simpl in *; discriminate].
  - eapply sound_weaken; [apply makeInlineTsCodeStatement_sound, Hl|].
    intros p ((M1 & M2 & M3 & M4 & M5 & M6) & Hn).
    unfold parsedFrom, kindOk, gateOk.
    split; [exact M1|]. split; [exact M2|]. split; [lia|]. split; [exact M4|].
    split; [exact M5|].
    repeat split; intros E; destruct Hn as [Hn|Hn]; rewrite Hn in E; discriminate.
  - repeat match goal with
           | H : _ && _ = true |- _ => apply andb_prop in H as [? ?]
           end.
    match goal with
    | H : isChar (peek code 1 st) _ = true |- _ => apply peek_bound in H
    end.
    apply IH; rewrite ?index_advance; try lia. apply lineOk_advance, Hl.
  - cbn [sound]. apply parsedFrom_text; try assumption.
    apply Hacc. destruct acc; easy.
  - eapply sound_weaken; [apply makeAtTag_sound; assumption|].
    intros p (M1 & M2 & M3 & M4 & M5 & M6). unfold parsedFrom.
    repeat (split; [first [assumption | lia]|]). exact M6.
  - apply IH; rewrite ?index_advance; try lia. apply lineOk_advance, Hl.
Qed.

Lemma parseOnceBody_sound ai ad ap asl st :
  lineOk code st -> index st < length code ->
  sound (parseOnceBody code rec ai ad ap asl st)
        (parsedFrom code (index st) ai ad ap asl).
Proof.
  intros Hl Hi. unfold parseOnceBody.
  apply parseOnceLoop_sound; try assumption; try lia. congruence.
Qed.

End OnceFacts2.

Section ParseFacts2.
Variable code : str.

Lemma parseOnceDepth_sound :
  forall depth ai ad ap asl st,
    lineOk code st -> index st < length code ->
    sound (parseOnceDepth code depth ai ad ap asl st)
          (parsedFrom code (index st) ai ad ap asl).
Proof.
  induction depth as [|depth IH]; intros ai ad ap asl st Hl Hi; [exact I|].
  cbn [parseOnceDepth]. apply parseOnceBody_sound; assumption.
Qed.

(** [#parseOnce] returns a statement that begins at or behind the cursor
    and ends at or before the new one; all its nodes and expressions are
    faithful to the source. *)
Lemma parseOnce_sound ai ad ap asl st :
  lineOk code st -> index st < length code ->
  sound (parseOnce code ai ad ap asl st)
        (parsedFrom code (index st) ai ad ap asl).
Proof. apply parseOnceDepth_sound. Qed.

Lemma kindOk_any ai ad ap asl s :
  kindOk ai ad ap asl s -> kindOk true true true asl s.
Proof.
  intros (_ & G2 & G3). unfold kindOk, gateOk. repeat split; auto.
Qed.

Lemma parseLoop_sound :
  forall fuel statements ai ad ap st,
    lineOk code st -> index st <= length code ->
    Forall (stmtFact code) statements ->
    Forall (kindOk true true true false) statements ->
    Forall (fun s => hasToBeHandledInParse s = false) statements ->
    spansWithin 0 statements (index st) ->
    sound (parseLoop code fuel statements ai ad ap st) (parsedAll code).
Proof.
  induction fuel as [|fuel IH]; intros statements ai ad ap st Hl Hi Hf Hk Hh Hs;
    cbn [parseLoop];
    (destruct (currentChar code st) as [c|] eqn:Ec;
     [|cbn [sound]; unfold parsedAll; repeat (split; [assumption|]);
       eapply spansWithin_le; eassumption]); [exact I|].
  pose proof (currentChar_Some _ _ Ec) as Hlt.
  eapply sound_bind; [apply parseOnce_sound; assumption|].
  intros [s st'] (P1 & P2 & P3 & P4 & P5 & P6). cbn [fst snd] in *. cbv beta iota.
  pose proof (stmtFact_pos P5) as (Q1 & Q2 & Q3).
  destruct (hasToBeHandledInParse s) eqn:Eh.
  - unfold sound, errOk. cbn [errorPosition]. exact Q1.
  - apply IH; try assumption.
    + apply Forall_app; split; [exact Hf | constructor; [exact P5|constructor]].
    + apply Forall_app; split; [exact Hk|].
      constructor; [eapply kindOk_any, P6|constructor].
    + apply Forall_app; split; [exact Hh | constructor; [exact Eh|constructor]].
    + eapply spansWithin_snoc; try eassumption.
Qed.

Lemma parse_sound : sound (parse code) (parsedAll code).
Proof.
  apply parseLoop_sound; try constructor; cbn; try lia; reflexivity.
Qed.

End ParseFacts2.

(* ================================================================= *)
(** ** What a parse returns and throws *)

Lemma sound_Ok {X : Type} (r : Res X) (Q : X -> Prop) (x : X) :
  sound r Q -> r = Ok x -> Q x.
Proof. intros H ->. exact H. Qed.

Lemma sound_Throw {X : Type} (r : Res X) (Q : X -> Prop) (e : ParserError) :
  sound r Q -> r = Throw e -> errOk e.
Proof. intros H ->. exact H. Qed.

Lemma parse_parsedAll code l : parse code = Ok l -> parsedAll code l.
Proof. apply sound_Ok, parse_sound. Qed.

Lemma parse_nodes code l :
  parse code = Ok l -> Forall (nodeFact code) (flat_map nodes l).
Proof.
  intros H. apply parse_parsedAll in H as (H & _).
  apply stmtFact_children_nodes, H.
Qed.

Lemma parse_exprs code l :
  parse code = Ok l -> Forall (exprOk code) (flat_map exprsOf l).
Proof.
  intros H. apply parse_parsedAll in H as (H & _).
  apply stmtFact_children_exprs, H.
Qed.

Lemma page_parses : parse page_code = Ok page_tree.
Proof. vm_compute; reflexivity. Qed.

Lemma countNl_head code i :
  countNl (firstn (S i) code)
  = lineAt code i + (if isChar (nth_error code 0) nl then 1 else 0).
Proof.
  unfold lineAt. destruct code as [|c t]; [destruct i; reflexivity|].
  cbn [firstn tl nth_error isChar]. unfold countNl. cbn [filter].
  destruct (Ascii.eqb c nl); cbn [length]; lia.
Qed.

Lemma getPositionInFile_start p code :
  pr_start (getPositionInFile p code)
  = if start p <? end_ p
    then Some (mkPositionInFile (start p)
                 (countNl (firstn (S (start p)) code))
                 (S (start p) - lineBegin code (S (start p))))
    else None.
Proof.
  unfold getPositionInFile.
  rewrite (@getPositionLoop_closed code p (end_ p) 0 0 0 None eq_refl eq_refl).
  reflexivity.
Qed.

(** X7.  The statements [parse] returns lie in the source one after the
    other: each begins at or behind the end of the one before it, none is
    empty, and the last ends within the source.  The same holds inside
    every statement of the tree: its body (for a component, its slots)
    lies in order between its start and its end, and an [If] or [ElseIf]
    that has a next branch ends exactly where that branch starts. *)
Theorem X7_statement_spans_nest_in_order (code : str) (l : list Statement) :
  parse code = Ok l ->
  spansWithin 0 l (length code)
  /\ Forall (fun n =>
               spansWithin (start (stmtPosition n)) (bodyOf n)
                           (end_ (stmtPosition n))
               /\ match nextOf n with
                  | Some nx => end_ (stmtPosition n) = start (stmtPosition nx)
                  | None => True
                  end)
            (flat_map nodes l).
Proof.
  intros H. split.
  - apply parse_parsedAll in H as (_ & _ & _ & H). exact H.
  - eapply Forall_impl; [|apply parse_nodes, H]. cbv beta.
    intros n (_ & _ & H1 & H2 & _). split; [exact H1 | exact H2].
Qed.

Lemma X7_statement_spans_nest_in_order_witness :
  parse page_code = Ok page_tree
  /\ spansWithin 0 page_tree (length page_code).
Proof.
  split; [vm_compute; reflexivity|].
  apply (@X7_statement_spans_nest_in_order page_code page_tree).
  vm_compute; reflexivity.
Defined.

(** X8.  Every statement of a parsed tree has a position that is not
    empty and lies in the source, and its [lineStart] is the number of
    newlines at the offsets [1 .. start].  [getPositionInFile] counts the
    newlines at the offsets [0 .. start], so the line it reports for the
    start of the statement is [lineStart], plus one when the source begins
    with a newline. *)
Theorem X8_statement_lines (code : str) (l : list Statement) :
  parse code = Ok l ->
  Forall (fun n =>
            let p := stmtPosition n in
            start p < end_ p /\ end_ p <= length code
            /\ lineStart p = countNl (firstn (start p) (tl code))
            /\ pr_start (getPositionInFile p code)
               = Some (mkPositionInFile (start p)
                         (lineStart p
                          + (if isChar (nth_error code 0) nl then 1 else 0))
                         (S (start p) - lineBegin code (S (start p)))))
         (flat_map nodes l).
Proof.
  intros H. eapply Forall_impl; [|apply parse_nodes, H]. cbv beta zeta.
  intros n ((P1 & P2 & P3) & _).
  split; [exact P1|]. split; [exact P2|]. split; [exact P3|].
  rewrite getPositionInFile_start.
  replace (start (stmtPosition n) <? end_ (stmtPosition n)) with true
    by (symmetry; apply Nat.ltb_lt, P1).
  rewrite countNl_head, P3. reflexivity.
Qed.

Lemma X8_statement_lines_witness :
  parse page_code = Ok page_tree
  /\ Forall (fun n => lineStart (stmtPosition n)
                      = countNl (firstn (start (stmtPosition n)) (tl page_code)))
            (flat_map nodes page_tree).
Proof.
  split; [vm_compute; reflexivity|].
  eapply Forall_impl;
    [|apply (@X8_statement_lines page_code page_tree); vm_compute; reflexivity].
  cbv beta zeta. intros n (_ & _ & H & _). exact H.
Defined.

(** X9.  Every expression of a parsed tree, at any depth, is the text of
    the source between the start and the end of its position, and that
    text has no white space at either end. *)
Theorem X9_expressions_are_source_text (code : str) (l : list Statement) :
  parse code = Ok l ->
  Forall (fun e =>
            start (position e) <= end_ (position e)
            /\ end_ (position e) <= length code
            /\ value e = slice code (start (position e)) (end_ (position e))
            /\ trimStart (value e) = value e
            /\ trimEnd (value e) = value e)
         (flat_map exprsOf l).
Proof.
  intros H. eapply Forall_impl; [|apply parse_exprs, H]. cbv beta.
  intros e (H1 & H2 & H3 & H4 & H5). repeat split; assumption.
Qed.

Lemma X9_expressions_are_source_text_witness :
  parse page_code = Ok page_tree
  /\ Forall (fun e => value e
                      = slice page_code (start (position e)) (end_ (position e)))
            (flat_map exprsOf page_tree).
Proof.
  split; [vm_compute; reflexivity|].
  eapply Forall_impl;
    [|apply (@X9_expressions_are_source_text page_code page_tree);
      vm_compute; reflexivity].
  cbv beta. intros e (_ & _ & H & _). exact H.
Defined.

(** X10.  Every error [parse] throws has a position that is not empty.
    [getPositionInFile] therefore finds the start of the position, and the
    message of the error names a place: the line that counts the newlines
    up to and including the start, plus one, the column of the start, and
    the offset of the start. *)
Theorem X10_errors_name_a_place (code : str) (e : ParserError) :
  parse code = Throw e ->
  start (errorPosition e) < end_ (errorPosition e)
  /\ errorPlace e code
     = Some (countNl (firstn (S (start (errorPosition e))) code) + 1,
             S (start (errorPosition e))
             - lineBegin code (S (start (errorPosition e))),
             start (errorPosition e)).
Proof.
  intros H.
  assert (He : errOk e) by (eapply sound_Throw; [apply parse_sound | exact H]).
  unfold errOk in He. split; [exact He|].
  unfold errorPlace. rewrite getPositionInFile_start.
  replace (start (errorPosition e) <? end_ (errorPosition e)) with true
    by (symmetry; apply Nat.ltb_lt, He).
  reflexivity.
Qed.

Lemma X10_errors_name_a_place_witness :
  parse broken_code = Throw broken_error
  /\ errorPlace broken_error broken_code = Some (1, 6, 5).
Proof.
  split; [vm_compute; reflexivity|].
  apply (@X10_errors_name_a_place broken_code broken_error).
  vm_compute; reflexivity.
Defined.

Lemma nodes_head s : nodes s = s :: tl (nodes s).
Proof. destruct s; reflexivity. Qed.

(** X11.  What the statements of a parsed tree hold.  At the top level
    there is no [ElseIf], [Else], slot or main slot.  At any depth, a body
    holds no [Import], [Param] or [DefineSlot], no slot and no main slot; a
    component has a main slot as its main slot and only slots as its slots;
    and no [End] statement lies below a statement: [End] can occur at the
    top level only. *)
Theorem X11_what_statements_hold (code : str) (l : list Statement) :
  parse code = Ok l ->
  Forall (fun s => hasToBeHandledInParse s = false) l
  /\ Forall (fun n =>
               shapeOk n = true
               /\ Forall (fun m => instanceofEndStatement m = false)
                         (tl (nodes n)))
            (flat_map nodes l).
Proof.
  intros H. split.
  - apply parse_parsedAll in H as (_ & _ & H & _). exact H.
  - eapply Forall_impl; [|apply parse_nodes, H]. cbv beta.
    intros n (_ & H2 & _ & _ & H5 & _). split; assumption.
Qed.

Lemma X11_what_statements_hold_witness :
  parse page_code = Ok page_tree
  /\ Forall (fun s => hasToBeHandledInParse s = false) page_tree.
Proof.
  split; [vm_compute; reflexivity|].
  apply (@X11_what_statements_hold page_code page_tree).
  vm_compute; reflexivity.
Defined.

Lemma Forall2_Forall_l {A B : Type} (R : A -> B -> Prop) (P : B -> Prop)
      (Q : A -> Prop) (la : list A) (lb : list B) :
  Forall2 R la lb -> Forall P lb ->
  (forall a b, R a b -> P b -> Q a) -> Forall Q la.
Proof.
  intros H2 HP Himp. induction H2 as [|a b la lb Hab _ IH]; constructor.
  - apply (Himp a b Hab), (Forall_inv HP).
  - apply IH, (Forall_inv_tail HP).
Qed.

Lemma template_roundTrip (statements : list Statement) (delimiter : str) :
  roundTrip (TsCodeArray_toTsCode (map toTsCode statements) delimiter)
            (flat_map exprsOf statements).
Proof.
  apply roundTrip_of_view. rewrite TsCodeArray_view. apply children_view.
  apply Forall_forall. intros s _. apply toTsCode_view.
Qed.

(** X12.  The source map of a parsed template points at the source.  Join
    the fragments of the parsed statements with any delimiter and flatten
    the result: every entry of the map then selects the same text in the
    generated code, at its generated offset, as in the template source, at
    its source offset, and both ranges lie within their texts. *)
Theorem X12_source_map_points_at_source
        (code : str) (l : list Statement) (delimiter : str) :
  parse code = Ok l ->
  Forall (fun m =>
            sourceOffset m + length_ m <= length code
            /\ generatedOffset m + length_ m
               <= length (flatten (TsCodeArray_toTsCode (map toTsCode l) delimiter))
            /\ slice (flatten (TsCodeArray_toTsCode (map toTsCode l) delimiter))
                     (generatedOffset m) (generatedOffset m + length_ m)
               = slice code (sourceOffset m) (sourceOffset m + length_ m))
         (mapsOf (TsCodeArray_toTsCode (map toTsCode l) delimiter)).
Proof.
  intros H. pose proof (template_roundTrip l delimiter) as Hrt.
  unfold roundTrip in Hrt. unfold flatten, mapsOf.
  destruct (toMappedString (TsCodeArray_toTsCode (map toTsCode l) delimiter))
    as [maps text]. cbn [fst snd].
  eapply Forall2_Forall_l; [exact Hrt | apply parse_exprs, H|].
  cbv beta. intros m e (R1 & R2 & R3 & R4) (E1 & E2 & E3 & _).
  assert (Hlen : length (value e) = end_ (position e) - start (position e))
    by (rewrite E3; apply slice_length; assumption).
  rewrite R1, R2, Hlen.
  replace (start (position e) + (end_ (position e) - start (position e)))
    with (end_ (position e)) by lia.
  split; [exact E2|]. split; [lia|].
  rewrite <- E3, <- R4, R2, Hlen. reflexivity.
Qed.

Lemma X12_source_map_points_at_source_witness :
  parse page_code = Ok page_tree
  /\ Forall (fun m => sourceOffset m + length_ m <= length page_code)
            (mapsOf (TsCodeArray_toTsCode (map toTsCode page_tree) [nl])).
Proof.
  split; [vm_compute; reflexivity|].
  eapply Forall_impl;
    [|apply (@X12_source_map_points_at_source page_code page_tree [nl]);
      vm_compute; reflexivity].
  cbv beta. intros m (H & _). exact H.
Defined.

(* ================================================================= *)
(** ** The scanner, the tag name and plain text *)

(** X13.  What [#skipUntilAndWith] returns.  The stop string it reports is
    one of those asked for and is the text right before the new cursor;
    the value is the source text from the old cursor to that stop string
    with the white space at both ends removed, and it is the source text at
    the position reported with it, which lies between the old cursor and
    the stop string.  When empty values are not allowed the value is not
    empty. *)
Theorem X13_scan_returns_trimmed_text
        (code : str) (untilChars : list str) (allowEmpty : bool)
        (st : Cursor) (v : Scanned) (st' : Cursor) :
  skipUntilAndWith code untilChars allowEmpty st = Ok (v, st') ->
  In (controllChar v) untilChars
  /\ index st + length (controllChar v) <= index st'
  /\ index st' <= length code
  /\ slice code (index st' - length (controllChar v)) (index st') = controllChar v
  /\ sc_value v
     = trimEnd (trimStart
                  (slice code (index st) (index st' - length (controllChar v))))
  /\ sc_value v = slice code (start (sc_position v)) (end_ (sc_position v))
  /\ index st <= start (sc_position v)
  /\ start (sc_position v) <= end_ (sc_position v)
  /\ end_ (sc_position v) + length (controllChar v) <= index st'
  /\ (allowEmpty = false -> sc_value v <> []).
Proof.
  intros H.
  pose proof (skipUntilAndWith_scanned code untilChars allowEmpty st) as Hs.
  rewrite H in Hs. cbn [sound fst snd] in Hs.
  destruct Hs as ((S1 & S2 & S3 & S4 & S5 & S6 & S7 & S8 & S9 & S10) & Hne).
  cbn [fst snd] in *.
  repeat (split; [first [assumption | lia]|]). exact Hne.
Qed.

Lemma X13_scan_returns_trimmed_text_witness :
  skipUntilAndWith scan_code [lit ")"] false initialCursor
  = Ok (scan_result, mkCursor 10 0)
  /\ sc_value scan_result = slice scan_code 2 7.
Proof.
  split; [vm_compute; reflexivity|].
  exact (proj1 (proj2 (proj2 (proj2 (proj2 (proj2
           (@X13_scan_returns_trimmed_text scan_code [lit ")"] false
              initialCursor scan_result (mkCursor 10 0)
              ltac:(vm_compute; reflexivity)))))))).
Defined.

Lemma skipn_nth_cons (code : str) (i : nat) (c : ascii) :
  nth_error code i = Some c -> skipn i code = c :: skipn (S i) code.
Proof.
  revert i. induction code as [|x code IH]; intros i Hc.
  - destruct i; discriminate.
  - destruct i as [|i]; [injection Hc as ->; reflexivity|].
    cbn [nth_error] in Hc. cbn [skipn]. rewrite (IH i Hc).
    destruct code; [destruct i; discriminate | reflexivity].
Qed.

Lemma slice_cons code i j c :
  nth_error code i = Some c -> i < j ->
  slice code i j = c :: slice code (S i) j.
Proof.
  intros Hc Hlt. unfold slice.
  replace (j - i) with (S (j - S i)) by lia.
  rewrite (@skipn_nth_cons code i c Hc). reflexivity.
Qed.

Lemma slice_empty code i : slice code i i = [].
Proof. unfold slice. rewrite Nat.sub_diag. reflexivity. Qed.

Lemma tagNameLoop_run code :
  forall fuel st,
    length code - index st <= fuel ->
    index st <= index (tagNameLoop code fuel st)
    /\ forallb isValidTagChar
               (slice code (index st) (index (tagNameLoop code fuel st))) = true
    /\ match currentChar code (tagNameLoop code fuel st) with
       | Some c => isValidTagChar c = false
       | None => True
       end.
Proof.
  induction fuel as [|fuel IH]; intros st Hfuel; cbn [tagNameLoop].
  - rewrite slice_empty. split; [lia | split; [reflexivity|]].
    replace (currentChar code st) with (@None ascii); [exact I|].
    symmetry. apply nth_error_None. lia.
  - destruct (currentChar code st) as [c|] eqn:Ec.
    + destruct (isValidTagChar c) eqn:Ev.
      * pose proof (currentChar_Some _ _ Ec) as Hlt.
        destruct (IH (advance1 code st)) as (H1 & H2 & H3);
          [rewrite index_advance1; lia|].
        rewrite index_advance1 in H1, H2.
        split; [lia|]. split; [|exact H3].
        rewrite (@slice_cons code (index st) _ c Ec) by lia.
        cbn [forallb]. rewrite Ev, H2. reflexivity.
      * rewrite slice_empty, Ec. split; [lia | split; [reflexivity | exact Ev]].
    + rewrite slice_empty, Ec. split; [lia | split; [reflexivity | exact I]].
Qed.

(** X14.  The tag name [#makeAtTag] reads is the longest run of tag
    characters (letters, digits, [-] and [_]) right behind the [@]: it is
    the source text between the character behind the [@] and the new
    cursor, all its characters are tag characters, and the character under
    the new cursor, if any, is not one. *)
Theorem X14_tag_name_is_the_longest_run (code : str) (st : Cursor) :
  index st < index (snd (readTagName code st))
  /\ fst (readTagName code st)
     = slice code (S (index st)) (index (snd (readTagName code st)))
  /\ forallb isValidTagChar (fst (readTagName code st)) = true
  /\ match currentChar code (snd (readTagName code st)) with
     | Some c => isValidTagChar c = false
     | None => True
     end.
Proof.
  unfold readTagName. cbn [fst snd].
  destruct (@tagNameLoop_run code (length code) (advance1 code st))
    as (H1 & H2 & H3); [lia|].
  rewrite index_advance1 in *.
  split; [lia|]. split; [reflexivity|]. split; [exact H2 | exact H3].
Qed.

Lemma plain_nth code i c :
  plain code = true -> nth_error code i = Some c ->
  Ascii.eqb c "@" = false /\ Ascii.eqb c "{" = false.
Proof.
  intros Hp Hc. unfold plain in Hp. rewrite forallb_forall in Hp.
  specialize (Hp c (nth_error_In _ _ Hc)).
  apply negb_true_iff, orb_false_iff in Hp. exact Hp.
Qed.

Lemma plain_isChar code i :
  plain code = true ->
  isChar (nth_error code i) "@" = false /\ isChar (nth_error code i) "{" = false.
Proof.
  intros Hp. destruct (nth_error code i) as [c|] eqn:Ec; cbn [isChar]; [|auto].
  apply (@plain_nth _ _ _ Hp Ec).
Qed.

Lemma parseOnceLoop_plain code rec ai ad ap asl si sl :
  plain code = true ->
  forall fuel acc st,
    length code - index st <= fuel ->
    parseOnceLoop code rec fuel ai ad ap asl acc si sl st
    = Ok (TextStatement
            (mkPositionRange si sl
               (index (advance code (length code - index st) st)))
            (acc ++ skipn (index st) code),
          advance code (length code - index st) st).
Proof.
  intros Hp. induction fuel as [|fuel IH]; intros acc st Hfuel;
    cbn [parseOnceLoop]; destruct (currentChar code st) as [c|] eqn:Ec.
  - apply currentChar_Some in Ec. lia.
  - apply currentChar_None in Ec.
    replace (length code - index st) with 0 by lia.
    rewrite skipn_all2, app_nil_r by exact Ec. reflexivity.
  - pose proof (currentChar_Some _ _ Ec) as Hlt.
    destruct (@plain_nth _ _ _ Hp Ec) as [Hat Hbr].
    destruct (@plain_isChar code (index st + 1) Hp) as [Hat1 Hbr1].
    unfold peek, getCharAt. rewrite Hat, Hbr, Hat1, Hbr1.
    rewrite !andb_false_r. cbn [andb orb].
    rewrite IH by (rewrite index_advance; lia).
    change (advance code 1 st) with (advance1 code st).
    rewrite !index_advance1.
    replace (length code - index st) with (S (length code - S (index st))) by lia.
    cbn [advance].
    rewrite (@skipn_nth_cons code (index st) c Ec), <- app_assoc.
    reflexivity.
  - apply currentChar_None in Ec.
    replace (length code - index st) with 0 by lia.
    rewrite skipn_all2, app_nil_r by exact Ec. reflexivity.
Qed.

(** X15.  A source without [@] and without a brace is one [Text]
    statement: [parse] returns a single [Text] statement that spans the
    whole source and holds it unchanged. *)
Theorem X15_plain_text_is_one_statement (code : str) :
  code <> [] -> plain code = true ->
  parse code = Ok [TextStatement (mkPositionRange 0 0 (length code)) code].
Proof.
  intros Hne Hp. unfold parse.
  destruct code as [|c code'] eqn:E; [congruence|]. rewrite <- E in *.
  assert (Hlen : length code = S (length code')) by (rewrite E; reflexivity).
  rewrite Hlen at 1. cbn [parseLoop].
  assert (Hc : currentChar code initialCursor = Some c) by (rewrite E; reflexivity).
  rewrite Hc. unfold parseOnce. cbn [parseOnceDepth]. unfold parseOnceBody.
  rewrite parseOnceLoop_plain by (exact Hp || lia).
  cbn [bind hasToBeHandledInParse name initialCursor index line].
  rewrite Nat.sub_0_r, index_advance. cbn [index]. rewrite Nat.add_0_r.
  cbn [skipn app].
  assert (Hend : currentChar code (advance code (length code) initialCursor) = None).
  { apply nth_error_None. rewrite index_advance. cbn [index initialCursor]. lia. }
  destruct (length code') as [|f]; cbn [parseLoop]; rewrite Hend; reflexivity.
Qed.

Lemma X15_plain_text_is_one_statement_witness :
  lit "Hello, world!" <> []
  /\ plain (lit "Hello, world!") = true
  /\ parse (lit "Hello, world!")
     = Ok [TextStatement (mkPositionRange 0 0 13) (lit "Hello, world!")].
Proof.
  split; [discriminate|]. split; [reflexivity|].
  apply (@X15_plain_text_is_one_statement (lit "Hello, world!"));
    [discriminate | reflexivity].
Defined.

(* ================================================================= *)
(** ** The declaration file *)

Lemma builder_text so sm literals children :
  snd (toMappedString (newTsCode so sm (builder literals children)))
  = interleave literals children.
Proof.
  unfold newTsCode, builder.
  cbn [b_children b_literal b_parentOffset]. rewrite toMappedString_loop.
  exact (@builderLoop_text children literals (concat literals) [] [] 0 [] []
                           eq_refl eq_refl).
Qed.

Lemma expression_text e : snd (toMappedString (TsCodeExpression_toTsCode e)) = value e.
Proof. reflexivity. Qed.

Lemma fold_left_concat {A : Type} (f : A -> str) (l : list A) :
  forall c, fold_left (fun code x => code ++ f x) l c = c ++ concat (map f l).
Proof.
  induction l as [|x l IH]; intros c; cbn [fold_left map concat].
  - rewrite app_nil_r. reflexivity.
  - rewrite IH, app_assoc. reflexivity.
Qed.

Lemma import_line s :
  instanceofImportStatement s = true ->
  [nl] ++ match toTsCode s with
          | Some t => snd (toMappedString t)
          | None => []
          end
  = importLine s.
Proof.
  destruct s; try discriminate. intros _. cbn [toTsCode importLine].
  rewrite builder_text. cbn [interleave exprCode textOf concat].
  unfold flatten. rewrite expression_text, !app_nil_r. reflexivity.
Qed.

Lemma param_line s :
  instanceofParamStatement s = true ->
  [tab] ++ toDeclarationFileCode s ++ [nl] = paramLine s.
Proof.
  destruct s; try discriminate. intros _. cbn [toDeclarationFileCode paramLine].
  rewrite !expression_text, <- !app_assoc. reflexivity.
Qed.

Lemma map_filter_ext {A B : Type} (p : A -> bool) (f g : A -> B) (l : list A) :
  (forall x, p x = true -> f x = g x) ->
  map f (filter p l) = map g (filter p l).
Proof.
  intros H. apply map_ext_in. intros x Hx. apply filter_In in Hx as [_ Hx].
  apply H, Hx.
Qed.

(** Declarations come first: an [Import] or [Param] statement is preceded
    only by statements after which a [Param] is allowed. *)
Lemma respected_declarations l :
  gatesRespected l ->
  forall pre s post,
    l = pre ++ s :: post ->
    instanceofImportStatement s || instanceofParamStatement s = true ->
    forallb paramAllowedAfter pre = true.
Proof.
  intros Hg pre s post E Hs. destruct (Hg pre s post E) as (Hi & _ & Hp).
  destruct s; try discriminate.
  - apply Hp. reflexivity.
  - specialize (Hi eq_refl). apply forallb_forall. intros x Hx.
    rewrite forallb_forall in Hi. specialize (Hi x Hx).
    unfold importAllowedAfter, paramAllowedAfter in *.
    destruct (name x); try discriminate; reflexivity.
Qed.

Lemma filter_none {A : Type} (f : A -> bool) (l : list A) :
  (forall x, In x l -> f x = false) -> filter f l = [].
Proof.
  induction l as [|x l IH]; intros H; cbn [filter]; [reflexivity|].
  rewrite (H x (or_introl eq_refl)). apply IH. intros y Hy. apply H. right. exact Hy.
Qed.

Lemma collectLoop_all :
  forall l imports params,
    (forall pre s post,
        l = pre ++ s :: post ->
        instanceofImportStatement s || instanceofParamStatement s = true ->
        forallb paramAllowedAfter pre = true) ->
    collectLoop l imports params
    = (imports ++ filter instanceofImportStatement l,
       params ++ filter instanceofParamStatement l).
Proof.
  induction l as [|x l IH]; intros imports params H; cbn [collectLoop filter].
  - rewrite !app_nil_r. reflexivity.
  - assert (Htail : forall pre s post,
               l = pre ++ s :: post ->
               instanceofImportStatement s || instanceofParamStatement s = true ->
               forallb paramAllowedAfter (x :: pre) = true).
    { intros pre s post E Hs. apply (H (x :: pre) s post); [|exact Hs].
      rewrite E. reflexivity. }
    destruct (areParamStatementsAllowedAfter (name x)) eqn:Ea; cbn [negb].
    + rewrite IH.
      * destruct x; cbn [instanceofImportStatement instanceofParamStatement];
          rewrite <- ?app_assoc; reflexivity.
      * intros pre s post E Hs. specialize (Htail pre s post E Hs).
        cbn [forallb] in Htail. apply andb_prop in Htail as [_ Ht]. exact Ht.
    + assert (Hnone : forall s, In s l ->
                 instanceofImportStatement s || instanceofParamStatement s = false).
      { intros s Hin. apply in_split in Hin as (pre & post & E).
        destruct (instanceofImportStatement s || instanceofParamStatement s) eqn:Es;
          [|reflexivity].
        specialize (Htail pre s post E Es). cbn [forallb] in Htail.
        unfold paramAllowedAfter in Htail at 1. rewrite Ea in Htail. discriminate. }
      assert (Hi : filter instanceofImportStatement l = []).
      { apply filter_none. intros s Hin. apply Hnone in Hin.
        apply orb_false_iff in Hin as [Hin _]. exact Hin. }
      assert (Hp : filter instanceofParamStatement l = []).
      { apply filter_none. intros s Hin. apply Hnone in Hin.
        apply orb_false_iff in Hin as [_ Hin]. exact Hin. }
      rewrite Hi, Hp.
      destruct x; cbn [instanceofImportStatement instanceofParamStatement];
        rewrite ?app_nil_r; reflexivity.
Qed.

(** X16.  The declaration file of a parsed template lists every import
    and every parameter of the template.  The collecting loop of
    [paramsToCodeString] stops at the first statement after which no
    [Param] is allowed; in a parsed template no [Import] or [Param]
    statement comes behind such a statement, so nothing is lost: the text
    is the heading, one [import] line for each [Import] statement, and
    one line [name: type] for each [Param] statement, in their order. *)
Theorem X16_declaration_file_lists_every_declaration
        (code : str) (l : list Statement) :
  parse code = Ok l ->
  paramsToCodeString l
  = lit "// Autogenerated code by typescript templating engine" ++ [nl]
    ++ concat (map importLine (filter instanceofImportStatement l))
    ++ (if length (filter instanceofImportStatement l) =? 0 then [] else [nl])
    ++ [nl] ++ lit "export interface Params {" ++ [nl]
    ++ concat (map paramLine (filter instanceofParamStatement l))
    ++ lit "}".
Proof.
  intros H. unfold paramsToCodeString.
  rewrite collectLoop_all
    by (apply respected_declarations, (@parse_respected code l H)).
  cbn [app].
  rewrite (fold_left_concat
             (fun importStatement =>
                [nl] ++ match toTsCode importStatement with
                        | Some t => snd (toMappedString t)
                        | None => []
                        end)).
  rewrite (fold_left_concat
             (fun param => [tab] ++ toDeclarationFileCode param ++ [nl])).
  rewrite (map_filter_ext instanceofImportStatement _ importLine l import_line).
  rewrite (map_filter_ext instanceofParamStatement _ paramLine l param_line).
  destruct (length (filter instanceofImportStatement l) =? 0); cbn [negb];
    rewrite <- ?app_assoc; reflexivity.
Qed.

Lemma X16_declaration_file_lists_every_declaration_witness :
  parse header_code = Ok header_tree
  /\ paramsToCodeString header_tree
     = lit "// Autogenerated code by typescript templating engine" ++ [nl; nl]
       ++ lit "import { User } from ./user" ++ [nl; nl]
       ++ lit "export interface Params {" ++ [nl; tab]
       ++ lit "user: User" ++ [nl; tab] ++ lit "n: number" ++ [nl] ++ lit "}".
Proof.
  split; [vm_compute; reflexivity|].
  rewrite (@X16_declaration_file_lists_every_declaration header_code header_tree)
    by (vm_compute; reflexivity).
  vm_compute; reflexivity.
Defined.

(* ================================================================= *)
(** ** Plain descriptions of a parsed tree *)

Lemma toObject_None s : toObject s = None -> instanceofEndStatement s = true.
Proof. destruct s; intros H; try reflexivity; simpl in H; discriminate H. Qed.

Lemma in_nodes_self s : In s (nodes s).
Proof. rewrite nodes_head. left. reflexivity. Qed.

Lemma in_flat_nodes c ch : In c ch -> In c (flat_map nodes ch).
Proof. intros H. apply in_flat_map. exists c. split; [exact H | apply in_nodes_self]. Qed.

Lemma bodyOf_below n c : In c (bodyOf n) -> In c (tl (nodes n)).
Proof.
  destruct n; cbn [bodyOf nodes tl]; intros H;
    try contradiction;
    try (apply in_flat_nodes; exact H);
    try (apply in_or_app; left; apply in_flat_nodes; exact H).
  apply in_or_app; right. apply in_flat_nodes. exact H.
Qed.

Lemma dropNull_full {A : Type} (l : list (option A)) :
  Forall (fun o => o <> None) l -> length (dropNull l) = length l.
Proof.
  induction 1 as [|o l Ho _ IH]; [reflexivity|].
  destruct o; [|congruence]. cbn [dropNull length]. rewrite IH. reflexivity.
Qed.

(** X17.  In a parsed tree [childrenToObject] drops nothing.  Only an
    [End] statement has the description [null], and no [End] lies below a
    statement of a parsed tree: every statement below another one has a
    description, and the description of a body has one entry for each
    statement of the body. *)
Theorem X17_descriptions_keep_every_child (code : str) (l : list Statement) :
  parse code = Ok l ->
  Forall (fun n =>
            Forall (fun m => toObject m <> None) (tl (nodes n))
            /\ length (dropNull (map toObject (bodyOf n))) = length (bodyOf n))
         (flat_map nodes l).
Proof.
  intros H. eapply Forall_impl; [|apply parse_nodes, H]. cbv beta.
  intros n (_ & _ & _ & _ & H5 & _).
  assert (Hall : Forall (fun m => toObject m <> None) (tl (nodes n))).
  { eapply Forall_impl; [|exact H5]. cbv beta. intros m Hm Hnone.
    apply toObject_None in Hnone. congruence. }
  split; [exact Hall|].
  rewrite dropNull_full, length_map; [reflexivity|].
  apply Forall_map, Forall_forall. intros c Hc.
  rewrite Forall_forall in Hall. apply Hall, bodyOf_below, Hc.
Qed.

Lemma X17_descriptions_keep_every_child_witness :
  parse page_code = Ok page_tree
  /\ Forall (fun n => length (dropNull (map toObject (bodyOf n)))
                      = length (bodyOf n))
            (flat_map nodes page_tree).
Proof.
  split; [vm_compute; reflexivity|].
  eapply Forall_impl;
    [|apply (@X17_descriptions_keep_every_child page_code page_tree);
      vm_compute; reflexivity].
  cbv beta. intros n (_ & H). exact H.
Defined.

(* ================================================================= *)
(** ** Stray tags at the top level *)

Lemma top_tag_step code statements ai ad ap st :
  topReach code statements ai ad ap st ->
  currentChar code st = Some "@"%char ->
  parse code
  = ('(statement, st') <-
       makeAtTag code (parseOnceDepth code (length code)) ai ad ap false st ;;
     if hasToBeHandledInParse statement then
       Throw (DisalowedTagContexError (stmtPosition statement) (name statement))
     else
       parseLoop code (length code - index st - 1) (statements ++ [statement])
                 (if ai && negb (areImportStatementsAllowedAfter (name statement))
                  then false else ai)
                 (if ad && negb (areDefineSlotStatementsAllowedAfter (name statement))
                  then false else ad)
                 (if ap && negb (areParamStatementsAllowedAfter (name statement))
                  then false else ap)
                 st').
Proof.
  intros Hreach Hc. rewrite (topReach_parse Hreach).
  pose proof (currentChar_Some _ _ Hc) as Hlt.
  destruct (length code - index st) as [|k] eqn:Ek; [lia|].
  cbn [parseLoop]. rewrite Hc, parseOnce_at_tag by assumption.
  replace (S k - 1) with k by lia. reflexivity.
Qed.

(** X18.  Stray tags at the top level.  Wherever the loop of [parse]
    meets an [@] followed by a name that is none of the twelve tag names,
    [parse] throws the invalid-tag-name error with that name, at the
    position of the [@] and the name.  Where it meets [@slot], it throws
    the slot-outside-component error.  Where it meets [@end], nothing is
    thrown: the loop goes on with an [End] statement added, and with all
    three ordering gates closed. *)
Theorem X18_stray_tags_at_top_level
        (code : str) (statements : list Statement) (ai ad ap : bool)
        (st : Cursor) (tag : str) :
  topReach code statements ai ad ap st ->
  nextTag code st = Some tag ->
  (existsb (str_eqb tag) tagNames = false ->
   parse code = Throw (InvalidTagNameError (tagPosition code st) tag))
  /\ (tag = lit "slot" ->
      parse code = Throw (SlotOutsideComponenterror (tagPosition code st)))
  /\ (tag = lit "end" ->
      topReach code (statements ++ [EndStatement (tagPosition code st)])
               false false false (snd (readTagName code st))).
Proof.
  intros Hreach Htag. apply nextTag_Some in Htag as [Hc Htag].
  pose proof (top_tag_step Hreach Hc) as Hstep.
  split; [|split].
  - intros Hun. rewrite Hstep. unfold makeAtTag, tagPosition.
    destruct (readTagName code st) as [t st2]. cbn [fst snd] in *. subst t.
    cbn [existsb tagNames] in Hun.
    repeat (let E := fresh "E" in
            apply orb_false_iff in Hun as [E Hun]; rewrite E; clear E).
    reflexivity.
  - intros ->. rewrite Hstep. unfold makeAtTag, tagPosition.
    destruct (readTagName code st) as [t st2]. cbn [fst snd] in *. subst t.
    reflexivity.
  - intros ->.
    assert (Hend : isAtEnd code st = false)
      by (unfold isAtEnd; rewrite Hc; reflexivity).
    assert (Hp : parseOnce code ai ad ap false st
                 = Ok (EndStatement (tagPosition code st),
                       snd (readTagName code st))).
    { rewrite parseOnce_at_tag by assumption. unfold makeAtTag, tagPosition.
      destruct (readTagName code st) as [t st2]. cbn [fst snd] in *. subst t.
      reflexivity. }
    pose proof (topReach_step Hreach Hend Hp eq_refl) as Hnext.
    cbn [name] in Hnext.
    destruct ai, ad, ap; exact Hnext.
Qed.

Lemma X18_stray_tags_at_top_level_witness :
  topReach (lit "@foo bar") [] true true true initialCursor
  /\ nextTag (lit "@foo bar") initialCursor = Some (lit "foo")
  /\ existsb (str_eqb (lit "foo")) tagNames = false
  /\ parse (lit "@foo bar") = Throw (InvalidTagNameError (pos 0 0 4) (lit "foo")).
Proof.
  split; [apply topReach_start|]. split; [reflexivity|]. split; [reflexivity|].
  exact (proj1 (@X18_stray_tags_at_top_level (lit "@foo bar") [] true true true
                  initialCursor (lit "foo") (topReach_start _) eq_refl)
               eq_refl).
Defined.

(* ================================================================= *)
(** ** Expressions inside their statement, and [copy] *)

(** X19.  The expressions a statement of a parsed tree holds itself lie
    strictly inside the statement, behind its first character and before
    its last, one after the other in the order of the source: the loop
    variable of an [Each] before its iterator, the name of a [Let] or
    [Param] before its type and value, the name of a component before its
    parameters. *)
Theorem X19_expressions_lie_inside_their_statement
        (code : str) (l : list Statement) :
  parse code = Ok l ->
  Forall (fun n => exprsIn (start (stmtPosition n) + 1) (ownExprs n)
                           (end_ (stmtPosition n) - 1))
         (flat_map nodes l).
Proof.
  intros H. eapply Forall_impl; [|apply parse_nodes, H]. cbv beta.
  intros n (_ & _ & _ & _ & _ & H6). exact H6.
Qed.

Lemma X19_expressions_lie_inside_their_statement_witness :
  parse page_code = Ok page_tree
  /\ Forall (fun n => exprsIn (start (stmtPosition n) + 1) (ownExprs n)
                              (end_ (stmtPosition n) - 1))
            (flat_map nodes page_tree).
Proof.
  split; [vm_compute; reflexivity|].
  apply (@X19_expressions_lie_inside_their_statement page_code page_tree).
  vm_compute; reflexivity.
Defined.

Lemma countNl_le s : countNl s <= length s.
Proof. unfold countNl. apply filter_length_le. Qed.

Lemma lineAt_le code i : lineAt code i <= i.
Proof.
  unfold lineAt. etransitivity; [apply countNl_le|].
  rewrite length_firstn. lia.
Qed.

(** X20.  [copy] does not copy.  It returns a range of length one that
    starts where the original starts and carries the end of the original
    as its line, so it equals the original only when the original has
    length one and a line equal to its end.  No position of a statement
    of a parsed tree is of that kind: the copy of each differs from it. *)
Theorem X20_copy_does_not_copy :
  (forall p, copy p = p <-> lineStart p = end_ p /\ end_ p = start p + 1)
  /\ (forall code l,
         parse code = Ok l ->
         Forall (fun n => copy (stmtPosition n) <> stmtPosition n)
                (flat_map nodes l)).
Proof.
  split.
  - intros [s ln e]. unfold copy. cbn [start lineStart end_]. split.
    + intros H. injection H as H1 H2. split; congruence.
    + intros [-> ->]. reflexivity.
  - intros code l H. eapply Forall_impl; [|apply parse_nodes, H]. cbv beta.
    intros n ((P1 & P2 & P3) & _) Hc.
    destruct (stmtPosition n) as [s ln e]. unfold copy in Hc.
    cbn [start lineStart end_] in *. injection Hc as H1 H2.
    pose proof (lineAt_le code s). lia.
Qed.

Lemma X20_copy_does_not_copy_witness :
  parse page_code = Ok page_tree
  /\ Forall (fun n => copy (stmtPosition n) <> stmtPosition n)
            (flat_map nodes page_tree).
Proof.
  split; [vm_compute; reflexivity|].
  apply (proj2 X20_copy_does_not_copy page_code page_tree).
  vm_compute; reflexivity.
Defined.

(* ================================================================= *)
(** ** The order of the map *)

Lemma ascending_bounds ms : forall lo hi, ascending lo ms hi -> lo <= hi.
Proof.
  destruct ms as [|m ms]; intros lo hi H; cbn [ascending] in H; [exact H|].
  destruct H as (H1 & H2 & _). lia.
Qed.

Lemma ascending_le ms : forall lo hi hi',
    ascending lo ms hi -> hi <= hi' -> ascending lo ms hi'.
Proof.
  induction ms as [|m ms IH]; intros lo hi hi' H Hle; cbn [ascending] in *;
    [lia|].
  destruct H as (H1 & H2 & H3). split; [exact H1|]. split; [lia|].
  eapply IH; eassumption.
Qed.

Lemma ascending_ge ms lo lo' hi :
  ascending lo ms hi -> lo' <= lo -> ascending lo' ms hi.
Proof.
  destruct ms as [|m ms]; cbn [ascending]; [lia|].
  intros (H1 & H2 & H3) Hle. split; [lia|]. split; assumption.
Qed.

Lemma ascending_app a : forall lo mid b hi,
    ascending lo a mid -> ascending mid b hi -> ascending lo (a ++ b) hi.
Proof.
  induction a as [|m a IH]; intros lo mid b hi Ha Hb; cbn [ascending app] in *.
  - eapply ascending_ge; eassumption.
  - destruct Ha as (H1 & H2 & H3). pose proof (@ascending_bounds b mid hi Hb).
    split; [exact H1|]. split; [lia|]. eapply IH; eassumption.
Qed.

Lemma ascending_rebase base ms : forall lo hi,
    ascending lo ms hi ->
    ascending (base + lo) (map (rebase base) ms) (base + hi).
Proof.
  induction ms as [|m ms IH]; intros lo hi H; cbn [ascending map] in *; [lia|].
  destruct H as (H1 & H2 & H3). unfold rebase at 1 2 3.
  cbn [generatedOffset length_]. split; [lia|]. split; [lia|].
  apply IH, H3.
Qed.

Lemma mappedLoop_ascending l cs :
  Forall (fun c => ascending 0 (mapsOf c) (length (flatten c))) cs ->
  forall g maps k,
    ascending 0 maps (length g) ->
    ascending 0 (fst (mappedLoop toMappedString l cs g maps k))
              (length (snd (mappedLoop toMappedString l cs g maps k))).
Proof.
  induction 1 as [|c cs Hc _ IH]; intros g maps k Hm; cbn [mappedLoop].
  - cbn [fst snd]. eapply ascending_le; [exact Hm|]. rewrite length_app. lia.
  - unfold flatten, mapsOf in Hc.
    destruct (toMappedString c) as [cm cstr] eqn:E. cbn [fst snd] in Hc.
    apply IH.
    set (g1 := g ++ slice l k (tsParentOffset c)).
    assert (Hg : length g <= length g1)
      by (unfold g1; rewrite length_app; lia).
    assert (Hchild : ascending (length g1) (map (rebase (length g1)) cm)
                               (length (g1 ++ cstr))).
    { rewrite length_app.
      replace (length g1) with (length g1 + 0) at 1 by lia.
      apply ascending_rebase, Hc. }
    destruct (tsShouldBeMapped c).
    + rewrite <- app_assoc. eapply ascending_app; [exact Hm|].
      cbn [app ascending generatedOffset length_].
      split; [exact Hg|]. split; [rewrite length_app; lia | exact Hchild].
    + eapply ascending_app; [exact Hm|].
      eapply ascending_ge; [exact Hchild | exact Hg].
Qed.

(** X21.  The entries of a map come in the order of the generated text.
    For every fragment, [toMappedString] lists the entries so that each
    starts at or behind the start of the one before it, and each ends
    within the generated text. *)
Theorem X21_map_entries_are_in_text_order (t : TsCode) :
  ascending 0 (mapsOf t) (length (flatten t)).
Proof.
  induction t as [so po ch l sm IH] using TsCode_nested_ind.
  unfold flatten, mapsOf. rewrite toMappedString_loop.
  apply mappedLoop_ascending; [exact IH|]. cbn [ascending length]. lia.
Qed.

